(** * Shape detection (src/main.ts, class ShapeDetector): model and properties

    The detector is a single pass over an RGBA buffer: grayscale reduction,
    background polarity estimate, thresholding, 8-connected flood fill,
    Ramer-Douglas-Peucker simplification, classification and a heuristic
    confidence score.

    Numbers.  A JavaScript number is an IEEE double.  Integers (pixel
    coordinates, counts, sums of gray values) are kept as [Z]; doubles hold
    them exactly below 2^53.  The gray value of a pixel, the two levels and
    the threshold decide which pixels are foreground, so they are rounded as
    the doubles are: [fl] rounds a rational to 53 significant bits, to
    nearest, ties to even.  The confidence is an output on which no decision
    depends and is kept as an exact rational.  Radii and distances are exact
    reals; a property that holds only where the doubles are exact as well
    says so by bounding the coordinates ([exactCoord], [exactContour]), and
    one that compares a rounded quantity leaves room for the rounding
    ([clearlyLess], [clearlyLeq]).  A division
    whose divisor may be zero goes through [jsnum], which keeps NaN and the
    two infinities apart from the finite values; the sign of zero is not
    tracked (every zero divisor in this program is a length or a count,
    hence +0). *)

From Stdlib Require Import ZArith QArith Qround Qminmax Qabs Qpower Reals Lia
  Lra Psatz.
From stdpp Require Import base list relations sorting.

Open Scope Z_scope.

(** ** JavaScript numbers with their non-finite values *)

Inductive jsnum (A : Type) : Type :=
  | Fin (a : A)
  | PosInf
  | NegInf
  | NaN.
Arguments Fin {A} a.
Arguments PosInf {A}.
Arguments NegInf {A}.
Arguments NaN {A}.

(** The carrier of the finite values: exact arithmetic with a decided order. *)
Class Carrier (A : Type) := {
  czero : A;
  cadd : A → A → A;
  csub : A → A → A;
  cmul : A → A → A;
  cdiv : A → A → A;
  cltb : A → A → bool
}.

Definition Qltb (a b : Q) : bool :=
  match Qcompare a b with Lt => true | _ => false end.

Definition Rltb (a b : R) : bool :=
  if Rlt_dec a b then true else false.

Definition Rgtb (a b : R) : bool := Rltb b a.

#[global] Instance Q_carrier : Carrier Q :=
  {| czero := 0%Q; cadd := Qplus; csub := Qminus; cmul := Qmult;
     cdiv := Qdiv; cltb := Qltb |}.

#[global] Instance R_carrier : Carrier R :=
  {| czero := 0%R; cadd := Rplus; csub := Rminus; cmul := Rmult;
     cdiv := Rdiv; cltb := Rltb |}.

Section JsArith.
Context {A : Type} `{Carrier A}.

Definition csgn (a : A) : comparison :=
  if cltb czero a then Gt else if cltb a czero then Lt else Eq.

(** [x / 0] and [Infinity * x]: the sign of [x] picks the result. *)
Definition inf_of (s : comparison) : jsnum A :=
  match s with Gt => PosInf | Lt => NegInf | Eq => NaN end.

Definition jadd (a b : jsnum A) : jsnum A :=
  match a, b with
  | NaN, _ | _, NaN => NaN
  | Fin u, Fin v => Fin (cadd u v)
  | PosInf, NegInf | NegInf, PosInf => NaN
  | PosInf, _ | _, PosInf => PosInf
  | NegInf, _ | _, NegInf => NegInf
  end.

Definition jsub (a b : jsnum A) : jsnum A :=
  match a, b with
  | NaN, _ | _, NaN => NaN
  | Fin u, Fin v => Fin (csub u v)
  | PosInf, PosInf | NegInf, NegInf => NaN
  | PosInf, _ | _, NegInf => PosInf
  | NegInf, _ | _, PosInf => NegInf
  end.

Definition jmul (a b : jsnum A) : jsnum A :=
  match a, b with
  | NaN, _ | _, NaN => NaN
  | Fin u, Fin v => Fin (cmul u v)
  | Fin u, PosInf | PosInf, Fin u => inf_of (csgn u)
  | Fin u, NegInf | NegInf, Fin u => inf_of (CompOpp (csgn u))
  | PosInf, PosInf | NegInf, NegInf => PosInf
  | PosInf, NegInf | NegInf, PosInf => NegInf
  end.

Definition jdiv (a b : jsnum A) : jsnum A :=
  match a, b with
  | NaN, _ | _, NaN => NaN
  | Fin u, Fin v =>
      match csgn v with
      | Eq => inf_of (csgn u)
      | _ => Fin (cdiv u v)
      end
  | Fin _, _ => Fin czero
  | PosInf, Fin v => match csgn v with Lt => NegInf | _ => PosInf end
  | NegInf, Fin v => match csgn v with Lt => PosInf | _ => NegInf end
  | _, _ => NaN
  end.

(** [a < b]; false as soon as one side is NaN. *)
Definition jlt (a b : jsnum A) : bool :=
  match a, b with
  | NaN, _ | _, NaN => false
  | Fin u, Fin v => cltb u v
  | NegInf, NegInf => false
  | NegInf, _ => true
  | PosInf, _ => false
  | Fin _, PosInf => true
  | Fin _, NegInf => false
  end.

Definition jgt (a b : jsnum A) : bool := jlt b a.
End JsArith.

(** [Math.sqrt] and [Math.hypot] on reals. *)
Definition jsqrt (a : jsnum R) : jsnum R :=
  match a with
  | Fin u => if Rltb u 0 then NaN else Fin (sqrt u)
  | PosInf => PosInf
  | NegInf | NaN => NaN
  end.

Definition jhypot (a b : jsnum R) : jsnum R :=
  match a, b with
  | PosInf, _ | NegInf, _ | _, PosInf | _, NegInf => PosInf
  | NaN, _ | _, NaN => NaN
  | Fin u, Fin v => Fin (sqrt (u * u + v * v))
  end.

(** ** Rounding to a double

    [fl q] is the double nearest to [q], ties to even: binary64 rounding
    away from overflow and underflow, which no value rounded here comes
    near (the values are gray sums, levels and thresholds, all 0 or between
    2^-60 and 2^12 for pictures of bytes).  A decimal literal of the source
    denotes the double nearest to it, so [0.9] in the code is [fl 0.9]. *)

(** The exponent [e] of a positive rational: [2^e <= a < 2^(e+1)]. *)
Definition binade (a : Q) : Z :=
  let e0 := Z.log2 (Qnum a) - Z.log2 (Zpos (Qden a)) in
  if Qle_bool (2 ^ e0) a then e0 else e0 - 1.

(** Nearest integer, ties to the even one. *)
Definition roundEven (x : Q) : Z :=
  let f := Qfloor x in
  match Qcompare (x - inject_Z f) (1 # 2) with
  | Lt => f
  | Gt => f + 1
  | Eq => if Z.even f then f else f + 1
  end.

(** A positive rational with its significand rounded to 53 bits. *)
Definition flpos (a : Q) : Q :=
  let e := binade a in
  (inject_Z (roundEven (a * 2 ^ (52 - e))) * 2 ^ (e - 52))%Q.

Definition fl (q : Q) : Q :=
  match Qnum q with
  | Z0 => 0%Q
  | Zpos _ => flpos q
  | Zneg _ => (- flpos (- q))%Q
  end.

Definition jfl (a : jsnum Q) : jsnum Q :=
  match a with Fin q => Fin (fl q) | _ => a end.

(** ** Arrays *)

(** [a[i]]: [None] is [undefined] (index out of range). *)
Definition aget {A : Type} (a : list A) (i : Z) : option A :=
  if i <? 0 then None else a !! Z.to_nat i.

(** [a[i] = v] on a typed array: a write out of range is dropped. *)
Definition aset {A : Type} (a : list A) (i : Z) (v : A) : list A :=
  if i <? 0 then a else <[Z.to_nat i := v]> a.

(** An array element used as a number: [undefined] becomes NaN. *)
Definition num (o : option Z) : jsnum Q :=
  match o with Some z => Fin (inject_Z z) | None => NaN end.

(** [!a[i]] *)
Definition falsy (o : option Z) : bool :=
  match o with Some v => v =? 0 | None => true end.

(** [a[i] === 1] *)
Definition is1 (o : option Z) : bool :=
  match o with Some v => v =? 1 | None => false end.

(** ** Data model *)

Record Point := mkPoint { p_x : Z; p_y : Z }.

#[global] Instance Point_eq_dec : EqDecision Point.
Proof. solve_decision. Defined.

Inductive ShapeType := circle | triangle | rectangle | pentagon | star.

Record BoundingBox := mkBox { bb_x : Z; bb_y : Z; bb_width : Z; bb_height : Z }.

Record Center := mkCenter { c_x : Q; c_y : Q }.

Record DetectedShape := mkShape {
  type : ShapeType;
  confidence : Q;
  boundingBox : BoundingBox;
  center : Center;
  area : Z
}.

Record DetectionResult := mkResult {
  shapes : list DetectedShape;
  processingTime : Q;
  imageWidth : Z;
  imageHeight : Z
}.

Record ImageData := mkImage { width : Z; height : Z; data : list Z }.

(** Outcome of the async method: the promise resolves, or the engine
    rejects it with a RangeError (a typed array that cannot be allocated,
    too many arguments in one call, too deep a recursion). *)
Inductive Promise (A : Type) : Type :=
  | Resolved (a : A)
  | RangeError.
Arguments Resolved {A} a.
Arguments RangeError {A}.

(** ** Step 1: grayscale *)

(** [Math.round]: nearest integer, halves upwards. *)
Definition Math_round (q : Q) : Z := Qfloor (q + (1 # 2))%Q.

(** Store into a [Uint8ClampedArray]. *)
Definition clamp8 (z : Z) : Z := Z.max 0 (Z.min 255 z).

(** [0.299 * r + 0.587 * g + 0.114 * b] as the doubles compute it: three
    rounded products, added from left to right. *)
Definition luminance (r g b : Z) : Q :=
  fl (fl (fl (fl 0.299 * inject_Z r) + fl (fl 0.587 * inject_Z g))
      + fl (fl 0.114 * inject_Z b))%Q.

(** [gray[i]]; a missing channel makes the sum NaN, stored as 0. *)
Definition grayAt (data : list Z) (i : Z) : Z :=
  match aget data (i * 4), aget data (i * 4 + 1), aget data (i * 4 + 2) with
  | Some r, Some g, Some b => clamp8 (Math_round (luminance r g b))
  | _, _, _ => 0
  end.

Definition grayscale (width height : Z) (data : list Z) : list Z :=
  map (grayAt data) (seqZ 0 (width * height)).

(** ** Step 2: background level and polarity *)

Definition borderRow (width height : Z) (gray : list Z)
    (acc : jsnum Q * Z) (x : Z) : jsnum Q * Z :=
  (jadd acc.1 (jadd (num (aget gray x))
                    (num (aget gray ((height - 1) * width + x)))),
   acc.2 + 2).

Definition borderCol (width height : Z) (gray : list Z)
    (acc : jsnum Q * Z) (y : Z) : jsnum Q * Z :=
  (jadd acc.1 (jadd (num (aget gray (y * width)))
                    (num (aget gray (y * width + (width - 1))))),
   acc.2 + 2).

(** [(borderSum, borderCount)] after both border loops. *)
Definition border (width height : Z) (gray : list Z) : jsnum Q * Z :=
  foldl (borderCol width height gray)
    (foldl (borderRow width height gray) (Fin 0%Q, 0) (seqZ 0 width))
    (seqZ 0 height).

(** Both sums are sums of integers, hence exact; the quotients are
    rounded. *)
Definition bgLevel (width height : Z) (gray : list Z) : jsnum Q :=
  let b := border width height gray in
  jfl (jdiv b.1 (Fin (inject_Z b.2))).

Definition avgLevel (gray : list Z) : jsnum Q :=
  jfl (jdiv (Fin (inject_Z (foldl Z.add 0 gray)))
            (Fin (inject_Z (Z.of_nat (length gray))))).

Definition darkShapes (width height : Z) (gray : list Z) : bool :=
  jlt (avgLevel gray) (bgLevel width height gray).

(** ** Step 3: threshold *)

Definition threshold (width height : Z) (gray : list Z) : jsnum Q :=
  if darkShapes width height gray
  then jfl (jmul (bgLevel width height gray) (Fin (fl 0.9)))
  else jfl (jmul (bgLevel width height gray) (Fin (fl 1.1))).

Definition binarize (dark : bool) (thr : jsnum Q) (g : Z) : Z :=
  if dark
  then (if jlt (Fin (inject_Z g)) thr then 1 else 0)
  else (if jgt (Fin (inject_Z g)) thr then 1 else 0).

Definition binaryMask (width height : Z) (gray : list Z) : list Z :=
  map (binarize (darkShapes width height gray) (threshold width height gray))
      gray.

(** ** Step 4: connected components by flood fill *)

Definition dirs : list (Z * Z) :=
  [(1, 0); (-1, 0); (0, 1); (0, -1); (1, 1); (-1, -1); (1, -1); (-1, 1)].

Definition inBounds (width height x y : Z) : bool :=
  (0 <=? x) && (0 <=? y) && (x <? width) && (y <? height).

Definition idx (width x y : Z) : Z := y * width + x.

(** One neighbour of [p]; the state is [(visited, stack)], stack top first. *)
Definition visit (width height : Z) (binary : list Z) (p : Point)
    (st : list Z * list Point) (d : Z * Z) : list Z * list Point :=
  let nx := p_x p + d.1 in
  let ny := p_y p + d.2 in
  if negb (inBounds width height nx ny) then st
  else
    let ni := idx width nx ny in
    if falsy (aget st.1 ni) && is1 (aget binary ni)
    then (aset st.1 ni 1, mkPoint nx ny :: st.2)
    else st.

(** The [while (stack.length)] loop; returns [(visited, stack, blob)].
    [fuel] bounds the number of pops; [floodFill_terminates] shows that the
    number of pixels is enough, so the returned stack is empty. *)
Fixpoint floodFill (fuel : nat) (width height : Z) (binary visited : list Z)
    (stack blob : list Point) : list Z * list Point * list Point :=
  match fuel with
  | O => (visited, stack, blob)
  | S fuel' =>
      match stack with
      | [] => (visited, stack, blob)
      | p :: rest =>
          let st := foldl (visit width height binary p) (visited, rest) dirs in
          floodFill fuel' width height binary st.1 st.2 (blob ++ [p])
      end
  end.

(** Body of the two scan loops at pixel [(x, y)]; the state is
    [(visited, contours)]. *)
Definition scanPixel (width height : Z) (binary : list Z) (y : Z)
    (st : list Z * list (list Point)) (x : Z) : list Z * list (list Point) :=
  let id := idx width x y in
  if is1 (aget binary id) && falsy (aget st.1 id)
  then
    let r := floodFill (length st.1) width height binary (aset st.1 id 1)
               [mkPoint x y] [] in
    (r.1.1, if 20 <? Z.of_nat (length r.2) then st.2 ++ [r.2] else st.2)
  else st.

Definition scanRow (width height : Z) (binary : list Z)
    (st : list Z * list (list Point)) (y : Z) : list Z * list (list Point) :=
  foldl (scanPixel width height binary y) st (seqZ 0 width).

Definition scan (width height : Z) (binary : list Z)
    : list Z * list (list Point) :=
  foldl (scanRow width height binary)
        (replicate (Z.to_nat (width * height)) 0, []) (seqZ 0 height).

Definition findContours (width height : Z) (binary : list Z)
    : list (list Point) :=
  (scan width height binary).2.

(** The same scan without the size filter: every blob that a flood fill
    produces, in discovery order.  Used to state what the filter drops. *)
Definition scanPixelAll (width height : Z) (binary : list Z) (y : Z)
    (st : list Z * list (list Point)) (x : Z) : list Z * list (list Point) :=
  let id := idx width x y in
  if is1 (aget binary id) && falsy (aget st.1 id)
  then
    let r := floodFill (length st.1) width height binary (aset st.1 id 1)
               [mkPoint x y] [] in
    (r.1.1, st.2 ++ [r.2])
  else st.

Definition scanAll (width height : Z) (binary : list Z)
    : list Z * list (list Point) :=
  foldl (λ st y, foldl (scanPixelAll width height binary y) st (seqZ 0 width))
        (replicate (Z.to_nat (width * height)) 0, []) (seqZ 0 height).

Definition allBlobs (width height : Z) (binary : list Z)
    : list (list Point) :=
  (scanAll width height binary).2.

(** ** Polygon simplification (Ramer-Douglas-Peucker) *)

Definition crossZ (p a b : Point) : Z :=
  (p_y b - p_y a) * p_x p - (p_x b - p_x a) * p_y p
  + p_x b * p_y a - p_y b * p_x a.

Definition den2 (a b : Point) : Z :=
  (p_x b - p_x a) * (p_x b - p_x a) + (p_y b - p_y a) * (p_y b - p_y a).

Definition perpendicularDistance (p a b : Point) : R :=
  let num := Rabs (IZR (crossZ p a b)) in
  let den := sqrt (IZR (den2 a b)) in
  if Req_dec_T den 0 then 0%R else (num / den)%R.

(** Body of the [for] loop of [rdpSimplify]; the state is
    [(index, maxDist)]. *)
Definition farStep (points : list Point) (first last : Point)
    (st : Z * R) (i : nat) : Z * R :=
  match points !! i with
  | Some p =>
      let d := perpendicularDistance p first last in
      if Rgtb d st.2 then (Z.of_nat i, d) else st
  | None => st
  end.

Definition farthest (points : list Point) (first last : Point) : Z * R :=
  foldl (farStep points first last) (-1, 0%R)
        (seq 1 (length points - 2)).

(** [rdpSimplify]; the recursion is on slices, so it carries [fuel], and
    [rdpSimplify_unfold] shows that the length of the input is enough. *)
Fixpoint rdp (fuel : nat) (points : list Point) (tolerance : R)
    : list Point :=
  if (length points <? 3)%nat then points
  else
    match fuel, points, last points with
    | S fuel', first :: _, Some lst =>
        let r := farthest points first lst in
        if Rgtb r.2 tolerance && negb (r.1 =? -1)
        then
          let left := rdp fuel' (take (Z.to_nat (r.1 + 1)) points) tolerance in
          let right := rdp fuel' (drop (Z.to_nat r.1) points) tolerance in
          removelast left ++ right
        else [first; lst]
    | _, _, _ => points
    end.

Definition rdpSimplify (points : list Point) (tolerance : R) : list Point :=
  rdp (length points) points tolerance.

(** Number of nested activations of [rdpSimplify] at the deepest point of
    the recursion; the fuel is the one of [rdp]. *)
Fixpoint rdpDepth (fuel : nat) (points : list Point) (tolerance : R) : nat :=
  if (length points <? 3)%nat then 1%nat
  else
    match fuel, points, last points with
    | S fuel', first :: _, Some lst =>
        let r := farthest points first lst in
        if Rgtb r.2 tolerance && negb (r.1 =? -1)
        then
          S (Nat.max
               (rdpDepth fuel' (take (Z.to_nat (r.1 + 1)) points) tolerance)
               (rdpDepth fuel' (drop (Z.to_nat r.1) points) tolerance))
        else 1%nat
    | _, _, _ => 1%nat
    end.

(** The same procedure decided on integers, for a tolerance [t >= 0]:
    all distances of one call share the denominator [sqrt (den2 first last)],
    so they compare like their numerators, and [num / den > t] is
    [num^2 > t^2 * den^2].  [rdpSimplify_Z] proves both agree. *)
Definition farStepZ (points : list Point) (first last : Point)
    (st : Z * Z) (i : nat) : Z * Z :=
  match points !! i with
  | Some p =>
      let n := Z.abs (crossZ p first last) in
      if (st.2 <? n) && negb (den2 first last =? 0)
      then (Z.of_nat i, n) else st
  | None => st
  end.

Definition farthestZ (points : list Point) (first last : Point) : Z * Z :=
  foldl (farStepZ points first last) (-1, 0) (seq 1 (length points - 2)).

Fixpoint rdpZ (fuel : nat) (points : list Point) (t : Z) : list Point :=
  if (length points <? 3)%nat then points
  else
    match fuel, points, last points with
    | S fuel', first :: _, Some lst =>
        let r := farthestZ points first lst in
        if (t * t * den2 first lst <? r.2 * r.2) && negb (r.1 =? -1)
        then
          let left := rdpZ fuel' (take (Z.to_nat (r.1 + 1)) points) t in
          let right := rdpZ fuel' (drop (Z.to_nat r.1) points) t in
          removelast left ++ right
        else [first; lst]
    | _, _, _ => points
    end.

Definition rdpSimplifyZ (points : list Point) (t : Z) : list Point :=
  rdpZ (length points) points t.

(** ** Classification *)

Definition computeCenter (points : list Point) : jsnum R * jsnum R :=
  let sx := foldl (λ a p, a + p_x p) 0 points in
  let sy := foldl (λ a p, a + p_y p) 0 points in
  let n := Fin (INR (length points)) in
  (jdiv (Fin (IZR sx)) n, jdiv (Fin (IZR sy)) n).

Definition radii (contour : list Point) : list (jsnum R) :=
  let c := computeCenter contour in
  map (λ p, jhypot (jsub (Fin (IZR (p_x p))) c.1)
                   (jsub (Fin (IZR (p_y p))) c.2)) contour.

Definition meanRadius (contour : list Point) : jsnum R :=
  let rs := radii contour in
  jdiv (foldl jadd (Fin 0%R) rs) (Fin (INR (length rs))).

Definition variance (contour : list Point) : jsnum R :=
  let rs := radii contour in
  let mean := meanRadius contour in
  jdiv (foldl (λ a b, jadd a (jmul (jsub b mean) (jsub b mean))) (Fin 0%R) rs)
       (Fin (INR (length rs))).

Definition cv (contour : list Point) : jsnum R :=
  jdiv (jsqrt (variance contour)) (meanRadius contour).

Definition classifyShape (approx contour : list Point) (w h : Z)
    : ShapeType :=
  let v := length approx in
  if (v =? 3)%nat then triangle
  else if (v =? 4)%nat then rectangle
  else if (v =? 5)%nat then pentagon
  else if jlt (cv contour) (Fin 0.15%R) then circle
  else star.

(** ** Confidence *)

Definition computeConfidence (ty : ShapeType) (approx contour : list Point)
    : Q :=
  let base :=
    match ty with
    | triangle => 0.9
    | rectangle => 0.9
    | pentagon => 0.85
    | circle => 0.95
    | star => 0.8
    end%Q in
  let sizeFactor := Qmin 1 (inject_Z (Z.of_nat (length contour)) / 500) in
  Qmin 1 (base * (0.8 + 0.2 * sizeFactor)).

(** ** Step 5: one shape per contour *)

(** [Math.min(...xs)] and [Math.max(...xs)].  On an empty list JavaScript
    gives the infinities; the value 0 below stands in for them and is never
    used, since every contour holds more than 20 points
    ([findContours_nonempty]). *)
Definition Math_min (xs : list Z) : Z :=
  match xs with [] => 0 | v :: t => foldl Z.min v t end.

Definition Math_max (xs : list Z) : Z :=
  match xs with [] => 0 | v :: t => foldl Z.max v t end.

Definition boxOf (contour : list Point) : BoundingBox :=
  let xs := map p_x contour in
  let ys := map p_y contour in
  let minX := Math_min xs in
  let maxX := Math_max xs in
  let minY := Math_min ys in
  let maxY := Math_max ys in
  mkBox minX minY (maxX - minX) (maxY - minY).

Definition shapeOf (contour : list Point) : DetectedShape :=
  let xs := map p_x contour in
  let ys := map p_y contour in
  let minX := Math_min xs in
  let maxX := Math_max xs in
  let minY := Math_min ys in
  let maxY := Math_max ys in
  let w := maxX - minX in
  let h := maxY - minY in
  let center := mkCenter (inject_Z (minX + maxX) / 2) (inject_Z (minY + maxY) / 2) in
  let approx := rdpSimplify contour 3 in
  let shapeType := classifyShape approx contour w h in
  let area := w * h in
  let confidence := computeConfidence shapeType approx contour in
  mkShape shapeType confidence (mkBox minX minY w h) center area.

(** ** The pipeline *)

(** Steps 2 to 5, from the grayscale buffer on. *)
Definition contoursOf (width height : Z) (gray : list Z) : list (list Point) :=
  findContours width height (binaryMask width height gray).

Definition detectGray (width height : Z) (gray : list Z)
    : list DetectedShape :=
  map shapeOf (contoursOf width height gray).

(** [detectShapes]; [clock] holds the two readings of [performance.now()]. *)
Definition detectShapes (clock : Q * Q) (imageData : ImageData)
    : Promise DetectionResult :=
  let w := width imageData in
  let h := height imageData in
  if w * h <? 0 then RangeError
  else
    let gray := grayscale w h (data imageData) in
    Resolved (mkResult (detectGray w h gray) (clock.2 - clock.1)%Q w h).

(** ** Limits of the engine

    Nothing in [detectShapes] checks its input, but three steps can be
    refused by the engine that runs it, each with a RangeError: the
    allocation of a typed array of [width * height] elements (refused above
    2^53 - 1 by the language and above the engine's own maximum),
    [Math.min(...xs)] and [Math.max(...xs)], which pass one argument per
    pixel of the blob, and the recursion of [rdpSimplify].  [detectShapes]
    above is the method on an engine without such limits; [detectShapesOn]
    is the method on an engine with the given ones. *)
Record Engine := mkEngine {
  maxLength : Z;
  maxArguments : Z;
  maxDepth : Z
}.

Definition arrayLimit (e : Engine) : Z := Z.min (maxLength e) (2 ^ 53 - 1).

Definition fits (e : Engine) (contour : list Point) : bool :=
  (Z.of_nat (length contour) <=? maxArguments e)
  && (Z.of_nat (rdpDepth (length contour) contour 3) <=? maxDepth e).

Definition detectShapesOn (e : Engine) (clock : Q * Q) (imageData : ImageData)
    : Promise DetectionResult :=
  let w := width imageData in
  let h := height imageData in
  if (w * h <? 0) || (arrayLimit e <? w * h) then RangeError
  else
    let gray := grayscale w h (data imageData) in
    if forallb (fits e) (contoursOf w h gray)
    then Resolved (mkResult (detectGray w h gray) (clock.2 - clock.1)%Q w h)
    else RangeError.

(** ** Notions used to state the properties *)

(** Foreground pixels of a mask, 8-adjacency, and connection by a path of
    foreground pixels. *)
Definition foreground (width height : Z) (binary : list Z) (p : Point) : Prop :=
  (0 ≤ p_x p < width ∧ 0 ≤ p_y p < height)
  ∧ aget binary (idx width (p_x p) (p_y p)) = Some 1.

Definition adjacent (p q : Point) : Prop :=
  p ≠ q ∧ Z.abs (p_x q - p_x p) ≤ 1 ∧ Z.abs (p_y q - p_y p) ≤ 1.

Definition step (width height : Z) (binary : list Z) (p q : Point) : Prop :=
  adjacent p q ∧ foreground width height binary q.

Definition connected (width height : Z) (binary : list Z)
    : Point → Point → Prop :=
  rtc (step width height binary).

(** [comps] lists the 8-connected components of the foreground, each one
    once and without repeated pixels. *)
Definition components (width height : Z) (binary : list Z)
    (comps : list (list Point)) : Prop :=
  NoDup (concat comps)
  ∧ (∀ p, foreground width height binary p ↔ p ∈ concat comps)
  ∧ (∀ c p q, c ∈ comps → p ∈ c →
       (q ∈ c ↔ connected width height binary p q)).

(** [visited[idx(p)]] is set. *)
Definition marked (width : Z) (visited : list Z) (p : Point) : Prop :=
  falsy (aget visited (idx width (p_x p) (p_y p))) = false.

(** Number of cells of [visited] that are still 0. *)
Definition zeros (visited : list Z) : nat :=
  length (filter (λ v, v = 0) visited).

Definition big (blob : list Point) : bool := 20 <? Z.of_nat (length blob).

(** The blobs behind the shapes of a call, in output order. *)
Definition sourceBlobs (imageData : ImageData) : list (list Point) :=
  contoursOf (width imageData) (height imageData)
    (grayscale (width imageData) (height imageData) (data imageData)).

(** Luminance inversion of a grayscale buffer. *)
Definition invert (gray : list Z) : list Z := map (λ g, 255 - g) gray.

(** The colour channels of pixel [i] (alpha is never read). *)
Definition pixelAt (data : list Z) (i : Z) : option Z * option Z * option Z :=
  (aget data (i * 4), aget data (i * 4 + 1), aget data (i * 4 + 2)).

(** All pixels carry the same colour. *)
Definition uniform (imageData : ImageData) : Prop :=
  Forall (λ i, pixelAt (data imageData) i = pixelAt (data imageData) 0)
         (seqZ 0 (width imageData * height imageData)).

(** The score of section 4.7, written from its text. *)
Definition baseScore (ty : ShapeType) : Q :=
  match ty with
  | triangle => 0.9
  | rectangle => 0.9
  | pentagon => 0.85
  | circle => 0.95
  | star => 0.8
  end%Q.

Definition sizeFactor (blobPointCount : nat) : Q :=
  Qmin 1 (inject_Z (Z.of_nat blobPointCount) / 500).

Definition confidenceFormula (ty : ShapeType) (blobPointCount : nat) : Q :=
  Qmin 1 (baseScore ty * (0.8 + 0.2 * sizeFactor blobPointCount)).

(** The circularity measure of section 4.6, written from its text on plain
    reals. *)
Definition sumR (l : list R) : R := foldr Rplus 0%R l.

Definition centroid (blob : list Point) : R * R :=
  ((sumR (map (λ p, IZR (p_x p)) blob) / INR (length blob))%R,
   (sumR (map (λ p, IZR (p_y p)) blob) / INR (length blob))%R).

Definition radius (c : R * R) (p : Point) : R :=
  sqrt ((IZR (p_x p) - c.1) * (IZR (p_x p) - c.1)
        + (IZR (p_y p) - c.2) * (IZR (p_y p) - c.2))%R.

Definition mean (l : list R) : R := (sumR l / INR (length l))%R.

Definition stddev (l : list R) : R :=
  sqrt (sumR (map (λ r, (r - mean l) * (r - mean l))%R l) / INR (length l))%R.

Definition coefficientOfVariation (blob : list Point) : R :=
  let rs := map (radius (centroid blob)) blob in
  (stddev rs / mean rs)%R.

(** ** Invariants of the flood fill *)

Definition neighbour (p : Point) (d : Z * Z) : Point :=
  mkPoint (p_x p + d.1) (p_y p + d.2).

(** State of one fill started at [seed] on the visited array [vis0]. *)
Definition fillInv (width height : Z) (binary vis0 : list Z) (seed : Point)
    (vis : list Z) (stack blob : list Point) : Prop :=
  length vis = Z.to_nat (width * height)
  ∧ (∀ r, (0 ≤ p_x r < width ∧ 0 ≤ p_y r < height) →
       (marked width vis r ↔ marked width vis0 r ∨ r ∈ blob ∨ r ∈ stack))
  ∧ NoDup (blob ++ stack)
  ∧ (∀ r, r ∈ blob ++ stack →
       foreground width height binary r
       ∧ connected width height binary seed r
       ∧ ¬ marked width vis0 r)
  ∧ (∀ r q, r ∈ blob → step width height binary r q → marked width vis q)
  ∧ seed ∈ blob ++ stack.

(** State of the scan between two fills. *)
Definition scanInv (width height : Z) (binary : list Z)
    (st : list Z * list (list Point)) : Prop :=
  length st.1 = Z.to_nat (width * height)
  ∧ (∀ r, (0 ≤ p_x r < width ∧ 0 ≤ p_y r < height) →
       (marked width st.1 r ↔ r ∈ concat st.2))
  ∧ NoDup (concat st.2)
  ∧ (∀ b p q, b ∈ st.2 → p ∈ b →
       foreground width height binary p
       ∧ (q ∈ b ↔ connected width height binary p q)).

(** The blob list of a scan state only grows. *)
Definition grows (s s' : list Z * list (list Point)) : Prop :=
  ∃ e, s'.2 = s.2 ++ e.

(** The two loop states carry the same index, and the real maximum is the
    integer one over the common denominator. *)
Definition farRel (first lst : Point) (st : Z * R) (stZ : Z * Z) : Prop :=
  st.1 = stZ.1 ∧ 0 ≤ stZ.2
  ∧ ((den2 first lst = 0 ∧ st.2 = 0%R ∧ stZ.2 = 0)
     ∨ (0 < den2 first lst
        ∧ st.2 = (IZR stZ.2 / sqrt (IZR (den2 first lst)))%R)).

(** A level of a constant buffer of value [c]: [c] itself, or NaN when
    nothing was sampled. *)
Definition level (c : Z) (v : jsnum Q) : Prop :=
  v = NaN ∨ ∃ q, v = Fin q ∧ (q == inject_Z c)%Q.

(** The border accumulator [(borderSum, borderCount)] on such a buffer. *)
Definition borderInv (c : Z) (acc : jsnum Q * Z) : Prop :=
  0 ≤ acc.2
  ∧ (acc.1 = NaN
     ∨ ∃ s, acc.1 = Fin s ∧ (s == inject_Z c * inject_Z acc.2)%Q).

(** The border accumulators of a buffer and of its inversion: same count,
    and the sums add up to 255 per sample. *)
Definition invRel (acc acc' : jsnum Q * Z) : Prop :=
  acc.2 = acc'.2
  ∧ match acc.1, acc'.1 with
    | Fin s, Fin s' => (s' == 255 * inject_Z acc.2 - s)%Q
    | NaN, NaN => True
    | _, _ => False
    end.

(** ** Sample inputs *)

(** A gray picture as RGBA bytes: every pixel is [(v, v, v, 255)] with
    [v = f x y]. *)
Definition grayImage (w h : Z) (f : Z → Z → Z) : ImageData :=
  mkImage w h
    (flat_map (λ y, flat_map (λ x, [f x y; f x y; f x y; 255]) (seqZ 0 w))
              (seqZ 0 h)).

(** A 5x5 square of value [inner] inside a 7x7 picture of value [outer]. *)
Definition squareAt (outer inner x y : Z) : Z :=
  if (1 <=? x) && (x <=? 5) && (1 <=? y) && (y <=? 5) then inner else outer.

Definition blackSquare : ImageData := grayImage 7 7 (squareAt 255 0).

Definition faintSquare : ImageData := grayImage 7 7 (squareAt 255 240).

Definition flatGray : ImageData := grayImage 5 5 (λ _ _, 128).


(** ** Further notions *)

(** A grayscale buffer as [detectShapes] builds it for a picture with at
    least one pixel. *)
Definition wellFormed (w h : Z) (gray : list Z) : Prop :=
  0 < w ∧ 0 < h ∧ length gray = Z.to_nat (w * h)
  ∧ Forall (λ g, 0 ≤ g ≤ 255) gray.

(** The border accumulator while every sample read so far was a byte. *)
Definition borderBytes (acc : jsnum Q * Z) : Prop :=
  0 ≤ acc.2
  ∧ ∃ s, acc.1 = Fin s ∧ (0 <= s)%Q ∧ (s <= 255 * inject_Z acc.2)%Q.

(** The border accumulator while every sample read so far was [c]. *)
Definition borderExact (c : Z) (acc : jsnum Q * Z) : Prop :=
  0 ≤ acc.2 ∧ ∃ s, acc.1 = Fin s ∧ (s == inject_Z c * inject_Z acc.2)%Q.

Definition onBorder (w h x y : Z) : bool :=
  (x =? 0) || (x =? w - 1) || (y =? 0) || (y =? h - 1).

(** Every pixel of the outermost rows and columns has gray value [c]. *)
Definition cleanBorder (w h : Z) (gray : list Z) (c : Z) : Prop :=
  Forall (λ y, Forall (λ x, onBorder w h x y = true →
                            aget gray (idx w x y) = Some c) (seqZ 0 w))
         (seqZ 0 h).

(** Row-major order of pixels: higher rows first, then left to right. *)
Definition before (p q : Point) : Prop :=
  p_y p < p_y q ∨ (p_y p = p_y q ∧ p_x p < p_x q).

(** Order of two blobs by their first pixels. *)
Definition seedBefore (b b' : list Point) : Prop :=
  ∃ s s', head b = Some s ∧ head b' = Some s' ∧ before s s'.

(** State of the scan when it is about to look at pixel [(x, y)]: earlier
    foreground pixels are marked, every blob starts with its earliest
    pixel, and the blobs are in the order of these pixels. *)
Definition orderInv (width height : Z) (binary : list Z) (x y : Z)
    (st : list Z * list (list Point)) : Prop :=
  scanInv width height binary st
  ∧ (∀ p, foreground width height binary p → before p (mkPoint x y) →
       marked width st.1 p)
  ∧ (∀ b, b ∈ st.2 →
       ∃ s rest, b = s :: rest ∧ before s (mkPoint x y)
                 ∧ ∀ q, q ∈ rest → before s q)
  ∧ StronglySorted seedBefore st.2.

Definition diamond : list Point :=
  [mkPoint 1 0; mkPoint (-1) 0; mkPoint 0 1; mkPoint 0 (-1)].

(** The unit roundoff of binary64, [2^-53]. *)
Definition unit_roundoff : Q := 1 # 9007199254740992.

(** The exact means of which [bgLevel] and [avgLevel] are the roundings. *)
Definition borderMean (width height : Z) (gray : list Z) : jsnum Q :=
  let b := border width height gray in
  jdiv b.1 (Fin (inject_Z b.2)).

Definition overallMean (gray : list Z) : jsnum Q :=
  jdiv (Fin (inject_Z (foldl Z.add 0 gray)))
       (Fin (inject_Z (Z.of_nat (length gray)))).

(** Comparisons with room to spare: one part in 10^9 of the two sides,
    far more than the rounding of a quotient and a product of doubles can
    move either of them. *)
Definition eta : Q := 1 # 1000000000.

Definition clearlyLess (a b : Q) : Prop :=
  (a + eta * (Qabs a + Qabs b) < b)%Q.

Definition clearlyLeq (a b : Q) : Prop :=
  (a + eta * (Qabs a + Qabs b) <= b)%Q.

(** Coordinates for which every product and sum in the cross product of
    [perpendicularDistance] is an integer below 2^53, which doubles hold
    exactly. *)
Definition exactCoord (p : Point) : Prop :=
  Z.abs (p_x p) ≤ 2 ^ 25 ∧ Z.abs (p_y p) ≤ 2 ^ 25.

(** A contour whose coordinate sums in [computeCenter] stay below 2^53. *)
Definition exactContour (contour : list Point) : Prop :=
  Z.of_nat (length contour) ≤ 2 ^ 25 ∧ Forall exactCoord contour.

(** ** Display names of the test images

    [loadTestImages] derives the caption of a test image from its file
    name: [imageName.replace(/[_-]/g, " ").replace(/\.(svg|png)$/i, "")].
    A string is the list of its UTF-16 code units.  Under the [i] flag a
    code unit matches an ASCII letter of the pattern when it is that
    letter in either case (a code unit above 127 never folds to an ASCII
    one). *)
Definition isSeparator (c : Z) : bool := (c =? 95) || (c =? 45).

Definition replaceSeparators (s : list Z) : list Z :=
  map (λ c, if isSeparator c then 32 else c) s.

Definition matchesLetter (lower c : Z) : bool :=
  (c =? lower) || (c =? lower - 32).

(** The four code units matched by [\.(svg|png)]. *)
Definition isExtension (e : list Z) : bool :=
  match e with
  | [d; a; b; c] =>
      (d =? 46)
      && ((matchesLetter 115 a && matchesLetter 118 b && matchesLetter 103 c)
          || (matchesLetter 112 a && matchesLetter 110 b
              && matchesLetter 103 c))
  | _ => false
  end.

(** [s.replace(/\.(svg|png)$/i, "")]: the pattern is anchored at the end
    of the string, so the only possible match is the last four code
    units. *)
Definition stripExtension (s : list Z) : list Z :=
  if isExtension (drop (length s - 4) s)
  then take (length s - 4) s else s.

Definition displayName (imageName : list Z) : list Z :=
  stripExtension (replaceSeparators imageName).

(** * Properties *)

(** ** Rounding

    [fl] is the standard model of a correctly rounded operation: the result
    is within one part in 2^53 of the exact value ([fl_err]), rounding is
    monotone ([fl_mono]) and leaves the integers below 2^53 alone
    ([fl_Z]). *)

Lemma two_pos (e : Z) : (0 < 2 ^ e)%Q.
Proof. apply Qpower_0_lt. reflexivity. Qed.

Lemma two_S (e : Z) : (2 ^ (e + 1) == 2 * 2 ^ e)%Q.
Proof. rewrite Qpower_plus by discriminate. ring. Qed.

Lemma two_inv (e e' : Z) : e + e' = 0 → (2 ^ e * 2 ^ e' == 1)%Q.
Proof.
  intros E. rewrite <- Qpower_plus by discriminate. rewrite E. reflexivity.
Qed.

Lemma two_log2 (n : positive) :
  (2 ^ Z.log2 (Zpos n) <= inject_Z (Zpos n) < 2 * 2 ^ Z.log2 (Zpos n))%Q.
Proof.
  pose proof (Z.log2_spec (Zpos n) eq_refl) as [H1 H2].
  pose proof (Z.log2_nonneg (Zpos n)) as H0.
  pose proof (Zpower_Qpower 2 (Z.log2 (Zpos n)) H0) as E.
  change (inject_Z 2) with 2%Q in E.
  rewrite Zle_Qle in H1. rewrite Zlt_Qlt in H2.
  rewrite Z.pow_succ_r, inject_Z_mult in H2 by done.
  change (inject_Z 2) with 2%Q in H2. rewrite E in H1, H2. split; assumption.
Qed.

Lemma binade_spec (a : Q) :
  (0 < a)%Q → (2 ^ binade a <= a < 2 ^ (binade a + 1))%Q.
Proof.
  intros Ha. destruct a as [n d]. unfold binade. cbn [Qnum Qden].
  assert (0 < n)%Z as Hn by (unfold Qlt in Ha; simpl in Ha; lia).
  destruct n as [|n|n]; try lia.
  pose proof (two_log2 n) as [Hn1 Hn2]. pose proof (two_log2 d) as [Hd1 Hd2].
  set (ln := Z.log2 (Zpos n)) in *. set (ld := Z.log2 (Zpos d)) in *.
  pose proof (two_pos ln) as Pn. pose proof (two_pos ld) as Pd.
  assert (2 ^ (ln - ld) * 2 ^ ld == 2 ^ ln)%Q as E.
  { rewrite <- Qpower_plus by discriminate. replace (ln - ld + ld)%Z with ln by lia.
    reflexivity. }
  pose proof (two_pos (ln - ld)) as P.
  assert ((Zpos n # d) * inject_Z (Zpos d) == inject_Z (Zpos n))%Q as Ea.
  { unfold Qeq, Qmult, inject_Z. simpl. lia. }
  set (a := Zpos n # d) in *. set (N := inject_Z (Zpos n)) in *.
  set (D := inject_Z (Zpos d)) in *. set (p := (2 ^ (ln - ld))%Q) in *.
  set (pn := (2 ^ ln)%Q) in *. set (pd := (2 ^ ld)%Q) in *.
  destruct (Qle_bool p a) eqn:Hb.
  - apply Qle_bool_iff in Hb. split; [done|]. rewrite two_S. fold p. nra.
  - assert (a < p)%Q as Hlt.
    { apply Qnot_le_lt. intros H. apply Qle_bool_iff in H. congruence. }
    replace (ln - ld - 1 + 1)%Z with (ln - ld)%Z by lia. fold p. split; [|done].
    assert (2 * 2 ^ (ln - ld - 1) == p)%Q as E2.
    { rewrite <- two_S. replace (ln - ld - 1 + 1)%Z with (ln - ld)%Z by lia.
      reflexivity. }
    pose proof (two_pos (ln - ld - 1)) as P2.
    set (p' := (2 ^ (ln - ld - 1))%Q) in *. nra.
Qed.

Lemma binade_unique (a : Q) (e e' : Z) :
  (2 ^ e <= a < 2 ^ (e + 1))%Q → (2 ^ e' <= a < 2 ^ (e' + 1))%Q → e = e'.
Proof.
  intros [H1 H2] [H1' H2'].
  assert (2 ^ e < 2 ^ (e' + 1))%Q as Ha by lra.
  assert (2 ^ e' < 2 ^ (e + 1))%Q as Hb by lra.
  apply Qpower_lt_compat_l_inv in Ha; [|reflexivity].
  apply Qpower_lt_compat_l_inv in Hb; [|reflexivity]. lia.
Qed.

Lemma binade_proper (a b : Q) : (0 < a)%Q → (a == b)%Q → binade a = binade b.
Proof.
  intros Ha E. pose proof (binade_spec a Ha) as Hs.
  assert (0 < b)%Q as Hb by lra. pose proof (binade_spec b Hb) as Hs'.
  apply (binade_unique a); [done|]. lra.
Qed.

Lemma binade_mono (a b : Q) : (0 < a)%Q → (a <= b)%Q → binade a ≤ binade b.
Proof.
  intros Ha Hab. pose proof (binade_spec a Ha) as [H1 _].
  assert (0 < b)%Q as Hb by lra. pose proof (binade_spec b Hb) as [_ H2].
  assert (2 ^ binade a < 2 ^ (binade b + 1))%Q as H by lra.
  apply Qpower_lt_compat_l_inv in H; [|reflexivity]. lia.
Qed.

Lemma roundEven_cases (x : Q) :
  (roundEven x = Qfloor x ∧ (x - inject_Z (Qfloor x) <= 1 # 2)%Q)
  ∨ (roundEven x = Qfloor x + 1 ∧ (1 # 2 <= x - inject_Z (Qfloor x))%Q).
Proof.
  unfold roundEven. destruct (Qcompare_spec (x - inject_Z (Qfloor x)) (1 # 2)).
  - destruct (Z.even (Qfloor x)); [left|right]; split; [done|lra|done|lra].
  - left. split; [done|lra].
  - right. split; [done|lra].
Qed.

Lemma roundEven_err (x : Q) :
  (x - (1 # 2) <= inject_Z (roundEven x) <= x + (1 # 2))%Q.
Proof.
  pose proof (Qfloor_le x) as H1. pose proof (Qlt_floor x) as H2.
  rewrite inject_Z_plus in H2. change (inject_Z 1) with 1%Q in H2.
  destruct (roundEven_cases x) as [[-> H]|[-> H]];
    rewrite ?inject_Z_plus; change (inject_Z 1) with 1%Q; lra.
Qed.

Lemma roundEven_proper (x y : Q) : (x == y)%Q → roundEven x = roundEven y.
Proof.
  intros E. unfold roundEven. rewrite (Qfloor_comp x y E).
  by rewrite (Qcompare_comp (x - inject_Z (Qfloor y))%Q (y - inject_Z (Qfloor y))%Q
                ltac:(lra) (1 # 2)%Q (1 # 2)%Q ltac:(reflexivity)).
Qed.

Lemma roundEven_Z (z : Z) : roundEven (inject_Z z) = z.
Proof.
  unfold roundEven. rewrite Qfloor_Z.
  destruct (Qcompare_spec (inject_Z z - inject_Z z) (1 # 2)); [lra|done|lra].
Qed.

Lemma roundEven_mono (x y : Q) : (x <= y)%Q → roundEven x ≤ roundEven y.
Proof.
  intros Hxy. pose proof (Qfloor_resp_le x y Hxy) as Hf.
  destruct (Z.eq_dec (Qfloor x) (Qfloor y)) as [E|Hne].
  - unfold roundEven. rewrite E.
    destruct (Qcompare_spec (x - inject_Z (Qfloor y)) (1 # 2));
      destruct (Qcompare_spec (y - inject_Z (Qfloor y)) (1 # 2));
      destruct (Z.even (Qfloor y)); try lia; lra.
  - destruct (roundEven_cases x) as [[-> _]|[-> _]];
      destruct (roundEven_cases y) as [[-> _]|[-> _]]; lia.
Qed.

Lemma flpos_scaled (a : Q) :
  (0 < a)%Q →
  (2 ^ 52 <= a * 2 ^ (52 - binade a) < 2 ^ 53)%Q.
Proof.
  intros Ha. pose proof (binade_spec a Ha) as [H1 H2].
  set (e := binade a) in *.
  assert (2 ^ e * 2 ^ (52 - e) == 2 ^ 52)%Q as E1.
  { rewrite <- Qpower_plus by discriminate. by replace (e + (52 - e)) with 52 by lia. }
  assert (2 ^ (e + 1) * 2 ^ (52 - e) == 2 ^ 53)%Q as E2.
  { rewrite <- Qpower_plus by discriminate.
    by replace (e + 1 + (52 - e)) with 53 by lia. }
  pose proof (two_pos (52 - e)) as P.
  set (s := (2 ^ (52 - e))%Q) in *. set (p := (2 ^ e)%Q) in *.
  set (p' := (2 ^ (e + 1))%Q) in *.
  split; [rewrite <- E1|rewrite <- E2]; nra.
Qed.

Lemma flpos_err (a : Q) :
  (0 < a)%Q →
  (a * (1 - unit_roundoff) <= flpos a <= a * (1 + unit_roundoff))%Q.
Proof.
  intros Ha. pose proof (binade_spec a Ha) as [H1 _]. unfold flpos.
  set (e := binade a) in *.
  pose proof (roundEven_err (a * 2 ^ (52 - e))) as [R1 R2].
  set (m := inject_Z (roundEven (a * 2 ^ (52 - e)))) in *.
  pose proof (two_inv (52 - e) (e - 52) ltac:(lia)) as Einv.
  assert (2 ^ (e - 52) == 2 ^ e * (2 * unit_roundoff))%Q as Et.
  { replace (e - 52) with (e + (-52)) by lia.
    rewrite Qpower_plus by discriminate.
    assert (2 ^ (-52) == 2 * unit_roundoff)%Q as -> by reflexivity.
    reflexivity. }
  pose proof (two_pos (52 - e)) as P. pose proof (two_pos (e - 52)) as P'.
  pose proof (two_pos e) as Pe.
  set (s := (2 ^ (52 - e))%Q) in *. set (t := (2 ^ (e - 52))%Q) in *.
  set (p := (2 ^ e)%Q) in *.
  assert (m * t - a == (m - a * s) * t)%Q as Ed.
  { transitivity (m * t - a * (s * t))%Q; [rewrite Einv|]; ring. }
  assert (0 < unit_roundoff)%Q as Hu by reflexivity.
  set (u := unit_roundoff) in *.
  assert (t * (1 # 2) <= a * u)%Q as Hb.
  { rewrite Et. nra. }
  split; nra.
Qed.

Lemma flpos_range (a : Q) :
  (0 < a)%Q → (2 ^ binade a <= flpos a <= 2 ^ (binade a + 1))%Q.
Proof.
  intros Ha. pose proof (flpos_scaled a Ha) as [S1 S2]. unfold flpos.
  set (e := binade a) in *. set (x := (a * 2 ^ (52 - e))%Q) in *.
  assert (2 ^ 52 ≤ roundEven x ≤ 2 ^ 53) as [M1 M2].
  { split.
    - rewrite <- (roundEven_Z (2 ^ 52)). apply roundEven_mono.
      by assert (inject_Z (2 ^ 52) == 2 ^ 52)%Q as -> by reflexivity.
    - rewrite <- (roundEven_Z (2 ^ 53)). apply roundEven_mono.
      assert (inject_Z (2 ^ 53) == 2 ^ 53)%Q as -> by reflexivity. lra. }
  rewrite Zle_Qle in M1, M2.
  assert (inject_Z (2 ^ 52) == 2 ^ 52)%Q as E52 by reflexivity.
  assert (inject_Z (2 ^ 53) == 2 ^ 53)%Q as E53 by reflexivity.
  rewrite E52 in M1. rewrite E53 in M2.
  assert (2 ^ 52 * 2 ^ (e - 52) == 2 ^ e)%Q as E1.
  { rewrite <- Qpower_plus by discriminate. by replace (52 + (e - 52)) with e by lia. }
  assert (2 ^ 53 * 2 ^ (e - 52) == 2 ^ (e + 1))%Q as E2.
  { rewrite <- Qpower_plus by discriminate.
    by replace (53 + (e - 52)) with (e + 1) by lia. }
  pose proof (two_pos (e - 52)) as P.
  set (t := (2 ^ (e - 52))%Q) in *. set (m := inject_Z (roundEven x)) in *.
  rewrite <- E1, <- E2. split; nra.
Qed.

Lemma flpos_pos (a : Q) : (0 < a)%Q → (0 < flpos a)%Q.
Proof.
  intros Ha. pose proof (flpos_range a Ha) as [H _].
  pose proof (two_pos (binade a)). lra.
Qed.

Lemma flpos_proper (a b : Q) : (0 < a)%Q → (a == b)%Q → (flpos a == flpos b)%Q.
Proof.
  intros Ha E. unfold flpos. rewrite <- (binade_proper a b Ha E).
  rewrite (roundEven_proper (a * 2 ^ (52 - binade a))%Q
             (b * 2 ^ (52 - binade a))%Q); [reflexivity|].
  apply Qmult_comp; [done|reflexivity].
Qed.

Lemma flpos_mono (a b : Q) : (0 < a)%Q → (a <= b)%Q → (flpos a <= flpos b)%Q.
Proof.
  intros Ha Hab. assert (0 < b)%Q as Hb by lra.
  pose proof (binade_mono a b Ha Hab) as He.
  destruct (Z.eq_dec (binade a) (binade b)) as [E|Hne].
  - unfold flpos. rewrite E. pose proof (two_pos (binade b - 52)) as P.
    pose proof (two_pos (52 - binade b)) as P'.
    assert (roundEven (a * 2 ^ (52 - binade b))
            ≤ roundEven (b * 2 ^ (52 - binade b))) as Hm.
    { apply roundEven_mono. nra. }
    rewrite Zle_Qle in Hm. nra.
  - pose proof (flpos_range a Ha) as [_ H1]. pose proof (flpos_range b Hb) as [H2 _].
    assert (2 ^ (binade a + 1) <= 2 ^ binade b)%Q as H.
    { apply Qpower_le_compat_l; [lia|]. discriminate. }
    lra.
Qed.

Lemma flpos_Z (z : Z) :
  0 < z < 2 ^ 53 → (flpos (inject_Z z) == inject_Z z)%Q.
Proof.
  intros [Hz Hlt].
  assert (0 < inject_Z z)%Q as Ha by (rewrite <- (Zlt_Qlt 0); done).
  pose proof (binade_spec (inject_Z z) Ha) as [H1 _]. unfold flpos.
  set (e := binade (inject_Z z)) in *.
  assert (e < 53) as He.
  { assert (2 ^ e < 2 ^ 53)%Q as H.
    { rewrite Zlt_Qlt in Hlt.
      assert (inject_Z (2 ^ 53) == 2 ^ 53)%Q as E53 by reflexivity. lra. }
    apply Qpower_lt_compat_l_inv in H; [lia|reflexivity]. }
  pose proof (Zpower_Qpower 2 (52 - e) ltac:(lia)) as Ep.
  change (inject_Z 2) with 2%Q in Ep.
  rewrite (roundEven_proper _ (inject_Z (z * 2 ^ (52 - e)))).
  2:{ rewrite inject_Z_mult, Ep. reflexivity. }
  rewrite roundEven_Z, inject_Z_mult, Ep.
  pose proof (two_inv (52 - e) (e - 52) ltac:(lia)) as Einv.
  transitivity (inject_Z z * (2 ^ (52 - e) * 2 ^ (e - 52)))%Q; [ring|].
  rewrite Einv. ring.
Qed.

Lemma fl_pos (q : Q) : (0 < q)%Q → fl q = flpos q.
Proof.
  destruct q as [[|n|n] d]; unfold Qlt; simpl; intros H; try lia. done.
Qed.

Lemma fl_neg (q : Q) : (q < 0)%Q → fl q = (- flpos (- q))%Q.
Proof.
  destruct q as [[|n|n] d]; unfold Qlt; simpl; intros H; try lia. done.
Qed.

Lemma fl_zero (q : Q) : (q == 0)%Q → fl q = 0%Q.
Proof.
  destruct q as [[|n|n] d]; unfold Qeq; simpl; intros H; try lia. done.
Qed.

Lemma fl_proper (q q' : Q) : (q == q')%Q → (fl q == fl q')%Q.
Proof.
  intros E. destruct (Q_dec q 0) as [[Hq|Hq]|Hq].
  - rewrite (fl_neg q Hq), (fl_neg q') by lra.
    rewrite (flpos_proper (- q) (- q')); [reflexivity|lra|lra].
  - rewrite (fl_pos q Hq), (fl_pos q') by lra. apply flpos_proper; [lra|done].
  - rewrite (fl_zero q Hq), (fl_zero q') by lra. reflexivity.
Qed.

(** Standard model of rounding: the result is off by at most one part in
    2^53 of the exact value. *)
Lemma fl_err (q : Q) : (Qabs (fl q - q) <= unit_roundoff * Qabs q)%Q.
Proof.
  assert (0 < unit_roundoff)%Q as Hu by reflexivity.
  destruct (Q_dec q 0) as [[Hq|Hq]|Hq].
  - rewrite (fl_neg q Hq). assert (0 < - q)%Q as Hq' by lra.
    pose proof (flpos_err (- q) Hq') as [H1 H2].
    rewrite (Qabs_neg q) by lra. apply Qabs_Qle_condition. split; nra.
  - rewrite (fl_pos q Hq). pose proof (flpos_err q Hq) as [H1 H2].
    rewrite (Qabs_pos q) by lra. apply Qabs_Qle_condition. split; nra.
  - rewrite (fl_zero q Hq). rewrite Hq. vm_compute. discriminate.
Qed.

Lemma fl_sign (q : Q) :
  ((0 < q → 0 < fl q) ∧ (q < 0 → fl q < 0) ∧ (q == 0 → fl q == 0))%Q.
Proof.
  split_and!; intros Hq.
  - rewrite (fl_pos q Hq). by apply flpos_pos.
  - rewrite (fl_neg q Hq). assert (0 < - q)%Q as H by lra.
    apply flpos_pos in H. lra.
  - by rewrite (fl_zero q Hq).
Qed.

Lemma fl_mono (q q' : Q) : (q <= q')%Q → (fl q <= fl q')%Q.
Proof.
  intros Hle. pose proof (fl_sign q) as (P1 & N1 & Z1).
  pose proof (fl_sign q') as (P2 & N2 & Z2).
  destruct (Qlt_le_dec 0 q) as [Hq|Hq].
  - rewrite (fl_pos q Hq), (fl_pos q') by lra. apply flpos_mono; [done|lra].
  - destruct (Qlt_le_dec q' 0) as [Hq'|Hq'].
    + rewrite (fl_neg q), (fl_neg q' Hq') by lra.
      assert (flpos (- q') <= flpos (- q))%Q; [apply flpos_mono; lra|lra].
    + assert (fl q <= 0)%Q as H1.
      { destruct (Qlt_le_dec q 0) as [H|H]; [specialize (N1 H); lra|].
        rewrite (fl_zero q); lra. }
      assert (0 <= fl q')%Q as H2.
      { destruct (Qlt_le_dec 0 q') as [H|H]; [specialize (P2 H); lra|].
        rewrite (fl_zero q'); lra. }
      lra.
Qed.

Lemma fl_Z (z : Z) : 0 ≤ z < 2 ^ 53 → (fl (inject_Z z) == inject_Z z)%Q.
Proof.
  intros [H0 Hz]. destruct (Z.eq_dec z 0) as [->|Hne]; [reflexivity|].
  rewrite fl_pos; [apply flpos_Z; lia|]. rewrite <- (Zlt_Qlt 0). lia.
Qed.

(** Two roundings that show in the results: [600 / 36 * 0.9] is above 15
    and [0.587 * 36 + 0.114 * 12] is below 22.5, where the exact values
    are 15 and 22.5. *)
Lemma fl_threshold_example :
  (fl (fl (600 # 36) * fl 0.9) == 15 + 2 ^ (-49))%Q.
Proof. vm_compute. reflexivity. Qed.

Lemma luminance_example :
  (luminance 0 36 12 == 22.5 - 2 ^ (-48))%Q ∧ grayAt [0; 36; 12; 255] 0 = 22.
Proof. split; vm_compute; reflexivity. Qed.

Lemma jfl_Fin (a : jsnum Q) (q : Q) :
  jfl a = Fin q → ∃ q', a = Fin q' ∧ q = fl q'.
Proof. destruct a; try done. intros [= <-]. eauto. Qed.

Lemma jfl_level (c : Z) (v : jsnum Q) :
  0 ≤ c < 2 ^ 53 → level c v → level c (jfl v).
Proof.
  intros Hc [->|(q & -> & Eq)]; [by left|]. right. eexists. split; [done|].
  rewrite (fl_proper q (inject_Z c) Eq). by apply fl_Z.
Qed.

(** ** Arrays and indices *)

Lemma aget_nonneg {A} (a : list A) (i : Z) :
  0 ≤ i → aget a i = a !! Z.to_nat i.
Proof. intros Hi. unfold aget. destruct (Z.ltb_spec i 0); [lia | done]. Qed.

Lemma aset_nonneg {A} (a : list A) (i : Z) (v : A) :
  0 ≤ i → aset a i v = <[Z.to_nat i := v]> a.
Proof. intros Hi. unfold aset. destruct (Z.ltb_spec i 0); [lia | done]. Qed.

Lemma length_aset {A} (a : list A) (i : Z) (v : A) :
  length (aset a i v) = length a.
Proof. unfold aset. destruct (i <? 0); [done | apply length_insert]. Qed.

Lemma inBounds_true (w h x y : Z) :
  inBounds w h x y = true ↔ (0 ≤ x < w ∧ 0 ≤ y < h).
Proof. unfold inBounds. rewrite !andb_true_iff. lia. Qed.

Lemma idx_range (w h x y : Z) :
  0 ≤ x < w → 0 ≤ y < h → 0 ≤ idx w x y < w * h.
Proof. unfold idx. nia. Qed.

Lemma idx_inj (w x y x' y' : Z) :
  0 ≤ x < w → 0 ≤ x' < w → idx w x y = idx w x' y' → x = x' ∧ y = y'.
Proof. unfold idx. intros Hx Hx' E. assert (y = y') by nia. subst. lia. Qed.

Lemma zeros_insert (vis : list Z) (i : nat) :
  vis !! i = Some 0 → (zeros (<[i := 1%Z]> vis) + 1 = zeros vis)%nat.
Proof.
  unfold zeros. revert i. induction vis as [|v vis IH]; intros [|i] Hi; simplify_eq/=.
  - rewrite filter_cons_False by done. lia.
  - specialize (IH _ Hi). rewrite !filter_cons. destruct (decide (v = 0)); simpl; lia.
Qed.

Lemma falsy_true_Some (vis : list Z) (i : Z) :
  0 ≤ i < Z.of_nat (length vis) → falsy (aget vis i) = true → aget vis i = Some 0.
Proof.
  intros Hi. rewrite aget_nonneg by lia.
  destruct (lookup_lt_is_Some_2 vis (Z.to_nat i)) as [v Hv]; [lia|].
  rewrite Hv. simpl. intros ->%Z.eqb_eq. done.
Qed.


Lemma elem_of_concat {A} (x : A) (ls : list (list A)) :
  x ∈ concat ls ↔ ∃ l, l ∈ ls ∧ x ∈ l.
Proof.
  rewrite list_elem_of_In, in_concat. 
  split; intros (l & ? & ?); exists l; by rewrite ?list_elem_of_In in *.
Qed.

Lemma foldl_related {S T X} (R : S → T → Prop) (f : S → X → S) (g : T → X → T) :
  (∀ s t x, R s t → R (f s x) (g t x)) →
  ∀ l s t, R s t → R (foldl f s l) (foldl g t l).
Proof. intros Hstep l. induction l as [|x l IH]; simpl; auto. Qed.

(** ** Flood fill *)

Section FloodFill.
Variables (W H : Z) (binary : list Z).

Local Abbreviation inB p := (0 ≤ p_x p < W ∧ 0 ≤ p_y p < H).
Local Abbreviation fg := (foreground W H binary).
Local Abbreviation mk := (marked W).
Local Abbreviation cell p := (idx W (p_x p) (p_y p)).

Lemma fg_inB p : fg p → inB p.
Proof. by intros [? _]. Qed.

Lemma cell_range p : inB p → 0 ≤ cell p < W * H.
Proof. intros [? ?]. by apply idx_range. Qed.

Lemma cell_inj p q : inB p → inB q → cell p = cell q → p = q.
Proof.
  intros [? ?] [? ?] E. destruct p, q; simpl in *.
  apply idx_inj in E as [? ?]; [congruence|done|done].
Qed.

Lemma marked_aset_same vis p :
  length vis = Z.to_nat (W * H) → inB p → mk (aset vis (cell p) 1) p.
Proof.
  intros Hl Hp. pose proof (cell_range p Hp). unfold marked.
  rewrite aget_nonneg, aset_nonneg by lia.
  rewrite list_lookup_insert_eq by lia. done.
Qed.

Lemma marked_aset_other vis p q :
  inB p → inB q → p ≠ q → (mk (aset vis (cell q) 1) p ↔ mk vis p).
Proof.
  intros Hp Hq Hne. pose proof (cell_range p Hp). pose proof (cell_range q Hq).
  unfold marked. rewrite !aget_nonneg, aset_nonneg by lia.
  rewrite list_lookup_insert_ne; [done|].
  intros E. apply Hne. apply cell_inj; auto. lia.
Qed.

Lemma visit_cases p st d :
  length st.1 = Z.to_nat (W * H) →
  (fg (neighbour p d) ∧ ¬ mk st.1 (neighbour p d)
   ∧ visit W H binary p st d
     = (aset st.1 (cell (neighbour p d)) 1, neighbour p d :: st.2))
  ∨ ((¬ fg (neighbour p d) ∨ mk st.1 (neighbour p d))
     ∧ visit W H binary p st d = st).
Proof.
  intros Hl. unfold visit, neighbour, marked, foreground. simpl.
  destruct (inBounds W H (p_x p + d.1) (p_y p + d.2)) eqn:Hb; simpl.
  - apply inBounds_true in Hb.
    destruct (falsy (aget st.1 _)) eqn:Hf; simpl.
    + destruct (aget binary _) as [v|] eqn:Hv; simpl.
      * destruct (Z.eqb_spec v 1) as [->|Hne].
        -- left. done.
        -- right. split; [|done]. left. intros [_ ?]. congruence.
      * right. split; [|done]. left. intros [_ ?]. congruence.
    + right. split; [|done]. by right.
  - right. split; [|done]. left. intros [Hq _].
    apply inBounds_true in Hq. congruence.
Qed.

(** What one pass over the directions [ds] does to [(visited, stack)]. *)
Lemma visit_fold p ds st :
  length st.1 = Z.to_nat (W * H) →
  let st' := foldl (visit W H binary p) st ds in
  ∃ new,
    st'.2 = new ++ st.2
    ∧ length st'.1 = length st.1
    ∧ NoDup new
    ∧ (∀ r, r ∈ new → fg r ∧ ¬ mk st.1 r ∧ ∃ d, d ∈ ds ∧ r = neighbour p d)
    ∧ (∀ r, inB r → (mk st'.1 r ↔ mk st.1 r ∨ r ∈ new))
    ∧ (∀ d, d ∈ ds → fg (neighbour p d) → mk st'.1 (neighbour p d))
    ∧ (zeros st'.1 + length new = zeros st.1)%nat.
Proof.
  revert st. induction ds as [|d ds IH]; intros st Hl; simpl.
  - exists []. split_and!; try done.
    + apply NoDup_nil_2.
    + intros r Hr. by apply elem_of_nil in Hr.
    + intros r _. split; [auto|]. intros [?|Hr]; [done|]. by apply elem_of_nil in Hr.
    + intros d Hd. by apply elem_of_nil in Hd.
  - destruct (visit_cases p st d Hl) as [(Hfg & Hnm & E)|(Hno & E)].
    + set (q := neighbour p d) in *.
      pose proof (fg_inB _ Hfg) as Hq. pose proof (cell_range _ Hq) as Hc.
      destruct (IH (visit W H binary p st d)) as (new & E2 & El & Hnd & Hnew & Hmk & Hdone & Hz).
      { rewrite E. simpl. by rewrite length_aset. }
      rewrite E in *. cbn [fst snd] in *.
      exists (new ++ [q]). split_and!.
      * rewrite E2. by rewrite <- app_assoc.
      * rewrite El. apply length_aset.
      * apply NoDup_app. split_and!; [done| |apply NoDup_singleton].
        intros r Hr ->%list_elem_of_singleton.
        destruct (Hnew _ Hr) as (_ & Hn & _). apply Hn. by apply marked_aset_same.
      * intros r [Hr| ->%list_elem_of_singleton]%elem_of_app.
        -- destruct (Hnew _ Hr) as (Hf & Hn & d' & Hd' & ->). split_and!; [done| |].
           ++ intros Hm. apply Hn.
              destruct (decide (neighbour p d' = q)) as [->|Hne].
              ** by apply marked_aset_same.
              ** apply marked_aset_other; auto using fg_inB.
           ++ exists d'. split; [by apply elem_of_cons; right|done].
        -- split_and!; [done|done|]. exists d. split; [apply elem_of_cons; by left|done].
      * intros r Hr. rewrite Hmk by done. rewrite elem_of_app, list_elem_of_singleton.
        destruct (decide (r = q)) as [->|Hne].
        -- split; [auto|]. intros _. left. by apply marked_aset_same.
        -- rewrite marked_aset_other by auto. tauto.
      * intros d' [->|Hd']%elem_of_cons Hf'.
        -- apply Hmk; [auto using fg_inB|]. left. by apply marked_aset_same.
        -- by apply Hdone.
      * rewrite length_app. cbn [length].
        pose proof (zeros_insert st.1 (Z.to_nat (cell q))) as Hzi.
        rewrite aset_nonneg in Hz |- * by lia.
        assert (st.1 !! Z.to_nat (cell q) = Some 0) as Hs.
        { rewrite <- aget_nonneg by lia. apply falsy_true_Some; [lia|].
          unfold marked in Hnm. by destruct (falsy (aget st.1 (cell q))). }
        specialize (Hzi Hs). lia.
    + rewrite E.
      destruct (IH st Hl) as (new & E2 & El & Hnd & Hnew & Hmk & Hdone & Hz).
      exists new. split_and!; try done.
      * intros r Hr. destruct (Hnew _ Hr) as (? & ? & d' & ? & ?).
        split_and!; [done|done|]. exists d'. split; [by apply elem_of_cons; right|done].
      * intros d' [->|Hd']%elem_of_cons Hf'; [|by apply Hdone].
        apply Hmk; [auto using fg_inB|]. left. destruct Hno; [done|done].
Qed.

Lemma adjacent_dirs p q :
  adjacent p q ↔ ∃ d, d ∈ dirs ∧ q = neighbour p d.
Proof.
  unfold adjacent, neighbour, dirs. split.
  - intros (Hne & Hx & Hy). destruct p as [a b], q as [a' b']. simpl in *.
    assert (a' = a - 1 ∨ a' = a ∨ a' = a + 1) as Ha by lia.
    assert (b' = b - 1 ∨ b' = b ∨ b' = b + 1) as Hb by lia.
    assert (¬ (a' = a ∧ b' = b)) as Hn by (intros [-> ->]; done).
    destruct Ha as [->| [->| ->]], Hb as [->| [->| ->]];
      try (exfalso; apply Hn; done).
    + exists (-1, -1). split; [set_solver|]. simpl. f_equal; lia.
    + exists (-1, 0). split; [set_solver|]. simpl. f_equal; lia.
    + exists (-1, 1). split; [set_solver|]. simpl. f_equal; lia.
    + exists (0, -1). split; [set_solver|]. simpl. f_equal; lia.
    + exists (0, 1). split; [set_solver|]. simpl. f_equal; lia.
    + exists (1, -1). split; [set_solver|]. simpl. f_equal; lia.
    + exists (1, 0). split; [set_solver|]. simpl. f_equal; lia.
    + exists (1, 1). split; [set_solver|]. simpl. f_equal; lia.
  - intros (d & Hd & ->). destruct p as [a b]. simpl.
    repeat (apply elem_of_cons in Hd as [->|Hd]);
      [..|by apply elem_of_nil in Hd]; simpl;
      (split; [intros [=]; lia | lia]).
Qed.

Lemma adjacent_sym p q : adjacent p q → adjacent q p.
Proof. unfold adjacent. intros (? & ? & ?). split_and!; [congruence|lia|lia]. Qed.

Local Abbreviation conn := (connected W H binary).

Lemma connected_sym p q : fg p → conn p q → conn q p.
Proof.
  intros Hp Hc. induction Hc as [|p r q [Ha Hr] Hc IH]; [apply rtc_refl|].
  specialize (IH Hr). eapply rtc_r; [exact IH|].
  split; [by apply adjacent_sym|done].
Qed.

Lemma connected_fg p q : fg p → conn p q → fg q.
Proof.
  intros Hp Hc. induction Hc as [|p r q [Ha Hr] Hc IH]; [done|]. by apply IH.
Qed.

Lemma zeros_le vis : (zeros vis ≤ length vis)%nat.
Proof. unfold zeros. apply length_filter. Qed.

(** One iteration of the [while] loop keeps the invariant and uses up one
    unit of [zeros visited + stack.length]. *)
Lemma fill_iteration vis0 seed vis p rest blob :
  fillInv W H binary vis0 seed vis (p :: rest) blob →
  let st := foldl (visit W H binary p) (vis, rest) dirs in
  fillInv W H binary vis0 seed st.1 st.2 (blob ++ [p])
  ∧ (zeros st.1 + length st.2 + 1 = zeros vis + length (p :: rest))%nat.
Proof.
  intros (Hl & Hmk & Hnd & Hin & Hcl & Hseed) st.
  destruct (visit_fold p dirs (vis, rest) Hl)
    as (new & E2 & El & Hnew_nd & Hnew & Hmk' & Hdone & Hz).
  fold st in E2, El, Hmk', Hdone, Hz. cbn [fst snd] in *.
  assert (∀ r, r ∈ blob ++ p :: rest → mk vis r) as Hold.
  { intros r Hr. destruct (Hin r Hr) as (Hf & _ & _).
    apply Hmk; [by apply fg_inB|].
    apply elem_of_app in Hr as [?|?]; auto. }
  split; [|rewrite E2, length_app; simpl; lia].
  unfold fillInv. rewrite E2. split_and!.
  - congruence.
  - intros r Hr. rewrite Hmk' by done. rewrite Hmk by done.
    rewrite !elem_of_app, elem_of_cons, list_elem_of_singleton. tauto.
  - rewrite <- app_assoc. simpl.
    apply NoDup_app in Hnd as (Hb & Hdisj & Hs).
    apply NoDup_cons in Hs as (Hp & Hrest).
    apply NoDup_app. split_and!; [done| |].
    + intros r Hr [->|Hr']%elem_of_cons.
      * apply (Hdisj p Hr). apply elem_of_cons; by left.
      * apply elem_of_app in Hr' as [Hr'|Hr'].
        -- destruct (Hnew r Hr') as (_ & Hn & _). apply Hn, Hold.
           apply elem_of_app; by left.
        -- apply (Hdisj r Hr). apply elem_of_cons; by right.
    + apply NoDup_cons. split.
      * intros [Hr'|Hr']%elem_of_app; [|done].
        destruct (Hnew p Hr') as (_ & Hn & _). apply Hn, Hold.
        apply elem_of_app; right. apply elem_of_cons; by left.
      * apply NoDup_app. split_and!; [done| |done].
        intros r Hr Hr'. destruct (Hnew r Hr) as (_ & Hn & _). apply Hn, Hold.
        apply elem_of_app; right. apply elem_of_cons; by right.
  - intros r Hr.
    assert (r ∈ blob ++ p :: rest ∨ r ∈ new) as [Hr'|Hr'].
    { rewrite !elem_of_app, list_elem_of_singleton in Hr.
      rewrite elem_of_app, elem_of_cons. tauto. }
    + by apply Hin.
    + destruct (Hnew r Hr') as (Hf & Hn & d & Hd & ->).
      destruct (Hin p) as (Hfp & Hcp & _).
      { apply elem_of_app; right. apply elem_of_cons; by left. }
      split_and!; [done| |].
      * eapply rtc_r; [exact Hcp|]. split; [|done].
        apply adjacent_dirs. eauto.
      * intros Hm. apply Hn. apply Hmk; [by apply fg_inB|]. by left.
  - intros r q [Hr| ->%list_elem_of_singleton]%elem_of_app [Ha Hq].
    + apply Hmk'; [by apply fg_inB|]. left. apply (Hcl r q Hr). by split.
    + apply adjacent_dirs in Ha as (d & Hd & ->). by apply Hdone.
  - assert (seed ∈ blob ++ p :: rest) as Hs by done.
    rewrite !elem_of_app, list_elem_of_singleton.
    rewrite elem_of_app, elem_of_cons in Hs. tauto.
Qed.

(** The loop ends with an empty stack as soon as [fuel] covers
    [zeros visited + stack.length]. *)
Lemma floodFill_terminates vis0 seed fuel vis stack blob :
  fillInv W H binary vis0 seed vis stack blob →
  (zeros vis + length stack ≤ fuel)%nat →
  ∃ vis' blob',
    floodFill fuel W H binary vis stack blob = (vis', [], blob')
    ∧ fillInv W H binary vis0 seed vis' [] blob'.
Proof.
  revert vis stack blob.
  induction fuel as [|fuel IH]; intros vis stack blob Hinv Hfuel.
  - destruct stack; [|simpl in Hfuel; lia]. by exists vis, blob.
  - destruct stack as [|p rest]; [by exists vis, blob|].
    cbn [floodFill]. destruct (fill_iteration _ _ _ _ _ _ Hinv) as [Hinv' Hz].
    apply IH; [done|]. cbn [length] in Hz, Hfuel. lia.
Qed.

(** With a visited set closed under foreground steps, the finished blob is
    the component of the seed. *)
Lemma fill_component vis0 seed vis' blob' q :
  (∀ r s, mk vis0 r → foreground W H binary r → step W H binary r s → mk vis0 s) →
  fillInv W H binary vis0 seed vis' [] blob' →
  (q ∈ blob' ↔ conn seed q).
Proof.
  intros Hclosed (Hl & Hmk & Hnd & Hin & Hcl & Hseed).
  rewrite app_nil_r in *. split.
  - intros Hq. by destruct (Hin q Hq) as (_ & ? & _).
  - intros Hc. revert q Hc. apply (rtc_ind_r (λ q, q ∈ blob')); [done|].
    intros r s Hc [Ha Hs] IH.
    pose proof (Hcl r s IH (conj Ha Hs)) as Hm.
    apply Hmk in Hm as [Hm|[?|Hm]]; [|done|by apply elem_of_nil in Hm|by apply fg_inB].
    destruct (Hin r IH) as (Hfr & _ & Hn). exfalso. apply Hn.
    apply (Hclosed s r Hm Hs). split; [by apply adjacent_sym|done].
Qed.

Local Abbreviation inv := (scanInv W H binary).

Lemma grows_refl s : grows s s.
Proof. exists []. by rewrite app_nil_r. Qed.

Lemma grows_trans s1 s2 s3 : grows s1 s2 → grows s2 s3 → grows s1 s3.
Proof. intros [e E] [e' E']. exists (e ++ e'). by rewrite E', E, app_assoc. Qed.

Lemma grows_elem s s' p : grows s s' → p ∈ concat s.2 → p ∈ concat s'.2.
Proof.
  intros [e E]. rewrite E, concat_app, elem_of_app. by left.
Qed.

Lemma scanInv_init : inv (replicate (Z.to_nat (W * H)) 0, []).
Proof.
  split_and!; simpl.
  - apply length_replicate.
  - intros r Hr. pose proof (cell_range r Hr).
    unfold marked. rewrite aget_nonneg by lia.
    rewrite lookup_replicate_2 by lia. simpl.
    split; [done|]. intros Hn. by apply elem_of_nil in Hn.
  - apply NoDup_nil_2.
  - intros b p q Hb. by apply elem_of_nil in Hb.
Qed.

Lemma scanInv_closed st r s :
  inv st → mk st.1 r → fg r → step W H binary r s → mk st.1 s.
Proof.
  intros (Hl & Hmk & Hnd & Hcomp) Hm Hr [Ha Hs].
  apply Hmk in Hm; [|by apply fg_inB].
  apply elem_of_concat in Hm as (b & Hb & Hrb).
  apply Hmk; [by apply fg_inB|].
  apply elem_of_concat. exists b. split; [done|].
  apply (Hcomp b r s Hb Hrb). by apply rtc_once.
Qed.

Lemma scanPixelAll_inv st x y :
  0 ≤ x < W → 0 ≤ y < H → inv st →
  let st' := scanPixelAll W H binary y st x in
  inv st' ∧ grows st st'
  ∧ (fg (mkPoint x y) → mkPoint x y ∈ concat st'.2).
Proof.
  intros Hx Hy Hinv. pose proof Hinv as (Hl & Hmk & Hnd & Hcomp).
  set (p := mkPoint x y). assert (inB p) as Hp by done.
  assert (0 ≤ idx W x y < W * H) as Hc by (by apply idx_range).
  unfold scanPixelAll. fold p.
  destruct (is1 (aget binary (idx W x y))) eqn:H1; simpl.
  - assert (fg p) as Hfp.
    { split; [done|]. simpl. unfold is1 in H1.
      destruct (aget binary (idx W x y)); [|done].
      apply Z.eqb_eq in H1. by subst. }
    destruct (falsy (aget st.1 (idx W x y))) eqn:Hf.
    + assert (¬ mk st.1 p) as Hnm by (unfold marked, p; simpl; congruence).
      assert (fillInv W H binary st.1 p (aset st.1 (idx W x y) 1) [p] []) as Hfi.
      { change (idx W x y) with (cell p). split_and!.
        - by rewrite length_aset.
        - intros r Hr. rewrite list_elem_of_singleton.
          destruct (decide (r = p)) as [->|Hne].
          + split; [auto|]. intros _. by apply (marked_aset_same st.1 p).
          + rewrite (marked_aset_other st.1 r p) by done.
            split; [auto|]. intros [?|[Hn|?]]; [done| |done]. by apply elem_of_nil in Hn.
        - simpl. apply NoDup_singleton.
        - simpl. intros r ->%list_elem_of_singleton. split_and!; [done|apply rtc_refl|done].
        - intros r q Hr. by apply elem_of_nil in Hr.
        - simpl. by apply list_elem_of_singleton. }
      destruct (floodFill_terminates st.1 p (length st.1) _ _ _ Hfi)
        as (vis' & blob' & E & Hfi').
      { cbn [length]. pose proof (zeros_insert st.1 (Z.to_nat (idx W x y))) as Hz.
        rewrite aset_nonneg by lia.
        assert (st.1 !! Z.to_nat (idx W x y) = Some 0) as Hs.
        { rewrite <- aget_nonneg by lia. apply falsy_true_Some; [lia|done]. }
        specialize (Hz Hs). pose proof (zeros_le st.1). lia. }
      rewrite E. cbn [fst snd].
      pose proof (λ q, fill_component st.1 p vis' blob' q
                    (λ r s, scanInv_closed st r s Hinv) Hfi') as Hblob.
      destruct Hfi' as (Hl' & Hmk' & Hnd' & Hin' & _ & Hseed').
      rewrite app_nil_r in *.
      split_and!.
      * split_and!; cbn [fst snd].
        -- done.
        -- intros r Hr. rewrite Hmk' by done. rewrite Hmk by done.
           rewrite concat_app, elem_of_app. simpl. rewrite app_nil_r.
           split; [intros [?|[?|Hn]]; auto; by apply elem_of_nil in Hn|tauto].
        -- rewrite concat_app. simpl. rewrite app_nil_r.
           apply NoDup_app. split_and!; [done| |done].
           intros r Hr Hr'. destruct (Hin' r Hr') as (Hfr & _ & Hn).
           apply Hn, Hmk; [by apply fg_inB|done].
        -- intros b r q [Hb| ->%list_elem_of_singleton]%elem_of_app Hr.
           ++ by apply Hcomp.
           ++ destruct (Hin' r Hr) as (Hfr & Hcr & _). split; [done|].
              rewrite Hblob. split; intros Hq.
              ** etrans; [|exact Hq]. by apply connected_sym.
              ** etrans; [exact Hcr|exact Hq].
      * by eexists.
      * intros _. rewrite concat_app, elem_of_app. right. simpl.
        by rewrite app_nil_r.
    + split_and!; [done|apply grows_refl|]. intros _.
      apply Hmk; [done|]. unfold marked. done.
  - split_and!; [done|apply grows_refl|].
    intros [_ E]. simpl in E. rewrite E in H1. done.
Qed.

Lemma scan_fold {X} (f : list Z * list (list Point) → X → list Z * list (list Point))
    (D : X → Prop) (Q : X → list Z * list (list Point) → Prop) :
  (∀ s x, D x → inv s → inv (f s x) ∧ grows s (f s x) ∧ Q x (f s x)) →
  (∀ x s s', grows s s' → Q x s → Q x s') →
  ∀ l s, (∀ x, x ∈ l → D x) → inv s →
    inv (foldl f s l) ∧ grows s (foldl f s l)
    ∧ ∀ x, x ∈ l → Q x (foldl f s l).
Proof.
  intros Hstep Hstable l. induction l as [|x l IH]; intros s HD Hs; simpl.
  - split_and!; [done|apply grows_refl|]. intros x Hx. by apply elem_of_nil in Hx.
  - destruct (Hstep s x) as (Hi & Hg & Hq); [apply HD; by left|done|].
    destruct (IH (f s x)) as (Hi' & Hg' & Hq'); [|done|].
    { intros x' Hx'. apply HD. by right. }
    split_and!; [done|by eapply grows_trans|].
    intros x' [->|Hx']%elem_of_cons; [|by apply Hq'].
    by apply (Hstable _ (f s x)).
Qed.

Lemma scanRowAll_inv st y :
  0 ≤ y < H → inv st →
  let st' := foldl (scanPixelAll W H binary y) st (seqZ 0 W) in
  inv st' ∧ grows st st'
  ∧ ∀ x, 0 ≤ x < W → fg (mkPoint x y) → mkPoint x y ∈ concat st'.2.
Proof.
  intros Hy Hinv st'.
  destruct (scan_fold (scanPixelAll W H binary y) (λ x, 0 ≤ x < W)
              (λ x s, fg (mkPoint x y) → mkPoint x y ∈ concat s.2))
    with (l := seqZ 0 W) (s := st) as (Hi & Hg & Hq); try done.
  - intros s x Hx Hs. exact (scanPixelAll_inv s x y Hx Hy Hs).
  - intros x s s' Hg Hq Hf. apply (grows_elem s); [done|by apply Hq].
  - intros x Hx. apply elem_of_seqZ in Hx. lia.
  - split_and!; [done|done|]. intros x Hx. apply Hq. apply elem_of_seqZ. lia.
Qed.

Lemma scanAll_inv :
  inv (scanAll W H binary)
  ∧ ∀ x y, 0 ≤ x < W → 0 ≤ y < H →
      fg (mkPoint x y) → mkPoint x y ∈ concat (scanAll W H binary).2.
Proof.
  unfold scanAll.
  destruct (scan_fold
              (λ st y, foldl (scanPixelAll W H binary y) st (seqZ 0 W))
              (λ y, 0 ≤ y < H)
              (λ y s, ∀ x, 0 ≤ x < W → fg (mkPoint x y) →
                        mkPoint x y ∈ concat s.2))
    with (l := seqZ 0 H) (s := (replicate (Z.to_nat (W * H)) 0, @nil (list Point)))
    as (Hi & Hg & Hq).
  - intros s y Hy Hs. exact (scanRowAll_inv s y Hy Hs).
  - intros y s s' Hg Hq x Hx Hf. apply (grows_elem s); [done|]. by apply Hq.
  - intros y Hy. apply elem_of_seqZ in Hy. lia.
  - apply scanInv_init.
  - split; [done|]. intros x y Hx Hy. apply Hq; [|done]. apply elem_of_seqZ. lia.
Qed.

(** The blobs found by the scan are the 8-connected components of the
    foreground. *)
Lemma allBlobs_components : components W H binary (allBlobs W H binary).
Proof.
  destruct scanAll_inv as ((Hl & Hmk & Hnd & Hcomp) & Hall).
  unfold components, allBlobs. split_and!.
  - done.
  - intros p. split.
    + intros Hf. pose proof (fg_inB _ Hf) as [Hx Hy].
      destruct p as [x y]. by apply Hall.
    + intros (b & Hb & Hp)%elem_of_concat.
      by destruct (Hcomp b p p Hb Hp) as [? _].
  - intros c p q Hc Hp. by destruct (Hcomp c p q Hc Hp) as [_ ?].
Qed.

(** The contours are the blobs of more than 20 pixels, in discovery
    order. *)
Lemma findContours_filter :
  findContours W H binary = filter big (allBlobs W H binary).
Proof.
  unfold findContours, allBlobs, scan, scanAll.
  set (R := λ (s t : list Z * list (list Point)),
              s.1 = t.1 ∧ s.2 = filter big t.2).
  assert (∀ l s t, R s t →
            R (foldl (scanRow W H binary) s l)
              (foldl (λ st y, foldl (scanPixelAll W H binary y) st (seqZ 0 W)) t l))
    as Hrows.
  { apply foldl_related. intros s t y Hst. unfold scanRow.
    revert s t Hst. generalize (seqZ 0 W). intros l s t Hst.
    revert s t Hst. apply foldl_related. intros s t x [E1 E2].
    unfold R, scanPixel, scanPixelAll. rewrite E1.
    destruct (is1 _ && falsy _); [|done].
    cbn [fst snd]. split; [done|].
    rewrite filter_app, E2. unfold big at 2.
    destruct (20 <? _) eqn:Hbig.
    - rewrite filter_cons_True; [reflexivity|]. unfold big. by rewrite Hbig.
    - rewrite filter_cons_False; [simpl; by rewrite app_nil_r|].
      unfold big. rewrite Hbig. simpl. tauto. }
  by destruct (Hrows (seqZ 0 H) (replicate (Z.to_nat (W * H)) 0, [])
                 (replicate (Z.to_nat (W * H)) 0, [])) as [_ ?].
Qed.
End FloodFill.

(** ** From contours to shapes *)

Lemma Forall2_map_self {A B} (P : B → A → Prop) (f : A → B) (l : list A) :
  (∀ a, a ∈ l → P (f a) a) → Forall2 P (map f l) l.
Proof.
  induction l as [|a l IH]; intros Hl; simpl; constructor.
  - apply Hl. by left.
  - apply IH. intros b Hb. apply Hl. by right.
Qed.

Lemma NoDup_concat_elem {A} (ls : list (list A)) (l : list A) :
  NoDup (concat ls) → l ∈ ls → NoDup l.
Proof.
  induction ls as [|k ls IH]; simpl; intros Hnd Hl.
  - by apply elem_of_nil in Hl.
  - apply NoDup_app in Hnd as (Hk & _ & Hrest).
    apply elem_of_cons in Hl as [->|Hl]; auto.
Qed.

Lemma big_spec (blob : list Point) : big blob = true ↔ (20 < length blob)%nat.
Proof. unfold big. rewrite Z.ltb_lt. lia. Qed.

Lemma contoursOf_components (w h : Z) (gray : list Z) :
  ∃ comps,
    components w h (binaryMask w h gray) comps
    ∧ contoursOf w h gray = filter big comps.
Proof.
  exists (allBlobs w h (binaryMask w h gray)). split.
  - apply allBlobs_components.
  - apply findContours_filter.
Qed.

(** Every contour holds more than 20 pixels, none of them twice. *)
Lemma findContours_nonempty (w h : Z) (gray : list Z) (blob : list Point) :
  blob ∈ contoursOf w h gray → (20 < length blob)%nat ∧ NoDup blob.
Proof.
  destruct (contoursOf_components w h gray) as (comps & (Hnd & _) & ->).
  intros [Hbig Hin]%list_elem_of_filter. split.
  - apply big_spec. by destruct (big blob).
  - by apply (NoDup_concat_elem comps).
Qed.

Lemma detectShapes_resolved (clock : Q * Q) (img : ImageData) (r : DetectionResult) :
  detectShapes clock img = Resolved r →
  0 ≤ width img * height img
  ∧ shapes r = map shapeOf (sourceBlobs img)
  ∧ imageWidth r = width img ∧ imageHeight r = height img.
Proof.
  unfold detectShapes, sourceBlobs, detectGray.
  destruct (Z.ltb_spec (width img * height img) 0); [done|].
  intros [= <-]. done.
Qed.

Lemma foldl_min_le (t : list Z) (v : Z) :
  foldl Z.min v t ≤ v ∧ ∀ x, x ∈ t → foldl Z.min v t ≤ x.
Proof.
  revert v. induction t as [|u t IH]; intros v; simpl.
  - split; [lia|]. intros x Hx. by apply elem_of_nil in Hx.
  - destruct (IH (Z.min v u)) as [H1 H2]. split; [lia|].
    intros x [->|Hx]%elem_of_cons; [lia|auto].
Qed.

Lemma foldl_max_ge (t : list Z) (v : Z) :
  v ≤ foldl Z.max v t ∧ ∀ x, x ∈ t → x ≤ foldl Z.max v t.
Proof.
  revert v. induction t as [|u t IH]; intros v; simpl.
  - split; [lia|]. intros x Hx. by apply elem_of_nil in Hx.
  - destruct (IH (Z.max v u)) as [H1 H2]. split; [lia|].
    intros x [->|Hx]%elem_of_cons; [lia|auto].
Qed.

Lemma Math_min_le (xs : list Z) (x : Z) : x ∈ xs → Math_min xs ≤ x.
Proof.
  destruct xs as [|v t]; [intros Hx; by apply elem_of_nil in Hx|].
  simpl. destruct (foldl_min_le t v) as [H1 H2].
  intros [->|Hx]%elem_of_cons; auto.
Qed.

Lemma Math_max_ge (xs : list Z) (x : Z) : x ∈ xs → x ≤ Math_max xs.
Proof.
  destruct xs as [|v t]; [intros Hx; by apply elem_of_nil in Hx|].
  simpl. destruct (foldl_max_ge t v) as [H1 H2].
  intros [->|Hx]%elem_of_cons; auto.
Qed.

Lemma boundingBox_shapeOf (blob : list Point) :
  boundingBox (shapeOf blob) = boxOf blob.
Proof. reflexivity. Qed.

Lemma boxOf_contains (blob : list Point) (p : Point) :
  p ∈ blob →
  bb_x (boxOf blob) ≤ p_x p ≤ bb_x (boxOf blob) + bb_width (boxOf blob)
  ∧ bb_y (boxOf blob) ≤ p_y p ≤ bb_y (boxOf blob) + bb_height (boxOf blob).
Proof.
  intros Hp. unfold boxOf. simpl.
  assert (p_x p ∈ map p_x blob) as Hx by (by apply list_elem_of_fmap_2).
  assert (p_y p ∈ map p_y blob) as Hy by (by apply list_elem_of_fmap_2).
  pose proof (Math_min_le _ _ Hx). pose proof (Math_max_ge _ _ Hx).
  pose proof (Math_min_le _ _ Hy). pose proof (Math_max_ge _ _ Hy). lia.
Qed.

(** ** Polygon simplification *)

Lemma rdp_0 (points : list Point) (tol : R) : rdp 0 points tol = points.
Proof. simpl. by destruct (length points <? 3)%nat. Qed.

Lemma rdp_S (fuel : nat) (points : list Point) (tol : R) :
  rdp (S fuel) points tol =
  if (length points <? 3)%nat then points
  else
    match points, last points with
    | first :: _, Some lst =>
        let r := farthest points first lst in
        if Rgtb r.2 tol && negb (r.1 =? -1)
        then removelast (rdp fuel (take (Z.to_nat (r.1 + 1)) points) tol)
             ++ rdp fuel (drop (Z.to_nat r.1) points) tol
        else [first; lst]
    | _, _ => points
    end.
Proof. reflexivity. Qed.

Lemma farStep_index (points : list Point) (first lst : Point) (n : Z)
    (l : list nat) (st : Z * R) :
  (∀ i, i ∈ l → 1 ≤ Z.of_nat i ≤ n) →
  (st.1 = -1 ∨ 1 ≤ st.1 ≤ n) →
  let r := foldl (farStep points first lst) st l in
  r.1 = -1 ∨ 1 ≤ r.1 ≤ n.
Proof.
  revert st. induction l as [|i l IH]; intros st Hl Hst; simpl; [done|].
  apply IH; [intros j Hj; apply Hl; by right|].
  unfold farStep. destruct (points !! i); [|done].
  destruct (Rgtb _ _); [|done]. simpl. right. apply Hl. by left.
Qed.

Lemma farthest_index (points : list Point) (first lst : Point) :
  (farthest points first lst).1 = -1
  ∨ 1 ≤ (farthest points first lst).1 ≤ Z.of_nat (length points) - 2.
Proof.
  apply farStep_index; [|by left].
  intros i Hi. apply elem_of_seq in Hi. lia.
Qed.


Lemma removelast_snoc {A} (l : list A) (x : A) : removelast (l ++ [x]) = l.
Proof. apply removelast_last. Qed.

Lemma rdp_shape (fuel : nat) (tol : R) (points : list Point) :
  rdp fuel points tol `sublist_of` points
  ∧ ((2 ≤ length points)%nat →
     (2 ≤ length (rdp fuel points tol))%nat
     ∧ head (rdp fuel points tol) = head points
     ∧ last (rdp fuel points tol) = last points).
Proof.
  revert points. induction fuel as [|fuel IH]; intros points.
  { rewrite rdp_0. done. }
  rewrite rdp_S. destruct (Nat.ltb_spec (length points) 3) as [|Hlen]; [done|].
  destruct points as [|first rest] eqn:Epts; [done|]. rewrite <- Epts in *.
  destruct (last points) as [lst|] eqn:Hlast; [|done].
  cbn zeta. set (r := farthest points first lst).
  destruct (Rgtb r.2 tol && negb (r.1 =? -1)) eqn:Hcond.
  - apply andb_true_iff in Hcond as [_ Hne]. apply negb_true_iff, Z.eqb_neq in Hne.
    destruct (farthest_index points first lst) as [?|Hidx]; [done|]. fold r in Hidx.
    set (k := Z.to_nat r.1).
    replace (Z.to_nat (r.1 + 1)) with (S k) by lia.
    assert (1 ≤ k ∧ k + 2 ≤ length points)%nat as Hk by lia.
    destruct (lookup_lt_is_Some_2 points k) as [x Hx]; [lia|].
    destruct (IH (take (S k) points)) as [Hsub1 Hl1].
    destruct (IH (drop k points)) as [Hsub2 Hl2].
    destruct Hl1 as (Hlen1 & Hhd1 & Hlast1); [rewrite length_take; lia|].
    destruct Hl2 as (Hlen2 & Hhd2 & Hlast2); [rewrite length_drop; lia|].
    set (left := rdp fuel (take (S k) points) tol) in *.
    set (right := rdp fuel (drop k points) tol) in *.
    rewrite (take_S_r _ _ _ Hx) in Hsub1, Hlast1, Hhd1.
    rewrite last_snoc in Hlast1. apply last_Some in Hlast1 as [l' El].
    rewrite El in *. rewrite removelast_snoc.
    rewrite length_app in Hlen1. simpl in Hlen1.
    apply sublist_app_inv_r in Hsub1.
    assert (l' ≠ []) as Hl' by (intros ->; simpl in Hlen1; lia).
    assert (right ≠ []) as Hr by (intros E; rewrite E in Hlen2; simpl in Hlen2; lia).
    split.
    + etrans; [apply sublist_app; eassumption|]. by rewrite take_drop.
    + intros _. split_and!.
      * rewrite length_app. destruct l'; [done|]. simpl. lia.
      * destruct l' as [|a l'']; [done|]. simpl. rewrite Epts.
        simpl in Hhd1. rewrite Hhd1.
        rewrite Epts. destruct k; [lia|]. done.
      * assert (last (drop k points) = last points) as Hld.
        { rewrite !last_lookup, lookup_drop, length_drop. f_equal. lia. }
        rewrite last_app, Hlast2, Hld, Hlast. done.
  - apply last_Some in Hlast as [mid Emid].
    assert (∃ mid', points = first :: mid' ++ [lst]) as [mid' E].
    { destruct mid as [|a mid'].
      - rewrite Emid in Hlen. simpl in Hlen. lia.
      - exists mid'. rewrite Emid in Epts. simpl in Epts.
        injection Epts as -> _. done. }
    rewrite E. split.
    + apply sublist_skip. apply sublist_inserts_l. done.
    + intros _. split_and!; [simpl; lia|done|done].
Qed.

(** The fuel is irrelevant once it covers the length of the input. *)
Lemma rdp_fuel (tol : R) (fuel1 fuel2 : nat) (points : list Point) :
  (length points ≤ fuel1)%nat → (length points ≤ fuel2)%nat →
  rdp fuel1 points tol = rdp fuel2 points tol.
Proof.
  revert fuel2 points. induction fuel1 as [|fuel1 IH]; intros fuel2 points H1 H2.
  { destruct points; [|simpl in H1; lia]. rewrite rdp_0.
    destruct fuel2; by rewrite ?rdp_0, ?rdp_S. }
  destruct fuel2 as [|fuel2].
  { destruct points; [|simpl in H2; lia]. by rewrite rdp_0, rdp_S. }
  rewrite !rdp_S. destruct (Nat.ltb_spec (length points) 3) as [|Hlen]; [done|].
  destruct points as [|first rest] eqn:Epts; [done|]. rewrite <- Epts in *.
  destruct (last points) as [lst|] eqn:Hlast; [|done].
  cbn zeta. set (r := farthest points first lst).
  destruct (Rgtb r.2 tol && negb (r.1 =? -1)) eqn:Hcond; [|done].
  apply andb_true_iff in Hcond as [_ Hne]. apply negb_true_iff, Z.eqb_neq in Hne.
  destruct (farthest_index points first lst) as [?|Hidx]; [done|]. fold r in Hidx.
  f_equal; [f_equal|]; apply IH; rewrite ?length_take, ?length_drop; lia.
Qed.

(** [rdpSimplify] satisfies the recursive equation of the source. *)
Lemma rdpSimplify_unfold (points : list Point) (tol : R) :
  rdpSimplify points tol =
  if (length points <? 3)%nat then points
  else
    match points, last points with
    | first :: _, Some lst =>
        let r := farthest points first lst in
        if Rgtb r.2 tol && negb (r.1 =? -1)
        then removelast (rdpSimplify (take (Z.to_nat (r.1 + 1)) points) tol)
             ++ rdpSimplify (drop (Z.to_nat r.1) points) tol
        else [first; lst]
    | _, _ => points
    end.
Proof.
  unfold rdpSimplify. destruct (length points) as [|n] eqn:En.
  { by rewrite rdp_0. }
  rewrite rdp_S, En. destruct (Nat.ltb_spec (S n) 3) as [|Hlen]; [done|].
  destruct points as [|first rest] eqn:Epts; [done|]. rewrite <- Epts in *.
  destruct (last points) as [lst|] eqn:Hlast; [|done].
  cbn zeta. set (r := farthest points first lst).
  destruct (Rgtb r.2 tol && negb (r.1 =? -1)) eqn:Hcond; [|done].
  apply andb_true_iff in Hcond as [_ Hne]. apply negb_true_iff, Z.eqb_neq in Hne.
  destruct (farthest_index points first lst) as [?|Hidx]; [done|]. fold r in Hidx.
  f_equal; [f_equal|]; apply rdp_fuel; rewrite ?length_take, ?length_drop; lia.
Qed.

Lemma Rltb_true (a b : R) : (a < b)%R → Rltb a b = true.
Proof. intros. unfold Rltb. by destruct (Rlt_dec a b). Qed.

Lemma Rltb_false (a b : R) : ¬ (a < b)%R → Rltb a b = false.
Proof. intros. unfold Rltb. by destruct (Rlt_dec a b). Qed.

Lemma Rltb_lt (a b : R) : Rltb a b = true ↔ (a < b)%R.
Proof. unfold Rltb. destruct (Rlt_dec a b); split; auto; done. Qed.


(** *** Agreement with the integer version *)

Lemma den2_nonneg (a b : Point) : 0 ≤ den2 a b.
Proof.
  unfold den2.
  pose proof (Z.square_nonneg (p_x b - p_x a)).
  pose proof (Z.square_nonneg (p_y b - p_y a)). lia.
Qed.

Lemma perpendicularDistance_zero (p a b : Point) :
  den2 a b = 0 → perpendicularDistance p a b = 0%R.
Proof.
  intros E. unfold perpendicularDistance. cbv zeta. rewrite E, sqrt_0.
  by destruct (Req_dec_T 0 0).
Qed.

Lemma perpendicularDistance_pos (p a b : Point) :
  0 < den2 a b →
  perpendicularDistance p a b
  = (IZR (Z.abs (crossZ p a b)) / sqrt (IZR (den2 a b)))%R.
Proof.
  intros Hd. unfold perpendicularDistance. cbv zeta.
  assert (0 < sqrt (IZR (den2 a b)))%R as Hs.
  { apply sqrt_lt_R0. by apply (IZR_lt 0). }
  destruct (Req_dec_T (sqrt (IZR (den2 a b))) 0) as [E|_].
  - rewrite E in Hs. by apply Rlt_irrefl in Hs.
  - by rewrite abs_IZR.
Qed.

Lemma farStep_Z (points : list Point) (first lst : Point)
    (st : Z * R) (stZ : Z * Z) (i : nat) :
  farRel first lst st stZ →
  farRel first lst (farStep points first lst st i)
                   (farStepZ points first lst stZ i).
Proof.
  intros (E1 & Hm & Hcase). unfold farStep, farStepZ.
  destruct (points !! i) as [p|]; [|done].
  destruct Hcase as [(HD & E2 & E3)|(HD & E2)].
  - rewrite perpendicularDistance_zero by done. rewrite E2, HD.
    unfold Rgtb. rewrite Rltb_false by lra. rewrite andb_false_r.
    split_and!; [done|done|]. left. done.
  - rewrite perpendicularDistance_pos by done.
    assert (0 < sqrt (IZR (den2 first lst)))%R as Hs.
    { apply sqrt_lt_R0. by apply (IZR_lt 0). }
    destruct (Z.eqb_spec (den2 first lst) 0) as [|_]; [lia|].
    rewrite andb_true_r. unfold Rgtb. rewrite E2.
    destruct (Z.ltb_spec stZ.2 (Z.abs (crossZ p first lst))) as [Hlt|Hge].
    + rewrite Rltb_true.
      * split_and!; [done|simpl; lia|]. right. done.
      * apply Rmult_lt_compat_r; [by apply Rinv_0_lt_compat|by apply IZR_lt].
    + rewrite Rltb_false.
      * split_and!; [done|done|]. right. done.
      * apply Rle_not_lt. apply Rmult_le_compat_r; [|by apply IZR_le].
        left. by apply Rinv_0_lt_compat.
Qed.

Lemma farthest_Z (points : list Point) (first lst : Point) :
  farRel first lst (farthest points first lst) (farthestZ points first lst).
Proof.
  unfold farthest, farthestZ.
  apply (foldl_related (farRel first lst)).
  - intros s t i Hst. by apply farStep_Z.
  - split_and!; [done|done|]. simpl.
    destruct (Z.eq_dec (den2 first lst) 0) as [E|Hne]; [by left|].
    right. pose proof (den2_nonneg first lst). split; [lia|].
    unfold Rdiv. by rewrite Rmult_0_l.
Qed.

(** [maxDist > t], decided on integers. *)
Lemma exceeds_Z (first lst : Point) (st : Z * R) (stZ : Z * Z) (t : Z) :
  0 ≤ t → farRel first lst st stZ →
  Rgtb st.2 (IZR t) = (t * t * den2 first lst <? stZ.2 * stZ.2).
Proof.
  intros Ht (E1 & Hm & [(HD & E2 & E3)|(HD & E2)]); unfold Rgtb.
  - rewrite E2, E3, HD. rewrite Rltb_false.
    + symmetry. apply Z.ltb_ge. lia.
    + apply Rle_not_lt. by apply (IZR_le 0).
  - rewrite E2. set (D := den2 first lst) in *. set (m := stZ.2) in *.
    assert (0 < sqrt (IZR D))%R as Hs.
    { apply sqrt_lt_R0. by apply (IZR_lt 0). }
    assert (sqrt (IZR D) * sqrt (IZR D) = IZR D)%R as Hsq.
    { apply sqrt_sqrt. apply (IZR_le 0). lia. }
    set (s := sqrt (IZR D)) in *.
    assert (0 <= IZR t)%R as HT by (by apply (IZR_le 0)).
    assert (0 <= IZR m)%R as HM by (by apply (IZR_le 0)).
    assert (IZR m / s * s = IZR m)%R as Hdiv by (field; lra).
    destruct (Z.ltb_spec (t * t * D) (m * m)) as [Hlt|Hge].
    + apply Rltb_true. apply IZR_lt in Hlt. rewrite !mult_IZR in Hlt.
      set (q := (IZR m / s)%R) in *.
      destruct (Rlt_le_dec (IZR t) q) as [|Hle]; [done|exfalso].
      assert (IZR m <= IZR t * s)%R as H1 by nra.
      assert (IZR m * IZR m <= (IZR t * s) * (IZR t * s))%R as H2
        by (by apply Rmult_le_compat).
      nra.
    + apply Rltb_false. apply IZR_le in Hge. rewrite !mult_IZR in Hge.
      set (q := (IZR m / s)%R) in *.
      intros Hq.
      assert (IZR t * s < IZR m)%R as H1 by nra.
      assert (0 <= IZR t * s)%R as H0 by (apply Rmult_le_pos; lra).
      assert ((IZR t * s) * (IZR t * s) < IZR m * IZR m)%R as H2
        by (by apply Rmult_le_0_lt_compat).
      nra.
Qed.

Lemma rdpZ_S (fuel : nat) (points : list Point) (t : Z) :
  rdpZ (S fuel) points t =
  if (length points <? 3)%nat then points
  else
    match points, last points with
    | first :: _, Some lst =>
        let r := farthestZ points first lst in
        if (t * t * den2 first lst <? r.2 * r.2) && negb (r.1 =? -1)
        then removelast (rdpZ fuel (take (Z.to_nat (r.1 + 1)) points) t)
             ++ rdpZ fuel (drop (Z.to_nat r.1) points) t
        else [first; lst]
    | _, _ => points
    end.
Proof. reflexivity. Qed.

Lemma rdp_Z (fuel : nat) (points : list Point) (t : Z) :
  0 ≤ t → rdp fuel points (IZR t) = rdpZ fuel points t.
Proof.
  intros Ht. revert points. induction fuel as [|fuel IH]; intros points.
  { rewrite rdp_0. simpl. by destruct (length points <? 3)%nat. }
  rewrite rdp_S, rdpZ_S. destruct (length points <? 3)%nat; [done|].
  destruct points as [|first rest] eqn:Epts; [done|]. rewrite <- Epts.
  destruct (last points) as [lst|]; [|done]. cbn zeta.
  pose proof (farthest_Z points first lst) as Hrel.
  rewrite (exceeds_Z first lst _ _ t Ht Hrel).
  destruct Hrel as (-> & _). rewrite !IH. done.
Qed.

(** The simplification used by the detector (tolerance 3) can be computed
    on integers. *)
Lemma rdpSimplify_Z (points : list Point) (t : Z) :
  0 ≤ t → rdpSimplify points (IZR t) = rdpSimplifyZ points t.
Proof. intros Ht. by apply rdp_Z. Qed.

(** ** The entry point *)

Lemma scan_degenerate (w h : Z) (binary : list Z) :
  w ≤ 0 ∨ h ≤ 0 → findContours w h binary = [].
Proof.
  intros Hwh. unfold findContours, scan.
  destruct (Z_le_gt_dec h 0) as [Hh|Hh].
  { by rewrite seqZ_nil by lia. }
  assert (w ≤ 0) as Hw by lia.
  generalize (seqZ 0 h). intros l.
  generalize (replicate (Z.to_nat (w * h)) 0). intros vis.
  induction l as [|y l IH]; [done|]. simpl.
  unfold scanRow at 2. by rewrite seqZ_nil by lia.
Qed.

Lemma detectShapes_rejects (clock : Q * Q) (img : ImageData) :
  width img * height img < 0 → detectShapes clock img = RangeError.
Proof.
  intros Hneg. unfold detectShapes.
  by destruct (Z.ltb_spec (width img * height img) 0); [|lia].
Qed.

(** C2 fails as stated: a 2x2 call with an empty pixel buffer, and a call
    with zero width and height, both resolve with an empty shape list. *)
Lemma detectShapes_accepts_invalid_input :
  (Z.of_nat (length (data (mkImage 2 2 []))) ≠ 2 * 2 * 4
   ∧ detectShapes (0, 0)%Q (mkImage 2 2 [])
     = Resolved (mkResult [] (0 - 0)%Q 2 2))
  ∧ (¬ 0 < width (mkImage 0 0 [])
     ∧ detectShapes (0, 0)%Q (mkImage 0 0 [])
       = Resolved (mkResult [] (0 - 0)%Q 0 0)).
Proof. split; (split; [simpl; lia|reflexivity]). Qed.

(** ** Noise filter *)

(** C3: the shapes of a call are, in order, one per 8-connected component
    of the foreground that has more than 20 pixels; a component of at most
    20 pixels is the source of no shape. *)
Theorem noise_filter (clock : Q * Q) (img : ImageData) (r : DetectionResult) :
  detectShapes clock img = Resolved r →
  ∃ comps,
    components (width img) (height img)
      (binaryMask (width img) (height img)
         (grayscale (width img) (height img) (data img))) comps
    ∧ sourceBlobs img = filter big comps
    ∧ shapes r = map shapeOf (sourceBlobs img)
    ∧ (∀ c, c ∈ comps → (c ∈ sourceBlobs img ↔ (20 < length c)%nat)).
Proof.
  intros (_ & Hs & _)%detectShapes_resolved.
  destruct (contoursOf_components (width img) (height img)
              (grayscale (width img) (height img) (data img)))
    as (comps & Hcomps & Hfilter).
  exists comps. unfold sourceBlobs. rewrite Hfilter.
  split_and!; [done|done|by rewrite Hs; unfold sourceBlobs; rewrite Hfilter|].
  intros c Hc. rewrite list_elem_of_filter, <- big_spec.
  destruct (big c); simpl; split; try tauto; done.
Qed.

Lemma noise_filter_witness :
  let r := mkResult (map shapeOf (sourceBlobs blackSquare)) (0 - 0)%Q 7 7 in
  ∃ comps,
    components 7 7 (binaryMask 7 7 (grayscale 7 7 (data blackSquare))) comps
    ∧ sourceBlobs blackSquare = filter big comps
    ∧ shapes r = map shapeOf (sourceBlobs blackSquare)
    ∧ (∀ c, c ∈ comps → (c ∈ sourceBlobs blackSquare ↔ (20 < length c)%nat)).
Proof.
  intros r. apply (noise_filter (0, 0)%Q blackSquare r). reflexivity.
Defined.

(** ** Bounding boxes *)

(** C7: every pixel of the blob behind a shape lies inside the bounding
    box of that shape. *)
Theorem boundingBox_contains_blob (clock : Q * Q) (img : ImageData)
    (r : DetectionResult) :
  detectShapes clock img = Resolved r →
  Forall2 (λ s blob,
             ∀ p, p ∈ blob →
               bb_x (boundingBox s) ≤ p_x p
                 ≤ bb_x (boundingBox s) + bb_width (boundingBox s)
               ∧ bb_y (boundingBox s) ≤ p_y p
                 ≤ bb_y (boundingBox s) + bb_height (boundingBox s))
          (shapes r) (sourceBlobs img).
Proof.
  intros (_ & -> & _)%detectShapes_resolved.
  apply Forall2_map_self. intros blob _ p Hp.
  rewrite boundingBox_shapeOf. by apply boxOf_contains.
Qed.

Lemma boundingBox_contains_blob_witness :
  let r := mkResult (map shapeOf (sourceBlobs blackSquare)) (0 - 0)%Q 7 7 in
  Forall2 (λ s blob,
             ∀ p, p ∈ blob →
               bb_x (boundingBox s) ≤ p_x p
                 ≤ bb_x (boundingBox s) + bb_width (boundingBox s)
               ∧ bb_y (boundingBox s) ≤ p_y p
                 ≤ bb_y (boundingBox s) + bb_height (boundingBox s))
          (shapes r) (sourceBlobs blackSquare).
Proof.
  intros r. apply (boundingBox_contains_blob (0, 0)%Q blackSquare r).
  reflexivity.
Defined.

(** The black 5x5 square of [blackSquare] is found as one shape with the
    box [(1, 1, 4, 4)]: width and height are differences of extreme
    coordinates.  Its 25 pixels, taken in fill order, simplify to 5
    vertices. *)
Lemma detectGray_boxes (w h : Z) (gray : list Z) :
  map boundingBox (detectGray w h gray) = map boxOf (contoursOf w h gray).
Proof. unfold detectGray. rewrite map_map. by apply map_ext. Qed.

Example blackSquare_box :
  map boundingBox (detectGray 7 7 (grayscale 7 7 (data blackSquare)))
  = [mkBox 1 1 4 4].
Proof. rewrite detectGray_boxes. vm_compute. reflexivity. Qed.

Example blackSquare_vertices :
  map (λ c, length (rdpSimplify c 3))
      (contoursOf 7 7 (grayscale 7 7 (data blackSquare)))
  = [5%nat].
Proof.
  erewrite map_ext; [|intros c; by rewrite (rdpSimplify_Z c 3)].
  vm_compute. reflexivity.
Qed.

(** ** Confidence *)

Lemma sizeFactor_range (n : nat) : (0 <= sizeFactor n <= 1)%Q.
Proof.
  unfold sizeFactor.
  assert (0 <= inject_Z (Z.of_nat n) / 500)%Q as Hn.
  { unfold Qle, Qdiv, Qmult, Qinv. simpl. lia. }
  destruct (Q.min_spec 1 (inject_Z (Z.of_nat n) / 500)) as [[H1 H2]|[H1 H2]];
    rewrite H2; split; try lra.
Qed.

Lemma computeConfidence_formula (ty : ShapeType) (approx contour : list Point) :
  computeConfidence ty approx contour = confidenceFormula ty (length contour).
Proof. by destruct ty. Qed.

Lemma confidenceFormula_unclamped (ty : ShapeType) (n : nat) :
  (confidenceFormula ty n == baseScore ty * (0.8 + 0.2 * sizeFactor n))%Q.
Proof.
  unfold confidenceFormula. pose proof (sizeFactor_range n) as [H0 H1].
  apply Q.min_r. destruct ty; simpl; lra.
Qed.

Lemma confidenceFormula_range (ty : ShapeType) (n : nat) :
  (0.64 <= confidenceFormula ty n <= 0.95)%Q.
Proof.
  rewrite confidenceFormula_unclamped. pose proof (sizeFactor_range n) as [H0 H1].
  destruct ty; simpl; lra.
Qed.

Lemma confidence_shapeOf (blob : list Point) :
  confidence (shapeOf blob)
  = confidenceFormula (type (shapeOf blob)) (length blob).
Proof. unfold shapeOf. cbn [confidence type]. apply computeConfidence_formula. Qed.

(** C4: the confidence of every detected shape is
    [min(1, base * (0.8 + 0.2 * min(1, blobPointCount / 500)))] with the
    base score of its type, and lies in [0, 1]. *)
Theorem confidence_formula (clock : Q * Q) (img : ImageData)
    (r : DetectionResult) :
  detectShapes clock img = Resolved r →
  Forall2 (λ s blob,
             confidence s = confidenceFormula (type s) (length blob)
             ∧ (0 <= confidence s <= 1)%Q)
          (shapes r) (sourceBlobs img).
Proof.
  intros (_ & -> & _)%detectShapes_resolved.
  apply Forall2_map_self. intros blob _.
  rewrite confidence_shapeOf. split; [done|].
  pose proof (confidenceFormula_range (type (shapeOf blob)) (length blob)).
  lra.
Qed.

Lemma confidence_formula_witness :
  let r := mkResult (map shapeOf (sourceBlobs blackSquare)) (0 - 0)%Q 7 7 in
  Forall2 (λ s blob,
             confidence s = confidenceFormula (type s) (length blob)
             ∧ (0 <= confidence s <= 1)%Q)
          (shapes r) (sourceBlobs blackSquare).
Proof.
  intros r. apply (confidence_formula (0, 0)%Q blackSquare r). reflexivity.
Defined.

(** C10: the confidence of every detected shape lies in [0.64, 0.95]; the
    outer [min(1, ...)] never binds and the confidence is never 1. *)
Theorem confidence_range (clock : Q * Q) (img : ImageData)
    (r : DetectionResult) :
  detectShapes clock img = Resolved r →
  Forall2 (λ s blob,
             (0.64 <= confidence s <= 0.95)%Q
             ∧ (confidence s
                == baseScore (type s) * (0.8 + 0.2 * sizeFactor (length blob)))%Q
             ∧ ¬ (confidence s == 1)%Q)
          (shapes r) (sourceBlobs img).
Proof.
  intros (_ & -> & _)%detectShapes_resolved.
  apply Forall2_map_self. intros blob _.
  rewrite confidence_shapeOf.
  pose proof (confidenceFormula_range (type (shapeOf blob)) (length blob)).
  split_and!; [lra|lra|apply confidenceFormula_unclamped|].
  intros E. rewrite E in H. lra.
Qed.

Lemma confidence_range_witness :
  let r := mkResult (map shapeOf (sourceBlobs blackSquare)) (0 - 0)%Q 7 7 in
  Forall2 (λ s blob,
             (0.64 <= confidence s <= 0.95)%Q
             ∧ (confidence s
                == baseScore (type s) * (0.8 + 0.2 * sizeFactor (length blob)))%Q
             ∧ ¬ (confidence s == 1)%Q)
          (shapes r) (sourceBlobs blackSquare).
Proof.
  intros r. apply (confidence_range (0, 0)%Q blackSquare r). reflexivity.
Defined.

(** ** Simplified polygon *)




(** ** Levels, polarity and mask *)

Lemma Qltb_lt (a b : Q) : Qltb a b = true ↔ (a < b)%Q.
Proof.
  unfold Qltb. rewrite Qlt_alt. destruct (a ?= b)%Q; split; congruence.
Qed.

Lemma Qltb_ge (a b : Q) : Qltb a b = false ↔ (b <= a)%Q.
Proof.
  rewrite <- not_true_iff_false, Qltb_lt. split; [apply Qnot_lt_le|apply Qle_not_lt].
Qed.

Lemma csgn_Q (a : Q) :
  (csgn a = Gt ∧ (0 < a)%Q) ∨ (csgn a = Lt ∧ (a < 0)%Q) ∨ (csgn a = Eq ∧ (a == 0)%Q).
Proof.
  unfold csgn. simpl.
  destruct (Qltb 0 a) eqn:E1.
  - left. split; [done|]. by apply Qltb_lt.
  - destruct (Qltb a 0) eqn:E2.
    + right; left. split; [done|]. by apply Qltb_lt.
    + right; right. split; [done|]. apply Qltb_ge in E1, E2. lra.
Qed.

Lemma aget_elem {A} (a : list A) (i : Z) (v : A) : aget a i = Some v → v ∈ a.
Proof.
  unfold aget. destruct (i <? 0); [done|]. apply list_elem_of_lookup_2.
Qed.

Lemma foldl_add_const (c : Z) (gray : list Z) (a : Z) :
  (∀ g, g ∈ gray → g = c) →
  foldl Z.add a gray = a + c * Z.of_nat (length gray).
Proof.
  revert a. induction gray as [|g gray IH]; intros a Hc; simpl; [lia|].
  rewrite IH by (intros g' Hg'; apply Hc; by right).
  rewrite (Hc g) by (by left). lia.
Qed.

Section Uniform.
Variables (c : Z) (gray : list Z).
Hypothesis Hc : ∀ g, g ∈ gray → g = c.
Hypothesis Hpos : 0 ≤ c ≤ 255.

Lemma num_uniform (i : Z) :
  num (aget gray i) = NaN ∨ num (aget gray i) = Fin (inject_Z c).
Proof.
  destruct (aget gray i) as [g|] eqn:E; [|by left].
  right. simpl. by rewrite (Hc g (aget_elem _ _ _ E)).
Qed.

Lemma border_step (acc : jsnum Q * Z) (i j : Z) :
  borderInv c acc →
  borderInv c (jadd acc.1 (jadd (num (aget gray i)) (num (aget gray j))),
             acc.2 + 2).
Proof.
  intros [Hk Hs]. split; [simpl; lia|]. cbn [fst snd].
  destruct Hs as [->|(s & -> & Es)]; [by left|].
  destruct (num_uniform i) as [->| ->]; [by left|].
  destruct (num_uniform j) as [->| ->]; [by left|].
  right. eexists. split; [reflexivity|]. simpl.
  rewrite Es, inject_Z_plus. simpl. ring.
Qed.

Lemma border_uniform (w h : Z) : borderInv c (border w h gray).
Proof.
  unfold border.
  assert (borderInv c (foldl (borderRow w h gray) (Fin 0%Q, 0) (seqZ 0 w))) as Hrow.
  { generalize (seqZ 0 w). intros l.
    assert (borderInv c (Fin 0%Q, 0)) as H0.
    { split; [done|]. right. exists 0%Q. split; [done|]. simpl. ring. }
    revert H0. generalize (Fin 0%Q, 0). induction l as [|x l IH]; intros acc Hacc; [done|].
    simpl. apply IH. by apply border_step. }
  revert Hrow. generalize (foldl (borderRow w h gray) (Fin 0%Q, 0) (seqZ 0 w)).
  generalize (seqZ 0 h). intros l. induction l as [|y l IH]; intros acc Hacc; [done|].
  simpl. apply IH. by apply border_step.
Qed.

Lemma jdiv_level (s : Q) (k : Z) :
  0 ≤ k → (s == inject_Z c * inject_Z k)%Q →
  level c (jdiv (Fin s) (Fin (inject_Z k))).
Proof.
  intros Hk Es. unfold jdiv.
  destruct (csgn_Q (inject_Z k)) as [[-> Hs]|[[-> Hs]|[-> Hs]]].
  - right. eexists. split; [done|]. simpl. rewrite Es. field. lra.
  - exfalso. assert (0 <= inject_Z k)%Q by (rewrite <- (Zle_Qle 0); done). lra.
  - assert (s == 0)%Q as E0 by (rewrite Es, Hs; ring).
    destruct (csgn_Q s) as [[-> ?]|[[-> ?]|[-> ?]]]; [lra|lra|by left].
Qed.

Lemma bgLevel_uniform (w h : Z) : level c (bgLevel w h gray).
Proof.
  unfold bgLevel. apply jfl_level; [lia|]. cbv zeta.
  destruct (border_uniform w h) as [Hk [->|(s & -> & Es)]].
  - by left.
  - by apply jdiv_level.
Qed.

Lemma avgLevel_uniform : level c (avgLevel gray).
Proof.
  unfold avgLevel. apply jfl_level; [lia|]. apply jdiv_level; [lia|].
  rewrite (foldl_add_const c) by done. rewrite Z.add_0_l, inject_Z_mult. ring.
Qed.

Lemma darkShapes_uniform (w h : Z) : darkShapes w h gray = false.
Proof.
  unfold darkShapes.
  destruct avgLevel_uniform as [->|(a & -> & Ea)]; [done|].
  destruct (bgLevel_uniform w h) as [->|(b & -> & Eb)]; [done|].
  simpl. apply Qltb_ge. lra.
Qed.

Lemma binaryMask_uniform (w h : Z) (b : Z) :
  b ∈ binaryMask w h gray → b = 0.
Proof.
  unfold binaryMask, threshold. rewrite darkShapes_uniform.
  intros (g & -> & Hg)%list_elem_of_fmap. rewrite (Hc g Hg).
  unfold binarize, jgt.
  destruct (bgLevel_uniform w h) as [->|(q & -> & Eq)]; [done|].
  cbn [jfl jmul jlt cmul cltb Q_carrier].
  rewrite (proj2 (Qltb_ge _ _)); [done|].
  assert (0 <= inject_Z c)%Q by (rewrite <- (Zle_Qle 0); lia).
  assert (1 <= fl 1.1)%Q as H11 by (vm_compute; discriminate).
  rewrite <- (fl_Z c) by lia. apply fl_mono. nra.
Qed.
End Uniform.

Lemma findContours_no_foreground (w h : Z) (binary : list Z) :
  (∀ b, b ∈ binary → b = 0) → findContours w h binary = [].
Proof.
  intros Hz. unfold findContours, scan.
  generalize (replicate (Z.to_nat (w * h)) 0). intros vis.
  assert (∀ y st x, scanPixel w h binary y st x = st) as Hpix.
  { intros y st x. unfold scanPixel.
    destruct (aget binary (idx w x y)) as [b|] eqn:E; [|done].
    by rewrite (Hz b (aget_elem _ _ _ E)). }
  assert (∀ st y, scanRow w h binary st y = st) as Hrow.
  { intros st y. unfold scanRow. generalize (seqZ 0 w). intros l.
    induction l as [|x l IH]; [done|]. simpl. by rewrite Hpix. }
  generalize (seqZ 0 h). intros l.
  induction l as [|y l IH]; [done|]. simpl. by rewrite Hrow.
Qed.

Lemma clamp8_range (z : Z) : 0 ≤ clamp8 z ≤ 255.
Proof. unfold clamp8. lia. Qed.

Lemma grayAt_range (data : list Z) (i : Z) : 0 ≤ grayAt data i ≤ 255.
Proof.
  unfold grayAt. destruct (aget data (i * 4)); [|lia].
  destruct (aget data (i * 4 + 1)); [|lia].
  destruct (aget data (i * 4 + 2)); [|lia]. apply clamp8_range.
Qed.

Lemma grayAt_nonneg (data : list Z) (i : Z) : 0 ≤ grayAt data i.
Proof.
  unfold grayAt. destruct (aget data (i * 4)); [|done].
  destruct (aget data (i * 4 + 1)); [|done].
  destruct (aget data (i * 4 + 2)); [|done]. unfold clamp8. lia.
Qed.

Lemma grayAt_pixelAt (data : list Z) (i j : Z) :
  pixelAt data i = pixelAt data j → grayAt data i = grayAt data j.
Proof. unfold pixelAt, grayAt. by intros [= -> -> ->]. Qed.

Lemma grayscale_uniform (img : ImageData) (g : Z) :
  uniform img →
  g ∈ grayscale (width img) (height img) (data img) → g = grayAt (data img) 0.
Proof.
  unfold uniform, grayscale. rewrite Forall_forall.
  intros Hu (i & -> & Hi)%list_elem_of_fmap. by apply grayAt_pixelAt, Hu.
Qed.

(** C8: on a uniform image the call resolves with an empty shape list. *)
Theorem uniform_image_no_shapes (clock : Q * Q) (img : ImageData) :
  0 ≤ width img * height img → uniform img →
  ∃ r, detectShapes clock img = Resolved r ∧ shapes r = [].
Proof.
  intros Hwh Hu. unfold detectShapes.
  destruct (Z.ltb_spec (width img * height img) 0); [lia|].
  eexists. split; [done|]. simpl. unfold detectGray, contoursOf.
  rewrite findContours_no_foreground; [done|].
  apply (binaryMask_uniform (grayAt (data img) 0)).
  - intros g Hg. by apply grayscale_uniform.
  - apply grayAt_range.
Qed.

Lemma uniform_image_no_shapes_witness :
  ∃ r, detectShapes (0, 0)%Q flatGray = Resolved r ∧ shapes r = [].
Proof.
  apply (uniform_image_no_shapes (0, 0)%Q flatGray).
  - simpl. lia.
  - unfold uniform. apply (bool_decide_unpack _). vm_compute. reflexivity.
Defined.

(** ** Luminance inversion *)

Lemma aget_invert (gray : list Z) (i : Z) :
  aget (invert gray) i = (λ g, 255 - g) <$> aget gray i.
Proof.
  unfold aget, invert. destruct (i <? 0); [done|]. apply list_lookup_fmap.
Qed.

Lemma inject_Z_invert (g : Z) : (inject_Z (255 - g) == 255 - inject_Z g)%Q.
Proof. unfold Z.sub. rewrite inject_Z_plus, inject_Z_opp. reflexivity. Qed.

Lemma border_step_invert (gray : list Z) (acc acc' : jsnum Q * Z) (i j : Z) :
  invRel acc acc' →
  invRel (jadd acc.1 (jadd (num (aget gray i)) (num (aget gray j))), acc.2 + 2)
         (jadd acc'.1 (jadd (num (aget (invert gray) i))
                            (num (aget (invert gray) j))), acc'.2 + 2).
Proof.
  destruct acc as [a k], acc' as [a' k'].
  intros [Ek Hs]. cbn [fst snd] in *. subst k'.
  split; [done|]. cbn [fst snd]. rewrite !aget_invert.
  destruct a as [s| | |], a' as [s'| | |]; try done.
  destruct (aget gray i) as [g1|]; [|done].
  destruct (aget gray j) as [g2|]; [|done]. simpl.
  rewrite Hs, !inject_Z_invert, inject_Z_plus. simpl. ring.
Qed.

Lemma border_invert (w h : Z) (gray : list Z) :
  invRel (border w h gray) (border w h (invert gray)).
Proof.
  unfold border. apply (foldl_related invRel).
  - intros s t y Hst. by apply border_step_invert.
  - apply (foldl_related invRel).
    + intros s t x Hst. by apply border_step_invert.
    + split; [done|]. simpl. ring.
Qed.

Lemma jdiv_Fin (s k q : Q) :
  jdiv (Fin s) (Fin k) = Fin q → ¬ (k == 0)%Q ∧ q = (s / k)%Q.
Proof.
  unfold jdiv. destruct (csgn_Q k) as [[-> Hs]|[[-> Hs]|[-> Hs]]].
  - intros [= <-]. split; [lra|done].
  - intros [= <-]. split; [lra|done].
  - unfold inf_of. by destruct (csgn s).
Qed.

Lemma jdiv_Fin_2 (s k : Q) :
  ¬ (k == 0)%Q → jdiv (Fin s) (Fin k) = Fin (s / k)%Q.
Proof.
  intros Hk. unfold jdiv.
  by destruct (csgn_Q k) as [[-> Hs]|[[-> Hs]|[-> Hs]]].
Qed.

Lemma borderMean_invert (w h : Z) (gray : list Z) (bg : Q) :
  borderMean w h gray = Fin bg →
  ∃ bg', borderMean w h (invert gray) = Fin bg' ∧ (bg' == 255 - bg)%Q.
Proof.
  unfold borderMean. destruct (border_invert w h gray) as [Ek Hs]. rewrite <- Ek.
  destruct (border w h gray).1 as [s| | |] eqn:E1; try done;
    destruct (border w h (invert gray)).1 as [s'| | |] eqn:E2; try done.
  intros [Hk ->]%jdiv_Fin. rewrite jdiv_Fin_2 by done.
  eexists. split; [done|]. rewrite Hs. field. done.
Qed.

Lemma foldl_add_invert (gray : list Z) (a b : Z) :
  foldl Z.add a (invert gray) + foldl Z.add b gray
  = a + b + 255 * Z.of_nat (length gray).
Proof.
  revert a b. induction gray as [|g gray IH]; intros a b; simpl; [lia|].
  rewrite IH. lia.
Qed.

Lemma overallMean_invert (gray : list Z) (avg : Q) :
  overallMean gray = Fin avg →
  ∃ avg', overallMean (invert gray) = Fin avg' ∧ (avg' == 255 - avg)%Q.
Proof.
  unfold overallMean. intros [Hk ->]%jdiv_Fin.
  assert (length (invert gray) = length gray) as -> by apply length_map.
  rewrite jdiv_Fin_2 by done. eexists. split; [done|].
  pose proof (foldl_add_invert gray 0 0) as E.
  assert (foldl Z.add 0 (invert gray)
          = 255 * Z.of_nat (length gray) - foldl Z.add 0 gray) as -> by lia.
  unfold Z.sub. rewrite inject_Z_plus, inject_Z_opp, inject_Z_mult. field. done.
Qed.

(** ** Rounded comparisons

    A comparison that holds with room to spare between exact values holds
    between their roundings, and so does one that fails with room to
    spare. *)

Lemma clearlyLess_lt (a b : Q) : clearlyLess a b → (a < b)%Q.
Proof.
  unfold clearlyLess, eta. pose proof (Qabs_nonneg a). pose proof (Qabs_nonneg b).
  lra.
Qed.

Lemma clearlyLeq_le (a b : Q) : clearlyLeq a b → (a <= b)%Q.
Proof.
  unfold clearlyLeq, eta. pose proof (Qabs_nonneg a). pose proof (Qabs_nonneg b).
  lra.
Qed.

Lemma clearlyLess_proper (a a' b b' : Q) :
  (a == a')%Q → (b == b')%Q → clearlyLess a b → clearlyLess a' b'.
Proof. unfold clearlyLess. by intros -> ->. Qed.

Lemma clearlyLeq_proper (a a' b b' : Q) :
  (a == a')%Q → (b == b')%Q → clearlyLeq a b → clearlyLeq a' b'.
Proof. unfold clearlyLeq. by intros -> ->. Qed.

Lemma fl_bounds (q : Q) :
  (q - unit_roundoff * Qabs q <= fl q <= q + unit_roundoff * Qabs q)%Q.
Proof.
  pose proof (fl_err q) as H. apply Qabs_Qle_condition in H. lra.
Qed.

(** The rounded product of a rounded level and a rounded constant. *)
Lemma fl_product (b c : Q) :
  (Qabs (fl (fl b * fl c) - b * c) <= 5 * unit_roundoff * Qabs (b * c))%Q.
Proof.
  pose proof (fl_bounds b) as [B1 B2]. pose proof (fl_bounds c) as [C1 C2].
  pose proof (fl_bounds (fl b * fl c)) as [P1 P2].
  pose proof (Qabs_nonneg b) as Hb. pose proof (Qabs_nonneg c) as Hc.
  rewrite Qabs_Qmult.
  assert (Qabs (fl b * fl c)
          <= Qabs b * Qabs c * (1 + 3 * unit_roundoff))%Q as Hp.
  { rewrite Qabs_Qmult.
    assert (Qabs (fl b) <= Qabs b * (1 + unit_roundoff))%Q as Hfb.
    { apply Qabs_Qle_condition. pose proof (Qle_Qabs b).
      pose proof (Qle_Qabs (- b)) as Hn. rewrite Qabs_opp in Hn.
      assert (0 < unit_roundoff)%Q by reflexivity. split; nra. }
    assert (Qabs (fl c) <= Qabs c * (1 + unit_roundoff))%Q as Hfc.
    { apply Qabs_Qle_condition. pose proof (Qle_Qabs c).
      pose proof (Qle_Qabs (- c)) as Hn. rewrite Qabs_opp in Hn.
      assert (0 < unit_roundoff)%Q by reflexivity. split; nra. }
    pose proof (Qabs_nonneg (fl b)). pose proof (Qabs_nonneg (fl c)).
    assert (0 < unit_roundoff <= 1 # 4)%Q as Hu by (split; [reflexivity|discriminate]).
    set (u := unit_roundoff) in *. set (X := Qabs (fl b)) in *.
    set (Y := Qabs (fl c)) in *. set (A := Qabs b) in *. set (C := Qabs c) in *.
    assert (X * Y <= (A * (1 + u)) * (C * (1 + u)))%Q by nra.
    assert (0 <= A * C)%Q by nra.
    assert (u * u <= u)%Q by nra.
    assert (A * C * (u * u) <= A * C * u)%Q by nra. nra. }
  assert (Qabs (fl b * fl c - b * c)
          <= Qabs b * Qabs c * (3 * unit_roundoff))%Q as Hd.
  { assert (fl b * fl c - b * c == (fl b - b) * fl c + b * (fl c - c))%Q as ->
      by ring.
    eapply Qle_trans; [apply Qabs_triangle|]. rewrite !Qabs_Qmult.
    assert (Qabs (fl b - b) <= unit_roundoff * Qabs b)%Q as E1 by apply fl_err.
    assert (Qabs (fl c - c) <= unit_roundoff * Qabs c)%Q as E2 by apply fl_err.
    assert (Qabs (fl c) <= Qabs c * (1 + unit_roundoff))%Q as Hfc.
    { apply Qabs_Qle_condition. pose proof (Qle_Qabs c).
      pose proof (Qle_Qabs (- c)) as Hn. rewrite Qabs_opp in Hn.
      assert (0 < unit_roundoff)%Q by reflexivity. split; nra. }
    pose proof (Qabs_nonneg (fl b - b)). pose proof (Qabs_nonneg (fl c - c)).
    pose proof (Qabs_nonneg (fl c)).
    assert (0 < unit_roundoff <= 1 # 4)%Q as Hu by (split; [reflexivity|discriminate]).
    set (u := unit_roundoff) in *. set (A := Qabs b) in *. set (C := Qabs c) in *.
    set (D1 := Qabs (fl b - b)) in *. set (D2 := Qabs (fl c - c)) in *.
    set (Y := Qabs (fl c)) in *.
    assert (D1 * Y <= (u * A) * (C * (1 + u)))%Q by nra.
    assert (A * D2 <= A * (u * C))%Q by nra.
    assert (0 <= A * C)%Q by nra.
    assert (u * u <= u)%Q by nra.
    assert (A * C * (u * u) <= A * C * u)%Q by nra. nra. }
  assert (fl (fl b * fl c) - b * c
          == (fl (fl b * fl c) - fl b * fl c) + (fl b * fl c - b * c))%Q as ->
    by ring.
  eapply Qle_trans; [apply Qabs_triangle|].
  assert (Qabs (fl (fl b * fl c) - fl b * fl c)
          <= unit_roundoff * Qabs (fl b * fl c))%Q as E3 by apply fl_err.
  assert (0 < unit_roundoff <= 1 # 4)%Q as Hu by (split; [reflexivity|discriminate]).
  set (u := unit_roundoff) in *. set (A := Qabs b) in *. set (C := Qabs c) in *.
  set (P := Qabs (fl b * fl c)) in *.
  set (D3 := Qabs (fl (fl b * fl c) - fl b * fl c)) in *.
  set (D := Qabs (fl b * fl c - b * c)) in *.
  assert (0 <= A * C)%Q by nra.
  assert (u * u <= u * (1 # 4))%Q by nra.
  assert (A * C * (u * u) <= A * C * (u * (1 # 4)))%Q by nra.
  nra.
Qed.

Lemma eta_roundoff : (5 * unit_roundoff <= eta)%Q.
Proof. vm_compute. discriminate. Qed.

Lemma product_lt (x b c : Q) :
  clearlyLess x (b * c) → (x < fl (fl b * fl c))%Q.
Proof.
  unfold clearlyLess. intros H. pose proof (fl_product b c) as Hp.
  apply Qabs_Qle_condition in Hp. pose proof eta_roundoff.
  assert (0 < eta)%Q by reflexivity. assert (0 < unit_roundoff)%Q by reflexivity.
  pose proof (Qabs_nonneg x). pose proof (Qabs_nonneg (b * c)).
  set (B := Qabs (b * c)) in *. set (X := Qabs x) in *.
  set (t := fl (fl b * fl c)) in *. set (u := unit_roundoff) in *.
  set (e := eta) in *. nra.
Qed.

Lemma product_le (x b c : Q) :
  clearlyLeq x (b * c) → (x <= fl (fl b * fl c))%Q.
Proof.
  unfold clearlyLeq. intros H. pose proof (fl_product b c) as Hp.
  apply Qabs_Qle_condition in Hp. pose proof eta_roundoff.
  assert (0 < eta)%Q by reflexivity. assert (0 < unit_roundoff)%Q by reflexivity.
  pose proof (Qabs_nonneg x). pose proof (Qabs_nonneg (b * c)).
  set (B := Qabs (b * c)) in *. set (X := Qabs x) in *.
  set (t := fl (fl b * fl c)) in *. set (u := unit_roundoff) in *.
  set (e := eta) in *. nra.
Qed.

Lemma product_gt (x b c : Q) :
  clearlyLess (b * c) x → (fl (fl b * fl c) < x)%Q.
Proof.
  unfold clearlyLess. intros H. pose proof (fl_product b c) as Hp.
  apply Qabs_Qle_condition in Hp. pose proof eta_roundoff.
  assert (0 < eta)%Q by reflexivity. assert (0 < unit_roundoff)%Q by reflexivity.
  pose proof (Qabs_nonneg x). pose proof (Qabs_nonneg (b * c)).
  set (B := Qabs (b * c)) in *. set (X := Qabs x) in *.
  set (t := fl (fl b * fl c)) in *. set (u := unit_roundoff) in *.
  set (e := eta) in *. nra.
Qed.

Lemma product_ge (x b c : Q) :
  clearlyLeq (b * c) x → (fl (fl b * fl c) <= x)%Q.
Proof.
  unfold clearlyLeq. intros H. pose proof (fl_product b c) as Hp.
  apply Qabs_Qle_condition in Hp. pose proof eta_roundoff.
  assert (0 < eta)%Q by reflexivity. assert (0 < unit_roundoff)%Q by reflexivity.
  pose proof (Qabs_nonneg x). pose proof (Qabs_nonneg (b * c)).
  set (B := Qabs (b * c)) in *. set (X := Qabs x) in *.
  set (t := fl (fl b * fl c)) in *. set (u := unit_roundoff) in *.
  set (e := eta) in *. nra.
Qed.

Lemma fl_lt (a b : Q) : clearlyLess a b → (fl a < fl b)%Q.
Proof.
  unfold clearlyLess. intros H.
  pose proof (fl_bounds a) as [_ A2]. pose proof (fl_bounds b) as [B1 _].
  pose proof (Qabs_nonneg a). pose proof (Qabs_nonneg b).
  assert (unit_roundoff <= eta)%Q by (vm_compute; discriminate).
  assert (0 < unit_roundoff)%Q by reflexivity.
  assert (0 < eta)%Q by reflexivity.
  set (A := Qabs a) in *. set (B := Qabs b) in *.
  set (u := unit_roundoff) in *. set (e := eta) in *. nra.
Qed.

Lemma bgLevel_borderMean (w h : Z) (gray : list Z) :
  bgLevel w h gray = jfl (borderMean w h gray).
Proof. reflexivity. Qed.

Lemma avgLevel_overallMean (gray : list Z) :
  avgLevel gray = jfl (overallMean gray).
Proof. reflexivity. Qed.

(** The mask bit of a gray value that is clearly on one side of the exact
    cut-off [bg * 0.9] or [bg * 1.1]. *)
Lemma binarize_dark (bg : Q) (g : Z) :
  (clearlyLess (inject_Z g) (bg * 0.9) →
   binarize true (jfl (jmul (Fin (fl bg)) (Fin (fl 0.9)))) g = 1)
  ∧ (clearlyLeq (bg * 0.9) (inject_Z g) →
     binarize true (jfl (jmul (Fin (fl bg)) (Fin (fl 0.9)))) g = 0).
Proof.
  unfold binarize. cbn [jfl jmul jlt cmul cltb Q_carrier]. split; intros H.
  - apply product_lt in H. by rewrite (proj2 (Qltb_lt _ _)).
  - apply product_ge in H. by rewrite (proj2 (Qltb_ge _ _)).
Qed.

Lemma binarize_light (bg : Q) (g : Z) :
  (clearlyLess (bg * 1.1) (inject_Z g) →
   binarize false (jfl (jmul (Fin (fl bg)) (Fin (fl 1.1)))) g = 1)
  ∧ (clearlyLeq (inject_Z g) (bg * 1.1) →
     binarize false (jfl (jmul (Fin (fl bg)) (Fin (fl 1.1)))) g = 0).
Proof.
  unfold binarize, jgt. cbn [jfl jmul jlt cmul cltb Q_carrier]. split; intros H.
  - apply product_gt in H. by rewrite (proj2 (Qltb_lt _ _)).
  - apply product_le in H. by rewrite (proj2 (Qltb_ge _ _)).
Qed.

(** C5, as the code has it: the thresholds are multiples of the border
    level (0.9 or 1.1 times), not mirror images of each other, so the
    inverted buffer gives the same contours, the same number of shapes and
    the same bounding boxes when the polarity test and the test of every
    gray value come out the same way for the picture and, mirrored, for
    its inversion, each with room to spare, so that the rounding of the
    levels and of the threshold cannot turn any of them.  [bg] and [avg]
    are the exact border mean and overall mean of the picture; those of
    the inversion are [255 - bg] and [255 - avg]. *)
Theorem polarity_symmetry (w h : Z) (gray : list Z) (bg avg : Q) :
  borderMean w h gray = Fin bg → overallMean gray = Fin avg →
  (clearlyLess avg bg ∧ clearlyLess (255 - bg) (255 - avg)
   ∨ clearlyLess bg avg ∧ clearlyLess (255 - avg) (255 - bg)
   ∨ (avg == bg)%Q) →
  ((avg < bg)%Q → ∀ g, g ∈ gray →
     clearlyLess (inject_Z g) (bg * 0.9)
     ∧ clearlyLess ((255 - bg) * 1.1) (inject_Z (255 - g))
     ∨ clearlyLeq (bg * 0.9) (inject_Z g)
       ∧ clearlyLeq (inject_Z (255 - g)) ((255 - bg) * 1.1)) →
  ((bg < avg)%Q → ∀ g, g ∈ gray →
     clearlyLess (bg * 1.1) (inject_Z g)
     ∧ clearlyLess (inject_Z (255 - g)) ((255 - bg) * 0.9)
     ∨ clearlyLeq (inject_Z g) (bg * 1.1)
       ∧ clearlyLeq ((255 - bg) * 0.9) (inject_Z (255 - g))) →
  ((avg == bg)%Q → ∀ g, g ∈ gray →
     clearlyLess (bg * 1.1) (inject_Z g)
     ∧ clearlyLess ((255 - bg) * 1.1) (inject_Z (255 - g))
     ∨ clearlyLeq (inject_Z g) (bg * 1.1)
       ∧ clearlyLeq (inject_Z (255 - g)) ((255 - bg) * 1.1)) →
  contoursOf w h (invert gray) = contoursOf w h gray
  ∧ length (detectGray w h (invert gray)) = length (detectGray w h gray)
  ∧ map boundingBox (detectGray w h (invert gray))
    = map boundingBox (detectGray w h gray).
Proof.
  intros Hbg Havg Hpol Hdark Hlight Heq.
  assert (binaryMask w h (invert gray) = binaryMask w h gray) as Hmask.
  { destruct (borderMean_invert w h gray bg Hbg) as (bg' & Hbg' & Ebg).
    destruct (overallMean_invert gray avg Havg) as (avg' & Havg' & Eavg).
    unfold binaryMask, threshold, darkShapes.
    rewrite !bgLevel_borderMean, !avgLevel_overallMean.
    rewrite Hbg, Havg, Hbg', Havg'. unfold invert. rewrite map_map.
    apply map_ext_in. intros g Hg%list_elem_of_In.
    cbn [jfl jlt cltb Q_carrier].
    assert (∀ c x, clearlyLess ((255 - bg) * c) x → clearlyLess (bg' * c) x)
      as Hl1.
    { intros c x. apply clearlyLess_proper; [by rewrite Ebg|reflexivity]. }
    assert (∀ c x, clearlyLess x ((255 - bg) * c) → clearlyLess x (bg' * c))
      as Hl2.
    { intros c x. apply clearlyLess_proper; [reflexivity|by rewrite Ebg]. }
    assert (∀ c x, clearlyLeq ((255 - bg) * c) x → clearlyLeq (bg' * c) x)
      as Hq1.
    { intros c x. apply clearlyLeq_proper; [by rewrite Ebg|reflexivity]. }
    assert (∀ c x, clearlyLeq x ((255 - bg) * c) → clearlyLeq x (bg' * c))
      as Hq2.
    { intros c x. apply clearlyLeq_proper; [reflexivity|by rewrite Ebg]. }
    destruct Hpol as [[P1 P2]|[[P1 P2]|P]].
    - pose proof (clearlyLess_lt _ _ P1) as Hlt.
      rewrite (proj2 (Qltb_lt (fl avg) (fl bg))) by by apply fl_lt.
      rewrite (proj2 (Qltb_ge (fl avg') (fl bg'))).
      2:{ apply Qlt_le_weak, fl_lt.
          apply (clearlyLess_proper (255 - bg) bg' (255 - avg) avg');
            [by rewrite Ebg|by rewrite Eavg|done]. }
      destruct (Hdark Hlt g Hg) as [[H1 H2]|[H1 H2]].
      + rewrite (proj1 (binarize_dark bg g) H1).
        by rewrite (proj1 (binarize_light bg' (255 - g)) (Hl1 _ _ H2)).
      + rewrite (proj2 (binarize_dark bg g) H1).
        by rewrite (proj2 (binarize_light bg' (255 - g)) (Hq2 _ _ H2)).
    - pose proof (clearlyLess_lt _ _ P1) as Hlt.
      rewrite (proj2 (Qltb_ge (fl avg) (fl bg))) by by apply Qlt_le_weak, fl_lt.
      rewrite (proj2 (Qltb_lt (fl avg') (fl bg'))).
      2:{ apply fl_lt.
          apply (clearlyLess_proper (255 - avg) avg' (255 - bg) bg');
            [by rewrite Eavg|by rewrite Ebg|done]. }
      destruct (Hlight Hlt g Hg) as [[H1 H2]|[H1 H2]].
      + rewrite (proj1 (binarize_light bg g) H1).
        by rewrite (proj1 (binarize_dark bg' (255 - g)) (Hl2 _ _ H2)).
      + rewrite (proj2 (binarize_light bg g) H1).
        by rewrite (proj2 (binarize_dark bg' (255 - g)) (Hq1 _ _ H2)).
    - rewrite (proj2 (Qltb_ge (fl avg) (fl bg))).
      2:{ rewrite (fl_proper avg bg P). apply Qle_refl. }
      rewrite (proj2 (Qltb_ge (fl avg') (fl bg'))).
      2:{ rewrite (fl_proper avg' bg'); [apply Qle_refl|]. rewrite Eavg, Ebg, P.
          reflexivity. }
      destruct (Heq P g Hg) as [[H1 H2]|[H1 H2]].
      + rewrite (proj1 (binarize_light bg g) H1).
        by rewrite (proj1 (binarize_light bg' (255 - g)) (Hl1 _ _ H2)).
      + rewrite (proj2 (binarize_light bg g) H1).
        by rewrite (proj2 (binarize_light bg' (255 - g)) (Hq2 _ _ H2)). }
  unfold detectGray, contoursOf. rewrite Hmask. done.
Qed.

Lemma polarity_symmetry_witness :
  let gray := grayscale 7 7 (data blackSquare) in
  contoursOf 7 7 (invert gray) = contoursOf 7 7 gray
  ∧ length (detectGray 7 7 (invert gray)) = length (detectGray 7 7 gray)
  ∧ map boundingBox (detectGray 7 7 (invert gray))
    = map boundingBox (detectGray 7 7 gray).
Proof.
  intros gray.
  assert (Forall (λ g, g = 0 ∨ g = 255) gray) as Hg.
  { apply (bool_decide_unpack _). vm_compute. reflexivity. }
  rewrite Forall_forall in Hg.
  apply (polarity_symmetry 7 7 gray (7140 # 28) (6120 # 49)).
  - vm_compute. reflexivity.
  - vm_compute. reflexivity.
  - left. split; vm_compute; reflexivity.
  - intros _ g [-> | ->]%Hg; [left|right]; split; vm_compute;
      first [reflexivity|discriminate].
  - intros H. unfold Qlt in H. simpl in H. lia.
  - intros H. unfold Qeq in H. simpl in H. lia.
Defined.

(** C5 fails as stated: a square of gray 240 on a white ground is below
    neither cut-off, so nothing is detected; its inversion, a square of gray
    15 on black, is one shape. *)
Lemma inversion_changes_shape_count :
  let gray := grayscale 7 7 (data faintSquare) in
  grayscale 7 7 (data (grayImage 7 7 (squareAt 0 15))) = invert gray
  ∧ length (detectGray 7 7 gray) = 0%nat
  ∧ length (detectGray 7 7 (invert gray)) = 1%nat.
Proof.
  intros gray. unfold detectGray. rewrite !length_map.
  split_and!; vm_compute; reflexivity.
Qed.

(** ** Circularity *)

Lemma csgn_R_pos (a : R) : (0 < a)%R → csgn a = Gt.
Proof. intros Ha. unfold csgn. simpl. by rewrite Rltb_true. Qed.

Lemma csgn_R_zero : csgn 0%R = Eq.
Proof. unfold csgn. simpl. rewrite Rltb_false; [done|]. apply Rlt_irrefl. Qed.

Lemma jdiv_R_pos (u v : R) : (0 < v)%R → jdiv (Fin u) (Fin v) = Fin (u / v)%R.
Proof. intros Hv. unfold jdiv. by rewrite csgn_R_pos. Qed.

Lemma sumZ_IZR (f : Point → Z) (l : list Point) (a : Z) :
  IZR (foldl (λ a p, a + f p) a l) = (IZR a + sumR (map (λ p, IZR (f p)) l))%R.
Proof.
  revert a. induction l as [|p l IH]; intros a; simpl; [lra|].
  rewrite IH, plus_IZR. lra.
Qed.

Lemma computeCenter_centroid (contour : list Point) :
  contour ≠ [] →
  computeCenter contour = (Fin (centroid contour).1, Fin (centroid contour).2).
Proof.
  intros Hne. unfold computeCenter, centroid. cbn [fst snd].
  assert (0 < INR (length contour))%R as Hn.
  { apply lt_0_INR. destruct contour; [done|simpl; lia]. }
  rewrite !jdiv_R_pos by done. rewrite !sumZ_IZR. simpl.
  by rewrite !Rplus_0_l.
Qed.

Lemma radii_radius (contour : list Point) :
  contour ≠ [] →
  radii contour = map (λ p, Fin (radius (centroid contour) p)) contour.
Proof.
  intros Hne. unfold radii. rewrite computeCenter_centroid by done. done.
Qed.

Lemma sum_Fin (rs : list R) (a : R) :
  foldl jadd (Fin a) (map Fin rs) = Fin (a + sumR rs)%R.
Proof.
  revert a. induction rs as [|r rs IH]; intros a; simpl.
  - by rewrite Rplus_0_r.
  - rewrite IH. by rewrite Rplus_assoc.
Qed.

Lemma sumsq_Fin (m : R) (rs : list R) (a : R) :
  foldl (λ a b, jadd a (jmul (jsub b (Fin m)) (jsub b (Fin m))))
        (Fin a) (map Fin rs)
  = Fin (a + sumR (map (λ r, (r - m) * (r - m))%R rs))%R.
Proof.
  revert a. induction rs as [|r rs IH]; intros a; simpl.
  - by rewrite Rplus_0_r.
  - rewrite IH. by rewrite Rplus_assoc.
Qed.

Lemma sumR_nonneg (l : list R) : (∀ r, r ∈ l → (0 <= r)%R) → (0 <= sumR l)%R.
Proof.
  induction l as [|r l IH]; intros Hl; simpl; [lra|].
  assert (0 <= r)%R by (apply Hl; by left).
  assert (0 <= sumR l)%R by (apply IH; intros r' Hr'; apply Hl; by right). lra.
Qed.

Lemma sumR_ge (l : list R) (r : R) :
  (∀ r, r ∈ l → (0 <= r)%R) → r ∈ l → (r <= sumR l)%R.
Proof.
  induction l as [|r' l IH]; intros Hl Hr; [by apply elem_of_nil in Hr|]. simpl.
  assert (0 <= r')%R by (apply Hl; by left).
  assert (0 <= sumR l)%R by (apply sumR_nonneg; intros r'' Hr''; apply Hl; by right).
  apply elem_of_cons in Hr as [->|Hr]; [lra|].
  assert (r <= sumR l)%R by (apply IH; [intros r'' Hr''; apply Hl; by right|done]).
  lra.
Qed.

Lemma radius_nonneg (c : R * R) (p : Point) : (0 <= radius c p)%R.
Proof. apply sqrt_pos. Qed.

Lemma radius_zero (c : R * R) (p : Point) :
  radius c p = 0%R → IZR (p_x p) = c.1 ∧ IZR (p_y p) = c.2.
Proof.
  unfold radius. intros E.
  set (u := (IZR (p_x p) - c.1)%R) in *. set (v := (IZR (p_y p) - c.2)%R) in *.
  assert (0 <= u * u + v * v)%R as H0 by nra.
  apply (sqrt_eq_0 _ H0) in E.
  assert (u = 0 ∧ v = 0)%R as [Hu Hv] by (split; nra).
  unfold u, v in *. split; lra.
Qed.

(** With two distinct pixels some radius is positive. *)
Lemma positive_radius (contour : list Point) (p q : Point) :
  p ∈ contour → q ∈ contour → p ≠ q →
  ∃ s, s ∈ contour ∧ (0 < radius (centroid contour) s)%R.
Proof.
  intros Hp Hq Hne. set (c := centroid contour).
  destruct (Req_dec_T (radius c p) 0) as [Ep|Np].
  - destruct (Req_dec_T (radius c q) 0) as [Eq|Nq].
    + exfalso. apply Hne.
      apply radius_zero in Ep as [Ex Ey]. apply radius_zero in Eq as [Ex' Ey'].
      rewrite <- Ex' in Ex. rewrite <- Ey' in Ey.
      apply eq_IZR in Ex, Ey. destruct p, q; simpl in *; congruence.
    + exists q. split; [done|]. pose proof (radius_nonneg c q). lra.
  - exists p. split; [done|]. pose proof (radius_nonneg c p). lra.
Qed.

Section Circularity.
Variable contour : list Point.
Hypothesis Hne : contour ≠ [].

Local Abbreviation rs := (map (radius (centroid contour)) contour).

Lemma radii_Fin : radii contour = map Fin rs.
Proof. rewrite radii_radius by done. by rewrite map_map. Qed.

Lemma count_pos : (0 < INR (length contour))%R.
Proof. apply lt_0_INR. destruct contour; [done|simpl; lia]. Qed.

Lemma meanRadius_mean : meanRadius contour = Fin (mean rs).
Proof.
  unfold meanRadius. cbv zeta. rewrite radii_Fin, sum_Fin, !length_map.
  rewrite jdiv_R_pos by apply count_pos.
  unfold mean. by rewrite Rplus_0_l, length_map.
Qed.

Lemma variance_Fin :
  variance contour
  = Fin (sumR (map (λ r, (r - mean rs) * (r - mean rs))%R rs)
         / INR (length rs))%R.
Proof.
  unfold variance. cbv zeta.
  rewrite meanRadius_mean, radii_Fin, sumsq_Fin, !length_map.
  rewrite jdiv_R_pos by apply count_pos. by rewrite Rplus_0_l.
Qed.

Lemma variance_nonneg :
  (0 <= sumR (map (λ r, (r - mean rs) * (r - mean rs))%R rs)
        / INR (length rs))%R.
Proof.
  apply Rmult_le_pos.
  - apply sumR_nonneg. intros r (r' & -> & _)%list_elem_of_fmap.
    apply (Rle_0_sqr (r' - mean rs)).
  - left. apply Rinv_0_lt_compat. rewrite length_map. apply count_pos.
Qed.

Lemma cv_positive_mean :
  (0 < mean rs)%R → cv contour = Fin (coefficientOfVariation contour).
Proof.
  intros Hm. unfold cv. rewrite variance_Fin, meanRadius_mean.
  unfold jsqrt. rewrite Rltb_false by (apply Rle_not_lt, variance_nonneg).
  by rewrite jdiv_R_pos.
Qed.

Lemma mean_positive (p q : Point) :
  p ∈ contour → q ∈ contour → p ≠ q → (0 < mean rs)%R.
Proof.
  intros Hp Hq Hpq.
  destruct (positive_radius contour p q Hp Hq Hpq) as (s & Hs & Hr).
  unfold mean. apply Rmult_lt_0_compat.
  - eapply Rlt_le_trans; [exact Hr|]. apply sumR_ge.
    + intros r (r' & -> & _)%list_elem_of_fmap. apply radius_nonneg.
    + by apply list_elem_of_fmap_2.
  - apply Rinv_0_lt_compat. rewrite length_map. apply count_pos.
Qed.
End Circularity.


(** C9: on a blob with two distinct pixels the radii list is not empty,
    the mean radius is positive, and mean, variance and [cv] are finite
    numbers: no division of the circularity test is by zero. *)
Theorem cv_well_defined (contour : list Point) :
  (∃ p q, p ∈ contour ∧ q ∈ contour ∧ p ≠ q) →
  radii contour ≠ []
  ∧ ∃ m v, meanRadius contour = Fin m ∧ (0 < m)%R
           ∧ variance contour = Fin v ∧ (0 <= v)%R
           ∧ cv contour = Fin (sqrt v / m)%R.
Proof.
  intros (p & q & Hp & Hq & Hpq).
  assert (contour ≠ []) as Hne by (intros ->; by apply elem_of_nil in Hp).
  split.
  - unfold radii. destruct contour; [done|]. done.
  - eexists _, _. split_and!.
    + by apply meanRadius_mean.
    + by apply (mean_positive contour Hne p q).
    + by apply variance_Fin.
    + by apply variance_nonneg.
    + rewrite cv_positive_mean; [done|done|].
      by apply (mean_positive contour Hne p q).
Qed.

Lemma cv_well_defined_witness :
  radii [mkPoint 0 0; mkPoint 1 0] ≠ []
  ∧ ∃ m v, meanRadius [mkPoint 0 0; mkPoint 1 0] = Fin m ∧ (0 < m)%R
           ∧ variance [mkPoint 0 0; mkPoint 1 0] = Fin v ∧ (0 <= v)%R
           ∧ cv [mkPoint 0 0; mkPoint 1 0] = Fin (sqrt v / m)%R.
Proof.
  apply (cv_well_defined [mkPoint 0 0; mkPoint 1 0]).
  exists (mkPoint 0 0), (mkPoint 1 0).
  split; [by left|]. split; [right; by left|]. intros [=].
Defined.

(** The decision table of [classifyShape], for any input. *)
Lemma classifyShape_cases (approx contour : list Point) (w h : Z) :
  classifyShape approx contour w h
  = if decide (length approx = 3%nat) then triangle
    else if decide (length approx = 4%nat) then rectangle
    else if decide (length approx = 5%nat) then pentagon
    else if jlt (cv contour) (Fin 0.15%R) then circle
    else star.
Proof.
  unfold classifyShape.
  destruct (Nat.eqb_spec (length approx) 3); [by rewrite decide_True|].
  rewrite decide_False by done.
  destruct (Nat.eqb_spec (length approx) 4); [by rewrite decide_True|].
  rewrite decide_False by done.
  destruct (Nat.eqb_spec (length approx) 5); [by rewrite decide_True|].
  by rewrite decide_False.
Qed.



(** ** More on the grayscale reducer *)

Lemma grayscale_length (w h : Z) (data : list Z) :
  length (grayscale w h data) = Z.to_nat (w * h).
Proof. unfold grayscale. by rewrite length_map, length_seqZ. Qed.

Lemma grayscale_range (w h : Z) (data : list Z) :
  Forall (λ g, 0 ≤ g ≤ 255) (grayscale w h data).
Proof.
  unfold grayscale. apply Forall_forall.
  intros g (i & -> & _)%list_elem_of_fmap. apply grayAt_range.
Qed.

(** X1: the grayscale buffer has one byte per pixel, each in 0..255,
    whatever the pixel buffer holds. *)
Theorem grayscale_bytes (w h : Z) (data : list Z) :
  length (grayscale w h data) = Z.to_nat (w * h)
  ∧ Forall (λ g, 0 ≤ g ≤ 255) (grayscale w h data).
Proof. split; [apply grayscale_length|apply grayscale_range]. Qed.

Lemma Math_round_between (q : Q) (lo hi : Z) :
  (inject_Z lo - (1 # 4) <= q)%Q → (q <= inject_Z hi + (1 # 4))%Q →
  lo ≤ Math_round q ≤ hi.
Proof.
  intros Hlo Hhi. unfold Math_round.
  pose proof (Qfloor_le (q + (1 # 2))) as H1.
  pose proof (Qlt_floor (q + (1 # 2))) as H2.
  set (F := Qfloor (q + (1 # 2))) in *.
  assert (inject_Z lo < inject_Z (F + 1))%Q as H3 by lra.
  assert (inject_Z F < inject_Z (hi + 1))%Q as H4.
  { rewrite inject_Z_plus. change (inject_Z 1) with 1%Q. lra. }
  rewrite <- Zlt_Qlt in H3, H4. lia.
Qed.

Lemma fl_bounds_pos (q : Q) :
  (0 <= q)%Q →
  (q * (1 - unit_roundoff) <= fl q <= q * (1 + unit_roundoff))%Q.
Proof.
  intros Hq. pose proof (fl_bounds q) as H. rewrite (Qabs_pos q Hq) in H. lra.
Qed.

(** A rounded weight times a channel value. *)
Lemma weighted_channel (c : Q) (v : Z) :
  (0 <= c)%Q → 0 ≤ v →
  (c * (1 - unit_roundoff) * (1 - unit_roundoff) * inject_Z v
   <= fl (fl c * inject_Z v)
   <= c * (1 + unit_roundoff) * (1 + unit_roundoff) * inject_Z v)%Q.
Proof.
  intros Hc Hv. pose proof (fl_bounds_pos c Hc) as [C1 C2].
  assert (0 <= inject_Z v)%Q as HV by (rewrite <- (Zle_Qle 0); done).
  assert (0 <= fl c)%Q as Hfc.
  { rewrite <- (fl_zero 0) by reflexivity. by apply fl_mono. }
  assert (0 <= fl c * inject_Z v)%Q as Hp by nra.
  pose proof (fl_bounds_pos _ Hp) as [P1 P2].
  assert (0 < unit_roundoff < 1)%Q as Hu by (split; reflexivity).
  set (u := unit_roundoff) in *. set (V := inject_Z v) in *.
  set (x := fl c) in *. set (y := fl (x * V)) in *.
  assert (c * (1 - u) * V <= x * V)%Q by nra.
  assert (x * V <= c * (1 + u) * V)%Q by nra.
  split; nra.
Qed.

(** The rounded luminance of three bytes is within a hair of the range
    that they span. *)
Lemma luminance_between (r g b lo hi : Z) :
  0 ≤ lo → hi ≤ 255 → lo ≤ r ≤ hi → lo ≤ g ≤ hi → lo ≤ b ≤ hi →
  (inject_Z lo - (1 # 4) <= luminance r g b <= inject_Z hi + (1 # 4))%Q.
Proof.
  intros Hlo Hhi Hr Hg Hb. unfold luminance.
  pose proof (weighted_channel 0.299 r ltac:(discriminate) ltac:(lia)) as [R1 R2].
  pose proof (weighted_channel 0.587 g ltac:(discriminate) ltac:(lia)) as [G1 G2].
  pose proof (weighted_channel 0.114 b ltac:(discriminate) ltac:(lia)) as [B1 B2].
  assert (inject_Z 0 <= inject_Z lo ∧ inject_Z hi <= inject_Z 255
          ∧ inject_Z lo <= inject_Z r <= inject_Z hi
          ∧ inject_Z lo <= inject_Z g <= inject_Z hi
          ∧ inject_Z lo <= inject_Z b <= inject_Z hi)%Q
    as (L0 & H255 & [Lr Ur] & [Lg Ug] & [Lb Ub])
    by (rewrite <- !Zle_Qle; lia).
  change (inject_Z 0) with 0%Q in L0. change (inject_Z 255) with 255%Q in H255.
  set (R := inject_Z r) in *. set (G := inject_Z g) in *.
  set (B := inject_Z b) in *. set (L := inject_Z lo) in *.
  set (H := inject_Z hi) in *.
  set (pr := fl (fl 0.299 * R)) in *. set (pg := fl (fl 0.587 * G)) in *.
  set (pb := fl (fl 0.114 * B)) in *.
  unfold unit_roundoff in R1, R2, G1, G2, B1, B2.
  assert (0 <= pr + pg)%Q as H12 by lra.
  pose proof (fl_bounds_pos _ H12) as [S1 S2].
  set (s12 := fl (pr + pg)) in *. unfold unit_roundoff in S1, S2.
  assert (0 <= s12 + pb)%Q as H3 by lra.
  pose proof (fl_bounds_pos _ H3) as [T1 T2].
  set (t := fl (s12 + pb)) in *. unfold unit_roundoff in T1, T2.
  split; lra.
Qed.

(** X2: the gray value of a pixel with channels in 0..255 lies between its
    smallest and its largest channel; a gray pixel keeps its value. *)
Theorem grayAt_between (data : list Z) (i r g b : Z) :
  aget data (i * 4) = Some r → aget data (i * 4 + 1) = Some g →
  aget data (i * 4 + 2) = Some b →
  0 ≤ r ≤ 255 → 0 ≤ g ≤ 255 → 0 ≤ b ≤ 255 →
  Z.min r (Z.min g b) ≤ grayAt data i ≤ Z.max r (Z.max g b).
Proof.
  intros E1 E2 E3 Hr Hg Hb. unfold grayAt. rewrite E1, E2, E3.
  set (lo := Z.min r (Z.min g b)). set (hi := Z.max r (Z.max g b)).
  destruct (luminance_between r g b lo hi) as [L1 L2]; try lia.
  destruct (Math_round_between (luminance r g b) lo hi L1 L2) as [M1 M2].
  unfold clamp8. lia.
Qed.

Lemma grayAt_between_witness :
  Z.min 10 (Z.min 20 30) ≤ grayAt [10; 20; 30; 255] 0 ≤ Z.max 10 (Z.max 20 30).
Proof.
  apply (grayAt_between [10; 20; 30; 255] 0 10 20 30);
    first [reflexivity | lia].
Defined.

(** ** More on levels and mask *)

Lemma foldl_elem_inv {S X} (f : S → X → S) (I : S → Prop) (l : list X) (s : S) :
  (∀ x a, x ∈ l → I a → I (f a x)) → I s → I (foldl f s l).
Proof.
  revert s. induction l as [|x l IH]; intros s Hstep Hs; [done|]. simpl.
  apply IH.
  - intros y a Hy. apply Hstep. by right.
  - apply Hstep; [by left|done].
Qed.

Lemma grayscale_wellFormed (w h : Z) (data : list Z) :
  0 < w → 0 < h → wellFormed w h (grayscale w h data).
Proof.
  intros Hw Hh. pose proof (grayscale_length w h data) as Hl.
  pose proof (grayscale_range w h data) as Hb. by split_and!.
Qed.

Lemma wellFormed_aget (w h : Z) (gray : list Z) (i : Z) :
  wellFormed w h gray → 0 ≤ i < w * h →
  ∃ g, aget gray i = Some g ∧ 0 ≤ g ≤ 255.
Proof.
  intros (Hw & Hh & Hl & Hb) Hi. rewrite aget_nonneg by lia.
  destruct (lookup_lt_is_Some_2 gray (Z.to_nat i)) as [g Hg]; [lia|].
  exists g. split; [done|]. rewrite Forall_forall in Hb. apply Hb.
  by eapply list_elem_of_lookup_2.
Qed.

Lemma border_count_fold (w h : Z) (gray : list Z) (l : list Z)
    (f : jsnum Q * Z → Z → jsnum Q * Z) (acc : jsnum Q * Z) :
  (∀ a x, (f a x).2 = a.2 + 2) →
  (foldl f acc l).2 = acc.2 + 2 * Z.of_nat (length l).
Proof.
  intros Hf. revert acc. induction l as [|x l IH]; intros acc; simpl; [lia|].
  rewrite IH, Hf. lia.
Qed.

Lemma border_count (w h : Z) (gray : list Z) :
  0 ≤ w → 0 ≤ h → (border w h gray).2 = 2 * (w + h).
Proof.
  intros Hw Hh. unfold border.
  rewrite (border_count_fold w h gray) by done.
  rewrite (border_count_fold w h gray) by done.
  rewrite !length_seqZ. simpl. lia.
Qed.

Lemma borderBytes_step (acc : jsnum Q * Z) (g1 g2 : Z) :
  borderBytes acc → 0 ≤ g1 ≤ 255 → 0 ≤ g2 ≤ 255 →
  borderBytes (jadd acc.1 (jadd (num (Some g1)) (num (Some g2))), acc.2 + 2).
Proof.
  intros (Hk & s & Es & H0 & H1) Hg1 Hg2. split; [simpl; lia|].
  cbn [fst snd]. rewrite Es. cbn [num jadd cadd Q_carrier].
  eexists. split; [done|]. rewrite inject_Z_plus.
  change (inject_Z 2) with 2%Q.
  assert (0 <= inject_Z g1 ∧ inject_Z g1 <= 255
          ∧ 0 <= inject_Z g2 ∧ inject_Z g2 <= 255)%Q as (? & ? & ? & ?).
  { change 0%Q with (inject_Z 0). change 255%Q with (inject_Z 255).
    rewrite <- !Zle_Qle. lia. }
  split; lra.
Qed.

Lemma border_bytes (w h : Z) (gray : list Z) :
  wellFormed w h gray → borderBytes (border w h gray).
Proof.
  intros Hwf. pose proof Hwf as (Hw & Hh & _). unfold border.
  apply foldl_elem_inv.
  - intros y a Hy%elem_of_seqZ Ha. unfold borderCol.
    destruct (wellFormed_aget w h gray (y * w) Hwf) as (g1 & -> & ?); [nia|].
    destruct (wellFormed_aget w h gray (y * w + (w - 1)) Hwf) as (g2 & -> & ?);
      [nia|].
    by apply borderBytes_step.
  - apply foldl_elem_inv.
    + intros x a Hx%elem_of_seqZ Ha. unfold borderRow.
      destruct (wellFormed_aget w h gray x Hwf) as (g1 & -> & ?); [nia|].
      destruct (wellFormed_aget w h gray ((h - 1) * w + x) Hwf) as (g2 & -> & ?);
        [apply (idx_range w h x (h - 1)); lia|].
      by apply borderBytes_step.
    + split; [done|]. exists 0%Q. split; [done|]. cbn [snd].
      change (inject_Z 0) with 0%Q. split; lra.
Qed.

Lemma sum_bytes (gray : list Z) (a : Z) :
  Forall (λ g, 0 ≤ g ≤ 255) gray →
  a ≤ foldl Z.add a gray ≤ a + 255 * Z.of_nat (length gray).
Proof.
  revert a. induction gray as [|g gray IH]; intros a Hb; simpl; [lia|].
  apply Forall_cons in Hb as [Hg Hb]. specialize (IH (a + g) Hb). lia.
Qed.

Lemma Q_ratio_bounds (s k : Q) :
  (0 < k)%Q → (0 <= s)%Q → (s <= 255 * k)%Q → (0 <= s / k <= 255)%Q.
Proof.
  intros Hk H0 H1. split.
  - apply Qle_shift_div_l; [done|]. lra.
  - apply Qle_shift_div_r; [done|]. lra.
Qed.

Lemma fl_byte (q : Q) : (0 <= q <= 255)%Q → (0 <= fl q <= 255)%Q.
Proof.
  intros [H0 H1]. split.
  - rewrite <- (fl_zero 0) by reflexivity. by apply fl_mono.
  - assert (fl (inject_Z 255) == 255)%Q as <- by (by apply fl_Z).
    by apply fl_mono.
Qed.

Lemma bgLevel_bytes (w h : Z) (gray : list Z) :
  wellFormed w h gray →
  ∃ b, bgLevel w h gray = Fin b ∧ (0 <= b <= 255)%Q.
Proof.
  intros Hwf. pose proof Hwf as (Hw & Hh & _).
  destruct (border_bytes w h gray Hwf) as (Hk & s & Es & H0 & H1).
  unfold bgLevel. rewrite Es.
  pose proof (border_count w h gray) as Hc. rewrite Hc in * by lia.
  assert (0 < inject_Z (2 * (w + h)))%Q as Hpos.
  { change 0%Q with (inject_Z 0). rewrite <- Zlt_Qlt. lia. }
  rewrite jdiv_Fin_2 by lra. eexists. split; [done|].
  by apply fl_byte, Q_ratio_bounds.
Qed.

Lemma avgLevel_bytes (w h : Z) (gray : list Z) :
  wellFormed w h gray →
  ∃ a, avgLevel gray = Fin a ∧ (0 <= a <= 255)%Q.
Proof.
  intros (Hw & Hh & Hl & Hb). unfold avgLevel.
  assert (0 < inject_Z (Z.of_nat (length gray)))%Q as Hpos.
  { change 0%Q with (inject_Z 0). rewrite <- Zlt_Qlt. nia. }
  rewrite jdiv_Fin_2 by lra. eexists. split; [done|].
  pose proof (sum_bytes gray 0 Hb) as [S0 S1].
  apply fl_byte, Q_ratio_bounds; [done| |].
  - change 0%Q with (inject_Z 0). rewrite <- Zle_Qle. lia.
  - change 255%Q with (inject_Z 255). rewrite <- inject_Z_mult, <- Zle_Qle. lia.
Qed.

(** X3: on the buffer of a picture with at least one pixel the border loop
    takes [2 * (width + height)] samples (each corner twice), and the
    border level, the overall level and the threshold are finite, the two
    levels within 0..255. *)
Theorem levels_finite (w h : Z) (gray : list Z) :
  wellFormed w h gray →
  (border w h gray).2 = 2 * (w + h)
  ∧ ∃ b a t, bgLevel w h gray = Fin b ∧ avgLevel gray = Fin a
             ∧ threshold w h gray = Fin t
             ∧ (0 <= b <= 255)%Q ∧ (0 <= a <= 255)%Q.
Proof.
  intros Hwf. pose proof Hwf as (Hw & Hh & _).
  destruct (bgLevel_bytes w h gray Hwf) as (b & Eb & Hb).
  destruct (avgLevel_bytes w h gray Hwf) as (a & Ea & Ha).
  split; [apply border_count; lia|].
  exists b, a. unfold threshold. rewrite Eb.
  destruct (darkShapes w h gray);
    (eexists; split; [done|]; split; [done|]; split; [reflexivity|];
     split; done).
Qed.

Lemma levels_finite_witness :
  let gray := grayscale 7 7 (data blackSquare) in
  (border 7 7 gray).2 = 2 * (7 + 7)
  ∧ ∃ b a t, bgLevel 7 7 gray = Fin b ∧ avgLevel gray = Fin a
             ∧ threshold 7 7 gray = Fin t
             ∧ (0 <= b <= 255)%Q ∧ (0 <= a <= 255)%Q.
Proof.
  intros gray. apply (levels_finite 7 7 gray).
  unfold wellFormed. split; [lia|]. split; [lia|]. split; [reflexivity|].
  apply (bool_decide_unpack _). vm_compute. reflexivity.
Defined.

Lemma aget_binaryMask (w h : Z) (gray : list Z) (i : Z) :
  aget (binaryMask w h gray) i
  = binarize (darkShapes w h gray) (threshold w h gray) <$> aget gray i.
Proof.
  unfold aget, binaryMask. destruct (i <? 0); [done|]. apply list_lookup_fmap.
Qed.

(** X4: a pixel whose gray value is within a tenth of the border mean,
    with room to spare on both sides, is background whatever the polarity:
    only pixels below [0.9 * bg] or above [1.1 * bg] can be foreground, and
    a pixel at the border mean never is. *)
Theorem foreground_contrast (w h : Z) (gray : list Z) (i g : Z) (bg : Q) :
  borderMean w h gray = Fin bg → aget gray i = Some g →
  clearlyLeq (bg * 0.9) (inject_Z g) → clearlyLeq (inject_Z g) (bg * 1.1) →
  aget (binaryMask w h gray) i = Some 0.
Proof.
  intros Hbg Hg Hlo Hhi. rewrite aget_binaryMask, Hg. cbn [fmap option_fmap option_map].
  f_equal. unfold threshold. rewrite bgLevel_borderMean, Hbg. cbn [jfl].
  destruct (darkShapes w h gray).
  - by apply binarize_dark.
  - by apply binarize_light.
Qed.

Lemma foreground_contrast_witness :
  let gray := grayscale 7 7 (data blackSquare) in
  aget (binaryMask 7 7 gray) 0 = Some 0.
Proof.
  intros gray. apply (foreground_contrast 7 7 gray 0 255 (7140 # 28)).
  - vm_compute. reflexivity.
  - reflexivity.
  - vm_compute. discriminate.
  - vm_compute. discriminate.
Defined.

(** ** More on blobs and boxes *)

Lemma foldl_min_in (t : list Z) (v : Z) : foldl Z.min v t ∈ v :: t.
Proof.
  revert v. induction t as [|u t IH]; intros v; simpl; [by left|].
  specialize (IH (Z.min v u)). apply elem_of_cons in IH as [E|IH].
  - rewrite E. destruct (Z.min_spec v u) as [[_ ->]|[_ ->]];
      [by left|right; by left].
  - right. by right.
Qed.

Lemma foldl_max_in (t : list Z) (v : Z) : foldl Z.max v t ∈ v :: t.
Proof.
  revert v. induction t as [|u t IH]; intros v; simpl; [by left|].
  specialize (IH (Z.max v u)). apply elem_of_cons in IH as [E|IH].
  - rewrite E. destruct (Z.max_spec v u) as [[_ ->]|[_ ->]];
      [right; by left|by left].
  - right. by right.
Qed.

Lemma Math_min_in (xs : list Z) : xs ≠ [] → Math_min xs ∈ xs.
Proof. destruct xs as [|v t]; [done|]. intros _. apply foldl_min_in. Qed.

Lemma Math_max_in (xs : list Z) : xs ≠ [] → Math_max xs ∈ xs.
Proof. destruct xs as [|v t]; [done|]. intros _. apply foldl_max_in. Qed.

(** The four sides of the box of a non-empty blob are reached. *)
Lemma boxOf_attained (blob : list Point) :
  blob ≠ [] →
  ∃ pl pr pt pb,
    (pl ∈ blob ∧ pr ∈ blob ∧ pt ∈ blob ∧ pb ∈ blob)
    ∧ p_x pl = bb_x (boxOf blob)
    ∧ p_x pr = bb_x (boxOf blob) + bb_width (boxOf blob)
    ∧ p_y pt = bb_y (boxOf blob)
    ∧ p_y pb = bb_y (boxOf blob) + bb_height (boxOf blob).
Proof.
  intros Hne. unfold boxOf. cbn [bb_x bb_y bb_width bb_height].
  assert (map p_x blob ≠ []) as Hx by (by destruct blob).
  assert (map p_y blob ≠ []) as Hy by (by destruct blob).
  destruct (proj1 (list_elem_of_fmap _ _ _) (Math_min_in _ Hx)) as (pl & El & Hl).
  destruct (proj1 (list_elem_of_fmap _ _ _) (Math_max_in _ Hx)) as (pr & Er & Hr).
  destruct (proj1 (list_elem_of_fmap _ _ _) (Math_min_in _ Hy)) as (pt & Et & Ht).
  destruct (proj1 (list_elem_of_fmap _ _ _) (Math_max_in _ Hy)) as (pb & Eb & Hb).
  exists pl, pr, pt, pb. split; [done|]. split_and!; lia.
Qed.

Lemma contour_foreground (w h : Z) (gray : list Z) (blob : list Point) (p : Point) :
  blob ∈ contoursOf w h gray → p ∈ blob →
  foreground w h (binaryMask w h gray) p.
Proof.
  destruct (contoursOf_components w h gray) as (comps & (_ & Hfg & _) & ->).
  intros [_ Hb]%list_elem_of_filter Hp. apply Hfg, elem_of_concat. eauto.
Qed.

Lemma contour_nonempty (w h : Z) (gray : list Z) (blob : list Point) :
  blob ∈ contoursOf w h gray → blob ≠ [].
Proof.
  intros [Hl _]%findContours_nonempty ->. simpl in Hl. lia.
Qed.

(** X6: every bounding box lies inside the picture, with non-negative
    width, height and area. *)
Theorem boundingBox_inside_image (clock : Q * Q) (img : ImageData)
    (r : DetectionResult) :
  detectShapes clock img = Resolved r →
  Forall (λ s,
            (0 ≤ bb_x (boundingBox s) ∧ 0 ≤ bb_width (boundingBox s)
             ∧ bb_x (boundingBox s) + bb_width (boundingBox s) ≤ width img - 1)
            ∧ (0 ≤ bb_y (boundingBox s) ∧ 0 ≤ bb_height (boundingBox s)
               ∧ bb_y (boundingBox s) + bb_height (boundingBox s)
                 ≤ height img - 1)
            ∧ 0 ≤ area s)
         (shapes r).
Proof.
  intros (_ & -> & _)%detectShapes_resolved.
  apply Forall_forall. intros s (blob & -> & Hblob)%list_elem_of_fmap.
  unfold sourceBlobs in Hblob.
  destruct (boxOf_attained blob (contour_nonempty _ _ _ _ Hblob))
    as (pl & pr & pt & pb & (Hl & Hr & Ht & Hb) & El & Er & Et & Eb).
  pose proof (contour_foreground _ _ _ _ _ Hblob Hl) as [[? ?] _].
  pose proof (contour_foreground _ _ _ _ _ Hblob Hr) as [[? ?] _].
  pose proof (contour_foreground _ _ _ _ _ Hblob Ht) as [[? ?] _].
  pose proof (contour_foreground _ _ _ _ _ Hblob Hb) as [[? ?] _].
  pose proof (boxOf_contains blob pl Hl) as [? ?].
  pose proof (boxOf_contains blob pt Ht) as [? ?].
  rewrite boundingBox_shapeOf.
  assert (area (shapeOf blob)
          = bb_width (boxOf blob) * bb_height (boxOf blob)) as -> by done.
  split_and!; try lia. apply Z.mul_nonneg_nonneg; lia.
Qed.

Lemma boundingBox_inside_image_witness :
  let r := mkResult (map shapeOf (sourceBlobs blackSquare)) (0 - 0)%Q 7 7 in
  Forall (λ s,
            (0 ≤ bb_x (boundingBox s) ∧ 0 ≤ bb_width (boundingBox s)
             ∧ bb_x (boundingBox s) + bb_width (boundingBox s) ≤ 7 - 1)
            ∧ (0 ≤ bb_y (boundingBox s) ∧ 0 ≤ bb_height (boundingBox s)
               ∧ bb_y (boundingBox s) + bb_height (boundingBox s) ≤ 7 - 1)
            ∧ 0 ≤ area s)
         (shapes r).
Proof.
  intros r. apply (boundingBox_inside_image (0, 0)%Q blackSquare r).
  reflexivity.
Defined.

(** X7: the box is the smallest one around the blob: each of its four
    sides holds a pixel of the blob; the centre is the midpoint of the box
    and the area is its width times its height. *)
Theorem boundingBox_tight (clock : Q * Q) (img : ImageData)
    (r : DetectionResult) :
  detectShapes clock img = Resolved r →
  Forall2 (λ s blob,
             (∃ pl pr pt pb,
                (pl ∈ blob ∧ pr ∈ blob ∧ pt ∈ blob ∧ pb ∈ blob)
                ∧ p_x pl = bb_x (boundingBox s)
                ∧ p_x pr = bb_x (boundingBox s) + bb_width (boundingBox s)
                ∧ p_y pt = bb_y (boundingBox s)
                ∧ p_y pb = bb_y (boundingBox s) + bb_height (boundingBox s))
             ∧ area s = bb_width (boundingBox s) * bb_height (boundingBox s)
             ∧ (2 * c_x (center s)
                == inject_Z (2 * bb_x (boundingBox s) + bb_width (boundingBox s)))%Q
             ∧ (2 * c_y (center s)
                == inject_Z (2 * bb_y (boundingBox s) + bb_height (boundingBox s)))%Q)
          (shapes r) (sourceBlobs img).
Proof.
  intros (_ & -> & _)%detectShapes_resolved.
  apply Forall2_map_self. intros blob Hblob. unfold sourceBlobs in Hblob.
  split; [|split; [done|]].
  - rewrite boundingBox_shapeOf.
    by apply boxOf_attained, (contour_nonempty _ _ _ _ Hblob).
  - unfold shapeOf. cbn [center c_x c_y boundingBox bb_x bb_y bb_width bb_height].
    split; (match goal with |- (_ * (inject_Z ?a / 2) == inject_Z ?b)%Q =>
              replace b with a by lia end; field).
Qed.

Lemma boundingBox_tight_witness :
  let r := mkResult (map shapeOf (sourceBlobs blackSquare)) (0 - 0)%Q 7 7 in
  Forall2 (λ s blob,
             (∃ pl pr pt pb,
                (pl ∈ blob ∧ pr ∈ blob ∧ pt ∈ blob ∧ pb ∈ blob)
                ∧ p_x pl = bb_x (boundingBox s)
                ∧ p_x pr = bb_x (boundingBox s) + bb_width (boundingBox s)
                ∧ p_y pt = bb_y (boundingBox s)
                ∧ p_y pb = bb_y (boundingBox s) + bb_height (boundingBox s))
             ∧ area s = bb_width (boundingBox s) * bb_height (boundingBox s)
             ∧ (2 * c_x (center s)
                == inject_Z (2 * bb_x (boundingBox s) + bb_width (boundingBox s)))%Q
             ∧ (2 * c_y (center s)
                == inject_Z (2 * bb_y (boundingBox s) + bb_height (boundingBox s)))%Q)
          (shapes r) (sourceBlobs blackSquare).
Proof.
  intros r. apply (boundingBox_tight (0, 0)%Q blackSquare r). reflexivity.
Defined.

(** ** Counting *)

Lemma grid_capacity (w h : Z) (l : list Point) :
  0 ≤ w * h →
  NoDup l → (∀ p, p ∈ l → 0 ≤ p_x p < w ∧ 0 ≤ p_y p < h) →
  Z.of_nat (length l) ≤ w * h.
Proof.
  intros Hwh Hnd Hin.
  assert (NoDup ((λ p, idx w (p_x p) (p_y p)) <$> l)) as Hnd'.
  { apply NoDup_fmap_2_strong; [|done]. intros p q Hp Hq E.
    by apply (cell_inj w h); [apply Hin|apply Hin|]. }
  assert ((λ p, idx w (p_x p) (p_y p)) <$> l ⊆+ seqZ 0 (w * h)) as Hsub.
  { apply NoDup_submseteq; [done|]. intros i (p & -> & Hp)%list_elem_of_fmap.
    apply elem_of_seqZ. destruct (Hin p Hp).
    destruct (idx_range w h (p_x p) (p_y p)); [done|done|]. cbv beta. lia. }
  apply submseteq_length in Hsub. rewrite length_fmap, length_seqZ in Hsub. lia.
Qed.

Lemma NoDup_concat_filter {A} (Q : list A → Prop) `{∀ l, Decision (Q l)}
    (ls : list (list A)) :
  NoDup (concat ls) → NoDup (concat (filter Q ls)).
Proof.
  induction ls as [|k ls IH]; simpl; [done|].
  intros (Hk & Hdisj & Hrest)%NoDup_app. rewrite filter_cons.
  destruct (decide (Q k)); [|by apply IH]. simpl.
  apply NoDup_app. split_and!; [done| |by apply IH].
  intros x Hx Hx'. apply (Hdisj x Hx).
  apply elem_of_concat in Hx' as (l & [_ Hl]%list_elem_of_filter & Hxl).
  apply elem_of_concat. eauto.
Qed.

Lemma length_concat_ge {A} (n : nat) (ls : list (list A)) :
  (∀ l, l ∈ ls → (n ≤ length l)%nat) →
  (n * length ls ≤ length (concat ls))%nat.
Proof.
  induction ls as [|k ls IH]; intros Hl; simpl; [lia|].
  rewrite length_app.
  assert (n ≤ length k)%nat by (apply Hl; by left).
  assert (n * length ls ≤ length (concat ls))%nat
    by (apply IH; intros l Hl'; apply Hl; by right).
  lia.
Qed.

(** X8: the blobs of two shapes share no pixel, and 21 pixels are needed
    per shape: the number of shapes is at most [width * height / 21]. *)
Theorem shape_count_bound (clock : Q * Q) (img : ImageData)
    (r : DetectionResult) :
  detectShapes clock img = Resolved r →
  NoDup (concat (sourceBlobs img))
  ∧ 21 * Z.of_nat (length (shapes r)) ≤ width img * height img.
Proof.
  intros (Hwh & -> & _)%detectShapes_resolved. rewrite length_map.
  unfold sourceBlobs.
  set (w := width img) in *. set (h := height img) in *.
  set (gray := grayscale w h (data img)).
  assert (NoDup (concat (contoursOf w h gray))) as Hnd.
  { destruct (contoursOf_components w h gray) as (comps & (Hnd & _) & ->).
    by apply NoDup_concat_filter. }
  split; [done|].
  pose proof (grid_capacity w h (concat (contoursOf w h gray)) Hwh Hnd) as Hcap.
  pose proof (length_concat_ge 21 (contoursOf w h gray)) as Hlen.
  assert (Z.of_nat (length (concat (contoursOf w h gray))) ≤ w * h) as H1.
  { apply Hcap. intros p (blob & Hb & Hp)%elem_of_concat.
    by destruct (contour_foreground w h gray blob p Hb Hp) as [? _]. }
  assert (21 * length (contoursOf w h gray)
          ≤ length (concat (contoursOf w h gray)))%nat as H2.
  { apply Hlen. intros blob [Hl _]%findContours_nonempty. lia. }
  lia.
Qed.

Lemma shape_count_bound_witness :
  let r := mkResult (map shapeOf (sourceBlobs blackSquare)) (0 - 0)%Q 7 7 in
  NoDup (concat (sourceBlobs blackSquare))
  ∧ 21 * Z.of_nat (length (shapes r)) ≤ 7 * 7.
Proof.
  intros r. apply (shape_count_bound (0, 0)%Q blackSquare r). reflexivity.
Defined.

(** ** Engine limits *)

Lemma rdpDepth_le (tol : R) (fuel : nat) (points : list Point) :
  (rdpDepth fuel points tol ≤ Nat.max 1 (length points - 1))%nat.
Proof.
  revert points. induction fuel as [|fuel IH]; intros points.
  { simpl. destruct (length points <? 3)%nat; lia. }
  cbn [rdpDepth].
  destruct (Nat.ltb_spec (length points) 3) as [|Hlen]; [lia|].
  destruct points as [|first rest] eqn:Epts; [lia|]. rewrite <- Epts in *.
  destruct (last points) as [lst|] eqn:Hlast; [|lia].
  cbn zeta. set (r := farthest points first lst).
  destruct (Rgtb r.2 tol && negb (r.1 =? -1)) eqn:Hcond; [|lia].
  apply andb_true_iff in Hcond as [_ Hne]. apply negb_true_iff, Z.eqb_neq in Hne.
  destruct (farthest_index points first lst) as [?|Hidx]; [done|]. fold r in Hidx.
  pose proof (IH (take (Z.to_nat (r.1 + 1)) points)) as H1.
  pose proof (IH (drop (Z.to_nat r.1) points)) as H2.
  rewrite length_take in H1. rewrite length_drop in H2. lia.
Qed.

(** A call that resolves under the limits of an engine resolves with the
    same result without them, so everything proved of [detectShapes]
    holds of the results of [detectShapesOn]. *)
Lemma detectShapesOn_resolved (e : Engine) (clock : Q * Q) (img : ImageData)
    (r : DetectionResult) :
  detectShapesOn e clock img = Resolved r → detectShapes clock img = Resolved r.
Proof.
  unfold detectShapesOn, detectShapes.
  destruct (Z.ltb_spec (width img * height img) 0); [done|]. simpl.
  destruct (arrayLimit e <? _); [done|]. by destruct (forallb _ _).
Qed.

Lemma detectShapesOn_rejects (e : Engine) (clock : Q * Q) (img : ImageData) :
  width img * height img < 0 ∨ arrayLimit e < width img * height img →
  detectShapesOn e clock img = RangeError.
Proof.
  intros Hwh. unfold detectShapesOn.
  destruct (Z.ltb_spec (width img * height img) 0); [done|].
  destruct (Z.ltb_spec (arrayLimit e) (width img * height img)); [done|lia].
Qed.

Lemma contour_length_le (w h : Z) (gray : list Z) (blob : list Point) :
  0 ≤ w * h → blob ∈ contoursOf w h gray → Z.of_nat (length blob) ≤ w * h.
Proof.
  intros Hwh Hb. destruct (findContours_nonempty w h gray blob Hb) as [_ Hnd].
  apply grid_capacity; [done|done|]. intros p Hp.
  by destruct (contour_foreground w h gray blob p Hb Hp) as [? _].
Qed.

Lemma contours_fit (e : Engine) (w h : Z) (gray : list Z) :
  0 ≤ w * h → w * h ≤ maxArguments e → w * h ≤ maxDepth e →
  forallb (fits e) (contoursOf w h gray) = true.
Proof.
  intros Hwh Ha Hd. apply forallb_forall. intros blob Hb%list_elem_of_In.
  pose proof (contour_length_le w h gray blob Hwh Hb) as Hlen.
  destruct (findContours_nonempty w h gray blob Hb) as [Hbig _].
  pose proof (rdpDepth_le 3 (length blob) blob) as Hdepth.
  unfold fits. apply andb_true_iff. split; apply Z.leb_le; lia.
Qed.

(** C2, as the code has it: nothing is validated.  On an engine whose
    limits on array length, argument count and recursion depth are not
    below [width * height], the call resolves whatever the length of the
    pixel buffer, and it reports the dimensions it was given; with a
    non-positive width or height the shape list is empty.  Beyond the
    array limit, or with a negative product, the engine rejects the call
    with a RangeError; no error is ever raised about the input. *)
Theorem detectShapes_no_validation (e : Engine) (clock : Q * Q)
    (img : ImageData) :
  (0 ≤ width img * height img ≤ arrayLimit e →
   width img * height img ≤ maxArguments e →
   width img * height img ≤ maxDepth e →
   ∃ r, detectShapesOn e clock img = Resolved r
        ∧ imageWidth r = width img ∧ imageHeight r = height img
        ∧ (width img ≤ 0 ∨ height img ≤ 0 → shapes r = []))
  ∧ (width img * height img < 0 ∨ arrayLimit e < width img * height img →
     detectShapesOn e clock img = RangeError).
Proof.
  split; [|apply detectShapesOn_rejects].
  intros [Hwh Hlim] Ha Hd. unfold detectShapesOn.
  destruct (Z.ltb_spec (width img * height img) 0); [lia|].
  destruct (Z.ltb_spec (arrayLimit e) (width img * height img)); [lia|].
  cbn [orb]. cbv zeta. rewrite contours_fit by done.
  eexists. split_and!; [done|done|done|]. simpl.
  intros Hdeg. unfold detectGray, contoursOf. by rewrite scan_degenerate.
Qed.

Lemma detectShapes_no_validation_witness :
  ∃ r, detectShapesOn (mkEngine (2 ^ 32 - 1) 65535 1000) (0, 0)%Q
         (mkImage 2 2 []) = Resolved r
       ∧ imageWidth r = 2 ∧ imageHeight r = 2
       ∧ (2 ≤ 0 ∨ 2 ≤ 0 → shapes r = []).
Proof.
  apply (detectShapes_no_validation (mkEngine (2 ^ 32 - 1) 65535 1000)
           (0, 0)%Q (mkImage 2 2 [])).
  - vm_compute. split; discriminate.
  - vm_compute. discriminate.
  - vm_compute. discriminate.
Defined.

(** ** A clean border *)

Lemma cleanBorder_aget (w h : Z) (gray : list Z) (c x y : Z) :
  cleanBorder w h gray c → 0 ≤ x < w → 0 ≤ y < h →
  onBorder w h x y = true → aget gray (idx w x y) = Some c.
Proof.
  unfold cleanBorder. rewrite Forall_forall. intros Hc Hx Hy Hb.
  specialize (Hc y). rewrite Forall_forall in Hc.
  apply Hc; [apply elem_of_seqZ; lia|apply elem_of_seqZ; lia|done].
Qed.

Lemma borderExact_step (c : Z) (acc : jsnum Q * Z) :
  borderExact c acc →
  borderExact c (jadd acc.1 (jadd (num (Some c)) (num (Some c))), acc.2 + 2).
Proof.
  intros (Hk & s & Es & E). split; [simpl; lia|].
  cbn [fst snd]. rewrite Es. cbn [num jadd cadd Q_carrier].
  eexists. split; [done|]. rewrite E, inject_Z_plus.
  change (inject_Z 2) with 2%Q. ring.
Qed.

Lemma border_exact (w h : Z) (gray : list Z) (c : Z) :
  0 < w → 0 < h → cleanBorder w h gray c → borderExact c (border w h gray).
Proof.
  intros Hw Hh Hc. unfold border. apply foldl_elem_inv.
  - intros y a Hy%elem_of_seqZ Ha. unfold borderCol.
    replace (y * w) with (idx w 0 y) at 1 by (unfold idx; lia).
    change (y * w + (w - 1)) with (idx w (w - 1) y).
    rewrite !(cleanBorder_aget w h gray c) by
      (first [done | lia | unfold onBorder; rewrite ?Z.eqb_refl, ?orb_true_r; done]).
    by apply borderExact_step.
  - apply foldl_elem_inv.
    + intros x a Hx%elem_of_seqZ Ha. unfold borderRow.
      replace x with (idx w x 0) at 1 by (unfold idx; lia).
      change ((h - 1) * w + x) with (idx w x (h - 1)).
      rewrite !(cleanBorder_aget w h gray c) by
        (first [done | lia | unfold onBorder; rewrite ?Z.eqb_refl, ?orb_true_r; done]).
      by apply borderExact_step.
    + split; [done|]. exists 0%Q. split; [done|]. cbn [snd].
      change (inject_Z 0) with 0%Q. ring.
Qed.

Lemma bgLevel_cleanBorder (w h : Z) (gray : list Z) (c : Z) :
  0 < w → 0 < h → 0 ≤ c ≤ 255 → cleanBorder w h gray c →
  ∃ b, bgLevel w h gray = Fin b ∧ (b == inject_Z c)%Q.
Proof.
  intros Hw Hh Hc0 Hc.
  destruct (border_exact w h gray c Hw Hh Hc) as (Hk & s & Es & E).
  unfold bgLevel. rewrite Es.
  pose proof (border_count w h gray) as Hn. rewrite Hn in * by lia.
  assert (0 < inject_Z (2 * (w + h)))%Q as Hpos.
  { change 0%Q with (inject_Z 0). rewrite <- Zlt_Qlt. lia. }
  rewrite jdiv_Fin_2 by lra. eexists. split; [done|].
  rewrite <- (fl_Z c) by lia. apply fl_proper. rewrite E. field. lra.
Qed.

(** With a clean border of value [c] no border pixel is foreground. *)
Lemma border_is_background (w h : Z) (gray : list Z) (c : Z) (p : Point) :
  0 < w → 0 < h → 0 ≤ c ≤ 255 → cleanBorder w h gray c →
  foreground w h (binaryMask w h gray) p →
  onBorder w h (p_x p) (p_y p) = false.
Proof.
  intros Hw Hh Hc0 Hc [[Hx Hy] Hm].
  destruct (onBorder w h (p_x p) (p_y p)) eqn:Hb; [exfalso|done].
  rewrite aget_binaryMask, (cleanBorder_aget w h gray c) in Hm by done.
  destruct (bgLevel_cleanBorder w h gray c Hw Hh Hc0 Hc) as (b & Eb & E).
  assert (0 <= inject_Z c)%Q
    by (change 0%Q with (inject_Z 0); rewrite <- Zle_Qle; lia).
  assert (fl 0.9 <= 1 ∧ 1 <= fl 1.1)%Q as [H09 H11]
    by (split; vm_compute; discriminate).
  assert (0 <= fl 0.9)%Q as H09' by (vm_compute; discriminate).
  revert Hm. unfold threshold. rewrite Eb. cbn [fmap option_fmap option_map].
  destruct (darkShapes w h gray); unfold binarize, jgt;
    cbn [jfl jmul jlt cmul cltb Q_carrier];
    (rewrite (proj2 (Qltb_ge _ _)); [done|]);
    rewrite <- (fl_Z c) by lia; apply fl_mono; nra.
Qed.

(** X5: when the outermost rows and columns of the picture all have the
    same gray value they are background, so every bounding box stays at
    least one pixel away from the edge of the picture. *)
Theorem clean_border_keeps_shapes_inside (clock : Q * Q) (img : ImageData)
    (r : DetectionResult) (c : Z) :
  0 < width img → 0 < height img →
  cleanBorder (width img) (height img)
    (grayscale (width img) (height img) (data img)) c →
  detectShapes clock img = Resolved r →
  Forall (λ s,
            1 ≤ bb_x (boundingBox s)
            ∧ bb_x (boundingBox s) + bb_width (boundingBox s) ≤ width img - 2
            ∧ 1 ≤ bb_y (boundingBox s)
            ∧ bb_y (boundingBox s) + bb_height (boundingBox s)
              ≤ height img - 2)
         (shapes r).
Proof.
  intros Hw Hh Hc (_ & -> & _)%detectShapes_resolved.
  set (w := width img) in *. set (h := height img) in *.
  set (gray := grayscale w h (data img)) in *.
  assert (0 ≤ c ≤ 255) as Hc0.
  { pose proof (cleanBorder_aget w h gray c 0 0 Hc) as E.
    pose proof (grayscale_range w h (data img)) as Hb.
    rewrite Forall_forall in Hb.
    apply (Hb c), (aget_elem _ (idx w 0 0)), E; [lia|lia|done]. }
  apply Forall_forall. intros s (blob & -> & Hblob)%list_elem_of_fmap.
  unfold sourceBlobs in Hblob. fold w h gray in Hblob.
  destruct (boxOf_attained blob (contour_nonempty _ _ _ _ Hblob))
    as (pl & pr & pt & pb & (Hl & Hr & Ht & Hb) & El & Er & Et & Eb).
  rewrite boundingBox_shapeOf.
  assert (∀ p, p ∈ blob →
            1 ≤ p_x p ≤ w - 2 ∧ 1 ≤ p_y p ≤ h - 2) as Hin.
  { intros p Hp. pose proof (contour_foreground w h gray blob p Hblob Hp) as Hf.
    pose proof (border_is_background w h gray c p Hw Hh Hc0 Hc Hf) as Hnb.
    destruct Hf as [[? ?] _]. unfold onBorder in Hnb.
    rewrite !orb_false_iff, !Z.eqb_neq in Hnb. lia. }
  pose proof (Hin pl Hl). pose proof (Hin pr Hr).
  pose proof (Hin pt Ht). pose proof (Hin pb Hb). lia.
Qed.

Lemma clean_border_keeps_shapes_inside_witness :
  let r := mkResult (map shapeOf (sourceBlobs blackSquare)) (0 - 0)%Q 7 7 in
  Forall (λ s,
            1 ≤ bb_x (boundingBox s)
            ∧ bb_x (boundingBox s) + bb_width (boundingBox s) ≤ 7 - 2
            ∧ 1 ≤ bb_y (boundingBox s)
            ∧ bb_y (boundingBox s) + bb_height (boundingBox s) ≤ 7 - 2)
         (shapes r).
Proof.
  intros r.
  apply (clean_border_keeps_shapes_inside (0, 0)%Q blackSquare r 255).
  - simpl. lia.
  - simpl. lia.
  - unfold cleanBorder. apply (bool_decide_unpack _). vm_compute. reflexivity.
  - reflexivity.
Defined.

(** ** Discovery order *)

Lemma foldl_seqZ_inv {St} (f : St → Z → St) (I : Z → St → Prop) (n : nat) :
  ∀ (a : Z) (s : St),
    I a s →
    (∀ i t, a ≤ i < a + Z.of_nat n → I i t → I (i + 1) (f t i)) →
    I (a + Z.of_nat n) (foldl f s (seqZ a (Z.of_nat n))).
Proof.
  induction n as [|n IH]; intros a s Hs Hstep.
  - simpl. by rewrite Z.add_0_r.
  - rewrite seqZ_cons by lia. simpl.
    replace (Z.pred (Z.of_nat (S n))) with (Z.of_nat n) by lia.
    replace (a + Z.of_nat (S n)) with (Z.succ a + Z.of_nat n) by lia.
    apply IH.
    + replace (Z.succ a) with (a + 1) by lia. apply Hstep; [lia|done].
    + intros i t Hi. apply Hstep. lia.
Qed.

Lemma floodFill_prefix (fuel : nat) (w h : Z) (binary vis : list Z)
    (stack blob : list Point) :
  ∃ ext, (floodFill fuel w h binary vis stack blob).2 = blob ++ ext.
Proof.
  revert vis stack blob. induction fuel as [|fuel IH]; intros vis stack blob.
  - exists []. simpl. by rewrite app_nil_r.
  - destruct stack as [|p rest].
    + exists []. simpl. by rewrite app_nil_r.
    + cbn [floodFill].
      destruct (IH (foldl (visit w h binary p) (vis, rest) dirs).1
                   (foldl (visit w h binary p) (vis, rest) dirs).2
                   (blob ++ [p])) as [ext E].
      exists (p :: ext). rewrite E. by rewrite <- app_assoc.
Qed.

Lemma before_irrefl (p : Point) : ¬ before p p.
Proof. unfold before. lia. Qed.

Lemma before_trans (p q r : Point) : before p q → before q r → before p r.
Proof. unfold before. lia. Qed.

Lemma before_total (p q : Point) : p = q ∨ before p q ∨ before q p.
Proof.
  destruct p as [a b], q as [a' b']. unfold before. simpl.
  destruct (decide (a = a' ∧ b = b')) as [[-> ->]|]; [by left|right; lia].
Qed.

Section Order.
Variables (W H : Z) (binary : list Z).

Local Abbreviation fg := (foreground W H binary).
Local Abbreviation mk := (marked W).

(** What the scan does at one pixel: nothing, or one fill that appends a
    blob headed by this pixel. *)
Lemma scanPixelAll_cases (st : list Z * list (list Point)) (x y : Z) :
  0 ≤ x < W → 0 ≤ y < H → scanInv W H binary st →
  (scanPixelAll W H binary y st x = st ∧ (fg (mkPoint x y) → mk st.1 (mkPoint x y)))
  ∨ ∃ vis' rest,
      scanPixelAll W H binary y st x = (vis', st.2 ++ [mkPoint x y :: rest])
      ∧ NoDup (mkPoint x y :: rest)
      ∧ ∀ q, q ∈ mkPoint x y :: rest → fg q ∧ ¬ mk st.1 q.
Proof.
  intros Hx Hy Hinv. pose proof Hinv as (Hl & Hmk & Hnd & Hcomp).
  set (p := mkPoint x y). assert (0 ≤ p_x p < W ∧ 0 ≤ p_y p < H) as Hp by done.
  assert (0 ≤ idx W x y < W * H) as Hc by (by apply idx_range).
  unfold scanPixelAll. fold p.
  destruct (is1 (aget binary (idx W x y))) eqn:H1; simpl.
  2:{ left. split; [done|]. intros [_ E]. simpl in E. by rewrite E in H1. }
  assert (fg p) as Hfp.
  { split; [done|]. simpl. unfold is1 in H1.
    destruct (aget binary (idx W x y)); [|done].
    apply Z.eqb_eq in H1. by subst. }
  destruct (falsy (aget st.1 (idx W x y))) eqn:Hf.
  2:{ left. split; [done|]. intros _. unfold marked. done. }
  right.
  assert (¬ mk st.1 p) as Hnm by (unfold marked, p; simpl; congruence).
  assert (fillInv W H binary st.1 p (aset st.1 (idx W x y) 1) [p] []) as Hfi.
  { change (idx W x y) with (idx W (p_x p) (p_y p)). split_and!.
    - by rewrite length_aset.
    - intros r Hr. rewrite list_elem_of_singleton.
      destruct (decide (r = p)) as [->|Hne].
      + split; [auto|]. intros _. by apply (marked_aset_same W H st.1 p).
      + rewrite (marked_aset_other W H st.1 r p) by done.
        split; [auto|]. intros [?|[Hn|?]]; [done| |done].
        by apply elem_of_nil in Hn.
    - simpl. apply NoDup_singleton.
    - simpl. intros r ->%list_elem_of_singleton.
      split_and!; [done|apply rtc_refl|done].
    - intros r q Hr. by apply elem_of_nil in Hr.
    - simpl. by apply list_elem_of_singleton. }
  assert (zeros (aset st.1 (idx W x y) 1%Z) + length [p] ≤ length st.1)%nat as Hfuel.
  { cbn [length]. pose proof (zeros_insert st.1 (Z.to_nat (idx W x y))) as Hz.
    rewrite aset_nonneg by lia.
    assert (st.1 !! Z.to_nat (idx W x y) = Some 0) as Hs.
    { rewrite <- aget_nonneg by lia. apply falsy_true_Some; [lia|done]. }
    specialize (Hz Hs). pose proof (zeros_le st.1). lia. }
  destruct (floodFill_terminates W H binary st.1 p (length st.1) _ _ _ Hfi Hfuel)
    as (vis' & blob' & E & Hfi').
  destruct (length st.1) as [|fuel] eqn:En; [simpl in Hfuel; lia|].
  assert (∃ rest, blob' = p :: rest) as [rest ->].
  { cbn [floodFill] in E.
    destruct (floodFill_prefix fuel W H binary
                (foldl (visit W H binary p) (aset st.1 (idx W x y) 1, []) dirs).1
                (foldl (visit W H binary p) (aset st.1 (idx W x y) 1, []) dirs).2
                ([] ++ [p])) as [ext Eext].
    rewrite E in Eext. simpl in Eext. eauto. }
  exists vis', rest. rewrite E. cbn [fst snd].
  destruct Hfi' as (_ & _ & Hnd' & Hin' & _ & _). rewrite app_nil_r in *.
  split_and!; [done|done|].
  intros q Hq. by destruct (Hin' q Hq) as (? & _ & ?).
Qed.

Lemma orderInv_pixel (st : list Z * list (list Point)) (x y : Z) :
  0 ≤ x < W → 0 ≤ y < H →
  orderInv W H binary x y st →
  orderInv W H binary (x + 1) y (scanPixelAll W H binary y st x).
Proof.
  intros Hx Hy (Hinv & Hearly & Hseed & Hsorted).
  destruct (scanPixelAll_inv W H binary st x y Hx Hy Hinv) as (Hinv' & Hgrow & _).
  pose proof Hinv as (_ & Hmk & _). pose proof Hinv' as (_ & Hmk' & _).
  assert (∀ p, fg p → mk st.1 p → mk (scanPixelAll W H binary y st x).1 p) as Hmono.
  { intros p Hp Hm. pose proof (fg_inB _ _ _ _ Hp) as Hb.
    apply Hmk'; [done|]. apply (grows_elem st); [done|]. by apply Hmk. }
  assert (∀ p, before p (mkPoint (x + 1) y) →
               p = mkPoint x y ∨ before p (mkPoint x y)) as Hnext.
  { intros [a b]. unfold before. simpl. intros Hb.
    destruct (decide (a = x ∧ b = y)) as [[-> ->]|]; [by left|right; lia]. }
  assert (∀ p, before p (mkPoint x y) → before p (mkPoint (x + 1) y)) as Hweak.
  { intros p. unfold before. simpl. lia. }
  destruct (scanPixelAll_cases st x y Hx Hy Hinv)
    as [[E Hdone]|(vis' & rest & E & Hnd & Hnew)].
  - rewrite E in *. split_and!; [done| | |done].
    + intros p Hp [->|Hb]%Hnext; [by apply Hdone|by apply Hearly].
    + intros b Hb. destruct (Hseed b Hb) as (s & rest & -> & Hs & Hrest).
      exists s, rest. split_and!; [done|by apply Hweak|done].
  - split_and!; [done| | |].
    + intros p Hp [->|Hb]%Hnext.
      * apply Hmk'; [done|]. rewrite E. cbn [snd].
        rewrite concat_app, elem_of_app. right. simpl. rewrite app_nil_r. by left.
      * apply Hmono; [done|]. by apply Hearly.
    + rewrite E. cbn [snd]. intros b [Hb| ->%list_elem_of_singleton]%elem_of_app.
      * destruct (Hseed b Hb) as (s & rest' & -> & Hs & Hrest).
        exists s, rest'. split_and!; [done|by apply Hweak|done].
      * exists (mkPoint x y), rest. split_and!; [done|unfold before; simpl; lia|].
        intros q Hq. destruct (Hnew q) as [Hfq Hnq]; [by right|].
        destruct (before_total (mkPoint x y) q) as [<-|[?|Hb]]; [|done|].
        -- apply NoDup_cons in Hnd as [Hn _]. done.
        -- exfalso. apply Hnq. by apply Hearly.
    + rewrite E. cbn [snd]. apply StronglySorted_app_2; [|done|].
      * intros b b' Hb ->%list_elem_of_singleton.
        destruct (Hseed b Hb) as (s & rest' & -> & Hs & _).
        exists s, (mkPoint x y). by split_and!.
      * repeat constructor.
Qed.

Lemma orderInv_row (st : list Z * list (list Point)) (y : Z) :
  0 ≤ y < H → orderInv W H binary 0 y st →
  orderInv W H binary 0 (y + 1)
    (foldl (scanPixelAll W H binary y) st (seqZ 0 W)).
Proof.
  intros Hy Hst. destruct (Z_le_gt_dec W 0) as [Hw|Hw].
  { rewrite seqZ_nil by lia. simpl.
    destruct Hst as (Hinv & Hearly & Hseed & Hsorted). split_and!; [done| | |done].
    - intros p Hp. pose proof (fg_inB _ _ _ _ Hp). lia.
    - intros b Hb. destruct (Hseed b Hb) as (s & rest & -> & Hs & Hrest).
      exists s, rest. split_and!; [done| |done]. revert Hs. unfold before. simpl. lia. }
  pose proof (foldl_seqZ_inv (scanPixelAll W H binary y)
                (λ x s, orderInv W H binary x y s) (Z.to_nat W) 0 st Hst) as Hrow.
  rewrite Z2Nat.id in Hrow by lia. simpl in Hrow.
  destruct Hrow as (Hinv & Hearly & Hseed & Hsorted).
  { intros i t Hi. apply orderInv_pixel; lia. }
  split_and!; [done| | |done].
  - intros p Hp Hb. apply Hearly; [done|]. pose proof (fg_inB _ _ _ _ Hp).
    revert Hb. unfold before. simpl. lia.
  - intros b Hb. destruct (Hseed b Hb) as (s & rest & -> & Hs & Hrest).
    exists s, rest. split_and!; [done| |done].
    assert (fg s) as Hfs.
    { destruct Hinv as (_ & _ & _ & Hcomp).
      destruct (Hcomp (s :: rest) s s Hb) as [? _]; [by left|done]. }
    pose proof (fg_inB _ _ _ _ Hfs). revert Hs. unfold before. simpl. lia.
Qed.

Lemma orderInv_scanAll :
  0 ≤ H → orderInv W H binary 0 H (scanAll W H binary).
Proof.
  intros HH. unfold scanAll.
  pose proof (foldl_seqZ_inv
                (λ st y, foldl (scanPixelAll W H binary y) st (seqZ 0 W))
                (λ y s, orderInv W H binary 0 y s) (Z.to_nat H) 0
                (replicate (Z.to_nat (W * H)) 0, [])) as Hall.
  rewrite Z2Nat.id in Hall by lia. simpl in Hall. apply Hall.
  - split_and!.
    + apply scanInv_init.
    + intros p Hp Hb. pose proof (fg_inB _ _ _ _ Hp). exfalso.
      revert Hb. unfold before. simpl. lia.
    + intros b Hb. by apply elem_of_nil in Hb.
    + constructor.
  - intros y t Hy. apply orderInv_row. lia.
Qed.
End Order.

Lemma StronglySorted_filter {A} (R : relation A) (P : A → Prop)
    `{∀ x, Decision (P x)} (l : list A) :
  StronglySorted R l → StronglySorted R (filter P l).
Proof.
  induction 1 as [|x l Hl IH Hx]; [constructor|].
  rewrite filter_cons. destruct (decide (P x)); [|done].
  constructor; [done|]. rewrite Forall_forall in *.
  intros y [_ Hy]%list_elem_of_filter. by apply Hx.
Qed.

(** The contours start with their earliest pixel and are in the order of
    these pixels. *)
Lemma contoursOf_order (w h : Z) (gray : list Z) :
  (∀ b, b ∈ contoursOf w h gray →
     ∃ s rest, b = s :: rest ∧ ∀ q, q ∈ rest → before s q)
  ∧ StronglySorted seedBefore (contoursOf w h gray).
Proof.
  unfold contoursOf. rewrite findContours_filter.
  destruct (Z_le_gt_dec 0 h) as [Hh|Hh].
  - destruct (orderInv_scanAll w h (binaryMask w h gray) Hh)
      as (_ & _ & Hseed & Hsorted).
    split; [|by apply StronglySorted_filter].
    intros b [_ Hb]%list_elem_of_filter.
    destruct (Hseed b Hb) as (s & rest & -> & _ & Hrest). eauto.
  - unfold allBlobs, scanAll. rewrite (seqZ_nil 0 h) by lia. simpl.
    split; [|constructor]. intros b Hb. by apply elem_of_nil in Hb.
Qed.

Lemma foldl_min_head (t : list Z) (v : Z) :
  (∀ u, u ∈ t → v ≤ u) → foldl Z.min v t = v.
Proof.
  revert v. induction t as [|u t IH]; intros v Hv; simpl; [done|].
  assert (v ≤ u) by (apply Hv; by left).
  replace (Z.min v u) with v by lia. apply IH. intros u' Hu'. apply Hv. by right.
Qed.

Lemma boxOf_top (s : Point) (rest : list Point) :
  (∀ q, q ∈ rest → before s q) → bb_y (boxOf (s :: rest)) = p_y s.
Proof.
  intros Hrest. unfold boxOf. cbn [bb_y map Math_min].
  apply foldl_min_head. intros u (q & -> & Hq)%list_elem_of_fmap.
  specialize (Hrest q Hq). unfold before in Hrest. lia.
Qed.

(** X9: every blob starts with the pixel the scan met first, which is the
    left-most pixel of its top row, and the top of the bounding box is the
    row of that pixel. *)
Theorem blob_starts_at_top (clock : Q * Q) (img : ImageData)
    (r : DetectionResult) :
  detectShapes clock img = Resolved r →
  Forall2 (λ s blob,
             ∃ seed rest,
               blob = seed :: rest
               ∧ (∀ q, q ∈ rest → before seed q)
               ∧ bb_y (boundingBox s) = p_y seed)
          (shapes r) (sourceBlobs img).
Proof.
  intros (_ & -> & _)%detectShapes_resolved.
  apply Forall2_map_self. intros blob Hblob. unfold sourceBlobs in Hblob.
  destruct (contoursOf_order (width img) (height img)
              (grayscale (width img) (height img) (data img))) as [Hseed _].
  destruct (Hseed blob Hblob) as (s & rest & -> & Hrest).
  exists s, rest. split_and!; [done|done|].
  rewrite boundingBox_shapeOf. by apply boxOf_top.
Qed.

Lemma blob_starts_at_top_witness :
  let r := mkResult (map shapeOf (sourceBlobs blackSquare)) (0 - 0)%Q 7 7 in
  Forall2 (λ s blob,
             ∃ seed rest,
               blob = seed :: rest
               ∧ (∀ q, q ∈ rest → before seed q)
               ∧ bb_y (boundingBox s) = p_y seed)
          (shapes r) (sourceBlobs blackSquare).
Proof.
  intros r. apply (blob_starts_at_top (0, 0)%Q blackSquare r). reflexivity.
Defined.

Lemma StronglySorted_elem_impl {A} (R R' : relation A) (l : list A) :
  (∀ x y, x ∈ l → y ∈ l → R x y → R' x y) →
  StronglySorted R l → StronglySorted R' l.
Proof.
  intros Himpl Hs. induction Hs as [|x l Hl IH Hx]; [constructor|].
  constructor.
  - apply IH. intros a b Ha Hb. apply Himpl; by right.
  - rewrite Forall_forall in *. intros y Hy.
    apply Himpl; [by left|by right|by apply Hx].
Qed.

(** X10: the shapes come in the order in which the row-major scan met the
    first pixel of their blobs; in particular the tops of their bounding
    boxes never decrease along the list. *)
Theorem shapes_in_scan_order (clock : Q * Q) (img : ImageData)
    (r : DetectionResult) :
  detectShapes clock img = Resolved r →
  StronglySorted seedBefore (sourceBlobs img)
  ∧ StronglySorted (λ s s', bb_y (boundingBox s) ≤ bb_y (boundingBox s'))
                   (shapes r).
Proof.
  intros (_ & -> & _)%detectShapes_resolved. unfold sourceBlobs.
  destruct (contoursOf_order (width img) (height img)
              (grayscale (width img) (height img) (data img)))
    as [Hseed Hsorted].
  split; [done|].
  apply (StronglySorted_fmap shapeOf
           (λ b b', bb_y (boxOf b) ≤ bb_y (boxOf b'))); [done|].
  revert Hsorted. apply StronglySorted_elem_impl.
  intros b b' Hb Hb' (s & s' & Hs & Hs' & Hlt).
  destruct (Hseed b Hb) as (s0 & rest & -> & Hrest).
  destruct (Hseed b' Hb') as (s0' & rest' & -> & Hrest').
  simpl in Hs, Hs'. injection Hs as ->. injection Hs' as ->.
  rewrite !boxOf_top by done. unfold before in Hlt. lia.
Qed.

Lemma shapes_in_scan_order_witness :
  let r := mkResult (map shapeOf (sourceBlobs blackSquare)) (0 - 0)%Q 7 7 in
  StronglySorted seedBefore (sourceBlobs blackSquare)
  ∧ StronglySorted (λ s s', bb_y (boundingBox s) ≤ bb_y (boundingBox s'))
                   (shapes r).
Proof.
  intros r. apply (shapes_in_scan_order (0, 0)%Q blackSquare r). reflexivity.
Defined.

(** ** More on the simplified polygon *)

(** X11: the simplified polygon of a blob has between 2 vertices and as
    many as the blob has pixels, every vertex is a foreground pixel of the
    blob, and no vertex occurs twice. *)
Theorem approx_vertices (img : ImageData) (blob : list Point) :
  blob ∈ sourceBlobs img →
  (2 ≤ length (rdpSimplify blob 3) ≤ length blob)%nat
  ∧ NoDup (rdpSimplify blob 3)
  ∧ ∀ v, v ∈ rdpSimplify blob 3 →
      v ∈ blob
      ∧ foreground (width img) (height img)
          (binaryMask (width img) (height img)
             (grayscale (width img) (height img) (data img))) v.
Proof.
  intros Hblob. unfold sourceBlobs in Hblob.
  destruct (findContours_nonempty _ _ _ _ Hblob) as [Hlen Hnd].
  destruct (rdp_shape (length blob) 3 blob) as [Hsub Hrest].
  fold (rdpSimplify blob 3) in Hsub, Hrest.
  destruct Hrest as (Hl & _ & _); [lia|].
  split_and!.
  - done.
  - by apply sublist_length.
  - by apply (sublist_NoDup _ blob).
  - intros v Hv. assert (v ∈ blob) as Hvb by (by apply (sublist_subseteq _ _ Hsub)).
    split; [done|]. by apply (contour_foreground _ _ _ blob).
Qed.

Lemma approx_vertices_witness :
  let blob := hd [] (sourceBlobs blackSquare) in
  (2 ≤ length (rdpSimplify blob 3) ≤ length blob)%nat
  ∧ NoDup (rdpSimplify blob 3)
  ∧ ∀ v, v ∈ rdpSimplify blob 3 →
      v ∈ blob
      ∧ foreground 7 7 (binaryMask 7 7 (grayscale 7 7 (data blackSquare))) v.
Proof.
  intros blob. apply (approx_vertices blackSquare blob). vm_compute. left.
Defined.

Lemma farStep_all_zero (points : list Point) (first lst : Point) (l : list nat) :
  (∀ i p, i ∈ l → points !! i = Some p →
          perpendicularDistance p first lst = 0%R) →
  foldl (farStep points first lst) (-1, 0%R) l = (-1, 0%R).
Proof.
  induction l as [|i l IH]; intros Hz; [done|]. simpl.
  assert (farStep points first lst (-1, 0%R) i = (-1, 0%R)) as ->.
  { unfold farStep. destruct (points !! i) as [p|] eqn:Ep; [|done].
    rewrite (Hz i p) by (done || by left). unfold Rgtb. cbn [snd].
    rewrite Rltb_false; [done|]. apply Rlt_irrefl. }
  apply IH. intros j p Hj. apply Hz. by right.
Qed.

Lemma perpendicularDistance_collinear (p a b : Point) :
  crossZ p a b = 0 → perpendicularDistance p a b = 0%R.
Proof.
  intros E. unfold perpendicularDistance. cbv zeta. rewrite E, Rabs_R0.
  destruct (Req_dec_T _ 0); [done|]. unfold Rdiv. by rewrite Rmult_0_l.
Qed.

(** X12: a sequence that ends where it starts, or whose inner points are
    all on the line through its two end points (with coordinates for which
    the cross product is exact in doubles), is reduced to its two end
    points, for every tolerance, negative ones included. *)
Theorem rdpSimplify_flat (points : list Point) (tolerance : R)
    (first lst : Point) :
  (3 ≤ length points)%nat →
  head points = Some first → last points = Some lst →
  (first = lst
   ∨ Forall exactCoord points
     ∧ ∀ i p, (1 ≤ i ≤ length points - 2)%nat → points !! i = Some p →
              crossZ p first lst = 0) →
  rdpSimplify points tolerance = [first; lst].
Proof.
  intros Hlen Hhd Hlast Hflat. rewrite rdpSimplify_unfold.
  destruct (Nat.ltb_spec (length points) 3); [lia|].
  destruct points as [|f rest] eqn:Epts; [done|]. injection Hhd as ->.
  rewrite <- Epts in *. rewrite Hlast. cbn zeta.
  unfold farthest. rewrite farStep_all_zero; [by rewrite andb_false_r|].
  intros i p Hi%elem_of_seq Hp. destruct Hflat as [->|[_ Hc]].
  - apply perpendicularDistance_zero. unfold den2. lia.
  - apply perpendicularDistance_collinear, (Hc i); [lia|done].
Qed.

Lemma rdpSimplify_flat_witness :
  rdpSimplify [mkPoint 0 0; mkPoint 3 6; mkPoint 5 10] (-1)
  = [mkPoint 0 0; mkPoint 5 10].
Proof.
  apply (rdpSimplify_flat [mkPoint 0 0; mkPoint 3 6; mkPoint 5 10] (-1)).
  - simpl. lia.
  - reflexivity.
  - reflexivity.
  - right. split.
    + unfold exactCoord. apply (bool_decide_unpack _). vm_compute. reflexivity.
    + intros [|[|i]] p Hi Hp; simpl in Hi; try lia.
      injection Hp as <-. reflexivity.
Defined.

(** ** More on the confidence score *)

Lemma sizeFactor_mono (n m : nat) :
  (n ≤ m)%nat → (sizeFactor n <= sizeFactor m)%Q.
Proof.
  intros Hnm. unfold sizeFactor.
  assert (inject_Z (Z.of_nat n) / 500 <= inject_Z (Z.of_nat m) / 500)%Q as Hle.
  { apply Qmult_le_compat_r; [rewrite <- Zle_Qle; lia|done]. }
  destruct (Q.min_spec 1 (inject_Z (Z.of_nat n) / 500)) as [[? ->]|[? ->]];
    destruct (Q.min_spec 1 (inject_Z (Z.of_nat m) / 500)) as [[? ->]|[? ->]];
    lra.
Qed.

Lemma sizeFactor_one (n : nat) : (sizeFactor n == 1)%Q ↔ (500 ≤ n)%nat.
Proof.
  unfold sizeFactor.
  assert ((1 <= inject_Z (Z.of_nat n) / 500)%Q ↔ (500 ≤ n)%nat) as Hiff.
  { unfold Qle, Qdiv, Qmult, Qinv. simpl. lia. }
  destruct (Q.min_spec 1 (inject_Z (Z.of_nat n) / 500)) as [[Hlt ->]|[Hle ->]].
  - split; [intros _; apply Hiff; lra|done].
  - split; [intros E; apply Hiff; lra|].
    intros Hn. apply Hiff in Hn. lra.
Qed.

(** X15: the confidence never decreases when the blob gets larger. *)
Theorem computeConfidence_mono (ty : ShapeType)
    (approx approx' contour contour' : list Point) :
  (length contour ≤ length contour')%nat →
  (computeConfidence ty approx contour
   <= computeConfidence ty approx' contour')%Q.
Proof.
  intros Hlen. rewrite !computeConfidence_formula, !confidenceFormula_unclamped.
  pose proof (sizeFactor_mono _ _ Hlen). destruct ty; simpl; lra.
Qed.

Lemma computeConfidence_mono_witness :
  (computeConfidence star [] [mkPoint 0 0]
   <= computeConfidence star [] [mkPoint 0 0; mkPoint 1 0])%Q.
Proof.
  apply (computeConfidence_mono star [] [] [mkPoint 0 0]
           [mkPoint 0 0; mkPoint 1 0]).
  simpl. lia.
Defined.

(** X16: the confidence is the base score of the type exactly when the
    blob has 500 points or more; smaller blobs score less. *)
Theorem computeConfidence_saturates (ty : ShapeType)
    (approx contour : list Point) :
  ((computeConfidence ty approx contour == baseScore ty)%Q
   ↔ (500 ≤ length contour)%nat)
  ∧ (computeConfidence ty approx contour <= baseScore ty)%Q.
Proof.
  rewrite computeConfidence_formula, confidenceFormula_unclamped.
  pose proof (sizeFactor_range (length contour)) as [H0 H1].
  pose proof (sizeFactor_one (length contour)) as Hone.
  split; [|destruct ty; simpl; lra].
  rewrite <- Hone. destruct ty; simpl; split; intros E; lra.
Qed.

(** ** More on the classifier *)

Lemma sumR_const (l : list R) (a : R) :
  (∀ r, r ∈ l → r = a) → sumR l = (INR (length l) * a)%R.
Proof.
  induction l as [|r l IH]; intros Hl.
  - simpl. lra.
  - cbn [sumR foldr length]. rewrite S_INR.
    fold (sumR l). rewrite IH by (intros r' Hr'; apply Hl; by right).
    rewrite (Hl r) by (by left). lra.
Qed.

Lemma cv_empty : cv [] = NaN.
Proof.
  unfold cv, variance, meanRadius, radii. simpl.
  unfold jdiv. by rewrite csgn_R_zero.
Qed.

Lemma centroid_const (contour : list Point) (p0 : Point) :
  contour ≠ [] → (∀ p, p ∈ contour → p = p0) →
  centroid contour = (IZR (p_x p0), IZR (p_y p0)).
Proof.
  intros Hne Hc. unfold centroid.
  pose proof (count_pos contour Hne) as Hn.
  rewrite (sumR_const _ (IZR (p_x p0))), (sumR_const _ (IZR (p_y p0))).
  - rewrite !length_map. f_equal; field; lra.
  - intros r (p & -> & Hp)%list_elem_of_fmap. by rewrite (Hc p Hp).
  - intros r (p & -> & Hp)%list_elem_of_fmap. by rewrite (Hc p Hp).
Qed.

Lemma cv_single_point (contour : list Point) :
  (∀ p q, p ∈ contour → q ∈ contour → p = q) → cv contour = NaN.
Proof.
  intros Hc. destruct contour as [|p0 rest] eqn:E; [apply cv_empty|].
  rewrite <- E in *. assert (contour ≠ []) as Hne by (by rewrite E).
  assert (∀ p, p ∈ contour → p = p0) as Hp0.
  { intros p Hp. apply Hc; [done|]. rewrite E. by left. }
  assert (∀ r, r ∈ map (radius (centroid contour)) contour → r = 0%R) as Hr.
  { intros r (p & -> & Hp)%list_elem_of_fmap.
    rewrite (centroid_const contour p0 Hne Hp0), (Hp0 p Hp).
    unfold radius. cbn [fst snd].
    replace (_ + _)%R with 0%R by ring. apply sqrt_0. }
  assert (mean (map (radius (centroid contour)) contour) = 0%R) as Hm.
  { unfold mean. rewrite (sumR_const _ 0%R Hr). unfold Rdiv.
    by rewrite Rmult_0_r, Rmult_0_l. }
  unfold cv. rewrite variance_Fin, meanRadius_mean by done. rewrite Hm.
  rewrite (sumR_const _ 0%R).
  - unfold jsqrt, Rdiv. rewrite Rmult_0_r, Rmult_0_l.
    rewrite Rltb_false by apply Rlt_irrefl. rewrite sqrt_0.
    unfold jdiv. by rewrite csgn_R_zero.
  - intros r (r' & -> & Hr')%list_elem_of_fmap. rewrite (Hr r' Hr'). ring.
Qed.

(** X13: a contour without two distinct points (empty, or one point
    repeated, with coordinate sums that are exact in doubles) makes [cv]
    NaN, so it is never labelled circle. *)
Theorem classifyShape_degenerate (approx contour : list Point) (w h : Z) :
  exactContour contour →
  (∀ p q, p ∈ contour → q ∈ contour → p = q) →
  cv contour = NaN ∧ classifyShape approx contour w h ≠ circle.
Proof.
  intros _ Hc. pose proof (cv_single_point contour Hc) as E. split; [done|].
  rewrite classifyShape_cases, E.
  repeat (destruct (decide _); [done|]). done.
Qed.

Lemma classifyShape_degenerate_witness :
  cv [mkPoint 3 4; mkPoint 3 4] = NaN
  ∧ classifyShape [] [mkPoint 3 4; mkPoint 3 4] 0 0 ≠ circle.
Proof.
  apply (classifyShape_degenerate [] [mkPoint 3 4; mkPoint 3 4] 0 0).
  - unfold exactContour, exactCoord. split; [simpl; lia|].
    apply (bool_decide_unpack _). vm_compute. reflexivity.
  - intros p q Hp Hq.
    repeat (apply elem_of_cons in Hp as [->|Hp]);
      repeat (apply elem_of_cons in Hq as [->|Hq]);
      first [reflexivity | by apply elem_of_nil in Hp
             | by apply elem_of_nil in Hq].
Defined.

Lemma sumR_lt (l : list R) (a : R) :
  l ≠ [] → (∀ r, r ∈ l → (r < a)%R) → (sumR l < INR (length l) * a)%R.
Proof.
  induction l as [|r l IH]; intros Hne Hl; [done|].
  cbn [sumR foldr length]. fold (sumR l). rewrite S_INR.
  assert (r < a)%R by (apply Hl; by left).
  destruct l as [|r' l'].
  - simpl. lra.
  - assert (sumR (r' :: l') < INR (length (r' :: l')) * a)%R
      by (apply IH; [done|intros r'' Hr''; apply Hl; by right]).
    lra.
Qed.

(** X14: a contour whose points all lie within 14 percent of the mean
    radius from the centroid is labelled circle, unless its polygon has 3,
    4 or 5 vertices.  The test of the code is [cv < 0.15]; the one percent
    between the two is room for the rounding of the radii and of their
    sums, which is far smaller for a contour with exact coordinate sums. *)
Theorem classifyShape_round (approx contour : list Point) (w h : Z) :
  contour ≠ [] → exactContour contour →
  (∀ p, p ∈ contour →
     (Rabs (radius (centroid contour) p
            - mean (map (radius (centroid contour)) contour))
      < 0.14 * mean (map (radius (centroid contour)) contour))%R) →
  length approx ≠ 3%nat → length approx ≠ 4%nat → length approx ≠ 5%nat →
  classifyShape approx contour w h = circle.
Proof.
  intros Hne _ Hnear14 N3 N4 N5.
  set (rs := map (radius (centroid contour)) contour) in *.
  set (m := mean rs) in *.
  assert (0 < m)%R as Hm.
  { destruct contour as [|p rest]; [done|].
    pose proof (Hnear14 p ltac:(by left)) as Hp.
    pose proof (Rabs_pos (radius (centroid (p :: rest)) p - m)). lra. }
  assert (∀ p, p ∈ contour →
            (Rabs (radius (centroid contour) p - m) < 0.15 * m)%R) as Hnear.
  { intros p Hp. specialize (Hnear14 p Hp). lra. }
  rewrite classifyShape_cases, !decide_False by done.
  rewrite (cv_positive_mean contour Hne Hm). cbn [jlt cltb R_carrier].
  rewrite Rltb_true; [done|].
  unfold coefficientOfVariation. fold rs. fold m. unfold stddev. fold m.
  assert (0 < INR (length rs))%R as Hn.
  { unfold rs. rewrite length_map. by apply count_pos. }
  set (sq := map (λ r, (r - m) * (r - m))%R rs).
  assert (sumR sq < INR (length sq) * ((0.15 * m) * (0.15 * m)))%R as Hsum.
  { apply sumR_lt.
    - unfold sq, rs. by destruct contour.
    - intros r (r' & -> & (p & -> & Hp)%list_elem_of_fmap)%list_elem_of_fmap.
      specialize (Hnear p Hp). fold rs m in Hnear.
      set (d := (radius (centroid contour) p - m)%R) in *.
      assert (d * d = Rabs d * Rabs d)%R as ->.
      { unfold Rabs. destruct (Rcase_abs d); ring. }
      pose proof (Rabs_pos d). nra. }
  unfold sq in Hsum at 2. rewrite length_map in Hsum.
  assert (sumR sq / INR (length rs) < (0.15 * m) * (0.15 * m))%R as Hvar.
  { apply (Rmult_lt_reg_r (INR (length rs))); [done|].
    unfold Rdiv. rewrite Rmult_assoc, Rinv_l by lra. lra. }
  assert (sqrt (sumR sq / INR (length rs)) < 0.15 * m)%R as Hsd.
  { rewrite <- (sqrt_square (0.15 * m)) by lra.
    apply sqrt_lt_1_alt. split; [|done].
    apply Rmult_le_pos; [|left; by apply Rinv_0_lt_compat].
    apply sumR_nonneg. intros r (r' & -> & _)%list_elem_of_fmap.
    apply (Rle_0_sqr (r' - m)). }
  apply (Rmult_lt_reg_r m); [done|].
  unfold Rdiv. rewrite Rmult_assoc, Rinv_l by lra. lra.
Qed.

Lemma diamond_centroid : centroid diamond = (0%R, 0%R).
Proof. unfold centroid, diamond. simpl. f_equal; lra. Qed.

Lemma diamond_radius (p : Point) :
  p ∈ diamond → radius (centroid diamond) p = 1%R.
Proof.
  rewrite diamond_centroid. unfold diamond, radius. cbn [fst snd].
  intros Hp. repeat (apply elem_of_cons in Hp as [->|Hp]);
    [..|by apply elem_of_nil in Hp]; simpl;
    (match goal with |- sqrt ?e = _ => replace e with 1%R by lra end;
     apply sqrt_1).
Qed.

Lemma diamond_mean : mean (map (radius (centroid diamond)) diamond) = 1%R.
Proof.
  unfold mean. rewrite (sumR_const _ 1%R).
  - rewrite length_map. simpl. lra.
  - intros r (p & -> & Hp)%list_elem_of_fmap. by apply diamond_radius.
Qed.

Lemma classifyShape_round_witness : classifyShape [] diamond 2 2 = circle.
Proof.
  apply (classifyShape_round [] diamond 2 2).
  - discriminate.
  - unfold exactContour, exactCoord. split; [simpl; lia|].
    apply (bool_decide_unpack _). vm_compute. reflexivity.
  - intros p Hp. rewrite diamond_mean, (diamond_radius p Hp).
    replace (1 - 1)%R with 0%R by lra. rewrite Rabs_R0. lra.
  - simpl. lia.
  - simpl. lia.
  - simpl. lia.
Defined.

(** ** One connected region *)

Lemma allBlobs_single (w h : Z) (binary : list Z) :
  (∃ p, foreground w h binary p) →
  (∀ p q, foreground w h binary p → foreground w h binary q →
          connected w h binary p q) →
  ∃ blob, allBlobs w h binary = [blob] ∧ NoDup blob
          ∧ ∀ p, p ∈ blob ↔ foreground w h binary p.
Proof.
  intros [p0 Hp0] Hconn.
  destruct (allBlobs_components w h binary) as (Hnd & Hfg & Hcomp).
  assert (0 ≤ h) as Hh by (destruct Hp0 as [[_ ?] _]; lia).
  destruct (orderInv_scanAll w h binary Hh) as (_ & _ & Hseed & _).
  fold (allBlobs w h binary) in Hseed.
  destruct (allBlobs w h binary) as [|b1 [|b2 more]] eqn:E.
  - apply Hfg in Hp0. by apply elem_of_nil in Hp0.
  - exists b1. split; [done|]. simpl in Hnd, Hfg. rewrite app_nil_r in Hnd, Hfg.
    split; [done|]. intros p. by rewrite Hfg.
  - exfalso.
    destruct (Hseed b1) as (s1 & r1 & -> & _); [by left|].
    destruct (Hseed b2) as (s2 & r2 & -> & _); [right; by left|].
    assert (foreground w h binary s1) as H1.
    { apply Hfg. simpl. by left. }
    assert (foreground w h binary s2) as H2.
    { apply Hfg. change (s2 ∈ (s1 :: r1) ++ (s2 :: r2) ++ concat more).
      apply elem_of_app. right. by left. }
    assert (s2 ∈ s1 :: r1) as Hin.
    { apply (Hcomp (s1 :: r1) s1 s2); [by left|by left|by apply Hconn]. }
    change (NoDup ((s1 :: r1) ++ (s2 :: r2) ++ concat more)) in Hnd.
    apply NoDup_app in Hnd as (_ & Hdisj & _).
    apply (Hdisj s2 Hin). by left.
Qed.

(** X17: when the foreground of the mask is one 8-connected region, the
    call reports one shape for it if the region has more than 20 pixels
    and no shape otherwise. *)
Theorem single_region (clock : Q * Q) (img : ImageData) (r : DetectionResult) :
  detectShapes clock img = Resolved r →
  (∃ p, foreground (width img) (height img)
          (binaryMask (width img) (height img)
             (grayscale (width img) (height img) (data img))) p) →
  (∀ p q,
     foreground (width img) (height img)
       (binaryMask (width img) (height img)
          (grayscale (width img) (height img) (data img))) p →
     foreground (width img) (height img)
       (binaryMask (width img) (height img)
          (grayscale (width img) (height img) (data img))) q →
     connected (width img) (height img)
       (binaryMask (width img) (height img)
          (grayscale (width img) (height img) (data img))) p q) →
  ∃ blob,
    NoDup blob
    ∧ (∀ p, p ∈ blob ↔
         foreground (width img) (height img)
           (binaryMask (width img) (height img)
              (grayscale (width img) (height img) (data img))) p)
    ∧ shapes r = if big blob then [shapeOf blob] else [].
Proof.
  intros (_ & -> & _)%detectShapes_resolved Hex Hconn.
  destruct (allBlobs_single _ _ _ Hex Hconn) as (blob & E & Hnd & Hfg).
  exists blob. split_and!; [done|done|].
  unfold sourceBlobs, contoursOf. rewrite findContours_filter, E.
  rewrite filter_cons. unfold big at 1.
  destruct (decide (Is_true (20 <? Z.of_nat (length blob)))) as [Hb|Hb].
  - unfold big. apply Is_true_true in Hb. by rewrite Hb.
  - unfold big. apply Is_true_false in Hb. by rewrite Hb.
Qed.

Lemma single_region_witness :
  let r := mkResult (map shapeOf (sourceBlobs blackSquare)) (0 - 0)%Q 7 7 in
  ∃ blob,
    NoDup blob
    ∧ (∀ p, p ∈ blob ↔
         foreground 7 7 (binaryMask 7 7 (grayscale 7 7 (data blackSquare))) p)
    ∧ shapes r = if big blob then [shapeOf blob] else [].
Proof.
  intros r. apply (single_region (0, 0)%Q blackSquare r).
  - reflexivity.
  - exists (mkPoint 1 1). change (width blackSquare) with 7.
    change (height blackSquare) with 7.
    split; [cbn [p_x p_y]; lia|]. vm_compute. reflexivity.
  - change (width blackSquare) with 7. change (height blackSquare) with 7.
    destruct (allBlobs_components 7 7
                (binaryMask 7 7 (grayscale 7 7 (data blackSquare))))
      as (_ & Hfg & Hcomp).
    assert (allBlobs 7 7 (binaryMask 7 7 (grayscale 7 7 (data blackSquare)))
            = [hd [] (allBlobs 7 7
                        (binaryMask 7 7 (grayscale 7 7 (data blackSquare))))])
      as E by (vm_compute; reflexivity).
    intros p q Hp%Hfg Hq%Hfg. rewrite E in Hp, Hq.
    rewrite concat_cons, concat_nil, app_nil_r in Hp, Hq.
    refine (proj1 (Hcomp _ p q _ Hp) Hq).
    rewrite E at 2. by left.
Defined.

(** ** Display names *)

Lemma replaceSeparators_app (s t : list Z) :
  replaceSeparators (s ++ t) = replaceSeparators s ++ replaceSeparators t.
Proof. apply map_app. Qed.

Lemma isExtension_length (e : list Z) : isExtension e = true → length e = 4%nat.
Proof. by destruct e as [|? [|? [|? [|? [|? ?]]]]]. Qed.

Lemma isExtension_no_separator (e : list Z) :
  isExtension e = true → replaceSeparators e = e.
Proof.
  destruct e as [|d [|a [|b [|c [|? ?]]]]]; try done.
  unfold isExtension, matchesLetter, replaceSeparators, isSeparator. intros He.
  simpl.
  repeat match goal with
         | |- context [?x =? ?y] => destruct (Z.eqb_spec x y)
         end; simpl in He; try done; subst; try lia.
Qed.

Lemma stripExtension_app (s e : list Z) :
  isExtension e = true → stripExtension (s ++ e) = s.
Proof.
  intros He. pose proof (isExtension_length e He) as Hl.
  unfold stripExtension. rewrite length_app, Hl.
  replace (length s + 4 - 4)%nat with (length s) by lia.
  by rewrite drop_app_length, He, take_app_length.
Qed.

Lemma replaceSeparators_clean (s : list Z) :
  Forall (λ c, c ≠ 95 ∧ c ≠ 45) (replaceSeparators s).
Proof.
  unfold replaceSeparators. apply Forall_fmap, Forall_forall. intros c _. simpl.
  unfold isSeparator.
  destruct (Z.eqb_spec c 95), (Z.eqb_spec c 45); simpl; lia.
Qed.

(** X18: the caption of a test image whose file name ends in [.svg] or
    [.png], in any mix of upper and lower case, is the name without that
    extension and with every underscore and hyphen turned into a space. *)
Theorem displayName_extension (stem ext : list Z) :
  isExtension ext = true →
  displayName (stem ++ ext) = replaceSeparators stem.
Proof.
  intros He. unfold displayName.
  rewrite replaceSeparators_app, (isExtension_no_separator ext He).
  by apply stripExtension_app.
Qed.

Lemma displayName_extension_witness :
  displayName ([114; 101; 100; 95; 98; 111; 120] ++ [46; 80; 110; 71])
  = replaceSeparators [114; 101; 100; 95; 98; 111; 120].
Proof.
  apply (displayName_extension [114; 101; 100; 95; 98; 111; 120]
           [46; 80; 110; 71]).
  reflexivity.
Defined.

(** X19: a caption never contains an underscore or a hyphen, and it is
    the file name's length or four code units shorter. *)
Theorem displayName_clean (imageName : list Z) :
  Forall (λ c, c ≠ 95 ∧ c ≠ 45) (displayName imageName)
  ∧ (length (displayName imageName) = length imageName
     ∨ (length (displayName imageName) + 4 = length imageName)%nat).
Proof.
  unfold displayName, stripExtension.
  pose proof (replaceSeparators_clean imageName) as Hc.
  assert (length (replaceSeparators imageName) = length imageName) as Hl
    by apply length_map.
  destruct (isExtension _) eqn:He.
  - split; [by apply Forall_take|]. right.
    apply isExtension_length in He. rewrite length_drop in He.
    rewrite length_take. lia.
  - split; [done|by left].
Qed.
